(** * SingleLinkedList: a shallow embedding of [src/main.cpp]

    The C++ class template [SingleLinkedList<Type>] owns a chain of heap
    nodes hanging off a sentinel node [head_] that is embedded in the list
    object, together with a [size_t] counter [size_].  The embedding keeps
    the pointer structure: nodes live in a heap indexed by addresses, list
    objects live in an object store indexed by their own address, and a
    [Node*] is either null, the address of some list's sentinel, or the
    address of a heap node.  Methods are state transformers that may return,
    throw ([std::bad_alloc] out of [new]) or have no defined behaviour. *)

From Stdlib Require Import ZArith Lia.
From stdpp Require Import base decidable option list gmap fin_maps fin_sets.

(** ** Data model *)

(** A [Node*]: [nullptr], [&l.head_] for the list object at address [l],
    or the address of a node obtained from [new]. *)
Inductive NodePtr : Set :=
  | nullptr
  | sentinel_of (l : positive)
  | node_at (a : positive).

#[global] Instance NodePtr_eq_dec : EqDecision NodePtr.
Proof. solve_decision. Defined.

(** [struct Node { Type value{}; Node* next_node{}; }] *)
Record Node (T : Type) : Type := mkNode { value : T; next_node : NodePtr }.
Arguments mkNode {T} _ _.
Arguments value {T} _.
Arguments next_node {T} _.

(** The private members [Node head_{}; size_t size_ = 0;]. *)
Record SingleLinkedList (T : Type) : Type := mkList { head_ : Node T; size_ : Z }.
Arguments mkList {T} _ _.
Arguments head_ {T} _.
Arguments size_ {T} _.

(** [BasicIterator<ValueType>]: one private member [Node* node_].  The
    mutable and the read-only flavour share this representation. *)
Record BasicIterator : Set := mkIter { node_ : NodePtr }.

#[global] Instance BasicIterator_eq_dec : EqDecision BasicIterator.
Proof. solve_decision. Defined.

(** The memory: heap nodes and live list objects. *)
Record state (T : Type) : Type := mkState {
  heap : gmap positive (Node T);
  objs : gmap positive (SingleLinkedList T)
}.
Arguments mkState {T} _ _.
Arguments heap {T} _.
Arguments objs {T} _.

(** What running a piece of code from a state produces. *)
Inductive outcome (T A : Type) : Type :=
  | Ret (a : A) (s : state T)      (* normal return *)
  | Throw (s : state T)            (* an exception propagates *)
  | Undefined.                     (* undefined behaviour, or no result *)
Arguments Ret {T A} _ _.
Arguments Throw {T A} _.
Arguments Undefined {T A}.

(** [size_t] is 64 bits wide: arithmetic on [size_] is modulo
    [SIZE_MAX + 1]. *)
Definition SIZE_MAX1 : Z := 2 ^ 64.

(** A model of [operator new] for the examples: hand out the least unused
    address as long as the address space is not exhausted. *)
Definition bump_new {V : Type} (h : gmap positive V) : option positive :=
  if (Z.of_nat (size h) + 1 <? SIZE_MAX1)%Z then Some (fresh (dom h)) else None.

(** ** The monad of method bodies *)

Definition M (T A : Type) : Type := state T → outcome T A.

Definition ret {T A} (a : A) : M T A := λ s, Ret a s.
Definition bind {T A B} (m : M T A) (k : A → M T B) : M T B := λ s,
  match m s with
  | Ret a s' => k a s'
  | Throw s' => Throw s'
  | Undefined => Undefined
  end.
Definition undefined {T A} : M T A := λ _, Undefined.

(** [body], and when an exception leaves it, [cleanup] before the exception
    travels on (stack unwinding).  The clean-up code of this program is
    [noexcept]. *)
Definition unwinding {T A} (body : M T A) (cleanup : M T unit) : M T A := λ s,
  match body s with
  | Ret a s' => Ret a s'
  | Throw s' =>
      match cleanup s' with
      | Ret _ s'' => Throw s''
      | _ => Undefined
      end
  | Undefined => Undefined
  end.

Declare Scope sll_scope.
Delimit Scope sll_scope with sll.
Notation "x <- m ;; k" := (bind m (λ x, k))
  (at level 20, m at level 99, k at level 200, only parsing) : sll_scope.
Notation "m ;; k" := (bind m (λ _, k))
  (at level 100, k at level 200, only parsing, right associativity) : sll_scope.
Local Open Scope sll_scope.

Section Code.
Context {T : Type} `{EqDecision T}.
(** [Type{}], the value-initialised element stored in the sentinel. *)
Variable T_default : T.
(** [operator==] and [operator<] of the element type. *)
Variable T_eq : T → T → bool.
Variable T_lt : T → T → bool.
(** The storage a new-expression [new Node(...)] obtains, given the nodes
    that exist: an unused address, or [None] when the expression throws
    ([std::bad_alloc], or an exception of the element's copy constructor,
    after which the storage is released again). *)
Variable operator_new : gmap positive (Node T) → option positive.

Local Abbreviation M := (M T).

(** *** Memory primitives *)

(** Reading [*p] for a [Node* p]. *)
Definition deref (p : NodePtr) : M (Node T) := λ s,
  match p with
  | nullptr => Undefined
  | sentinel_of l =>
      match objs s !! l with Some o => Ret (head_ o) s | None => Undefined end
  | node_at a =>
      match heap s !! a with Some n => Ret n s | None => Undefined end
  end.

(** [p->next_node = q]. *)
Definition set_next_node (p q : NodePtr) : M unit := λ s,
  match p with
  | nullptr => Undefined
  | sentinel_of l =>
      match objs s !! l with
      | Some o =>
          Ret tt (mkState (heap s)
                    (<[l := mkList (mkNode (value (head_ o)) q) (size_ o)]> (objs s)))
      | None => Undefined
      end
  | node_at a =>
      match heap s !! a with
      | Some n => Ret tt (mkState (<[a := mkNode (value n) q]> (heap s)) (objs s))
      | None => Undefined
      end
  end.

(** [new Node(val, next)]. *)
Definition new_Node (val : T) (next : NodePtr) : M NodePtr := λ s,
  match operator_new (heap s) with
  | Some a => Ret (node_at a) (mkState (<[a := mkNode val next]> (heap s)) (objs s))
  | None => Throw s
  end.

(** [delete p]. *)
Definition delete_Node (p : NodePtr) : M unit := λ s,
  match p with
  | nullptr => Ret tt s
  | sentinel_of _ => Undefined
  | node_at a =>
      match heap s !! a with
      | Some _ => Ret tt (mkState (delete a (heap s)) (objs s))
      | None => Undefined
      end
  end.

Definition get_size (this : positive) : M Z := λ s,
  match objs s !! this with Some o => Ret (size_ o) s | None => Undefined end.

Definition set_size (this : positive) (z : Z) : M unit := λ s,
  match objs s !! this with
  | Some o => Ret tt (mkState (heap s) (<[this := mkList (head_ o) z]> (objs s)))
  | None => Undefined
  end.

(** [++size_] and [--size_] on a [size_t]. *)
Definition incr_size (this : positive) : M unit :=
  z <- get_size this ;; set_size this ((z + 1) mod SIZE_MAX1)%Z.
Definition decr_size (this : positive) : M unit :=
  z <- get_size this ;; set_size this ((z - 1) mod SIZE_MAX1)%Z.

(** A bound on the number of iterations of a loop that walks the heap:
    one more than the number of nodes in it. *)
Definition loop_bound : M nat := λ s, Ret (S (size (heap s))) s.

(** *** Iterators *)

Definition before_begin (this : positive) : M BasicIterator :=
  ret (mkIter (sentinel_of this)).
Definition cbefore_begin := before_begin.

Definition begin (this : positive) : M BasicIterator :=
  h <- deref (sentinel_of this) ;; ret (mkIter (next_node h)).
Definition cbegin := begin.

Definition end_ : BasicIterator := mkIter nullptr.
Definition cend := end_.

(** [operator==] and [operator!=] of iterators. *)
Definition iter_eq (a b : BasicIterator) : bool := bool_decide (node_ a = node_ b).
Definition iter_ne (a b : BasicIterator) : bool := negb (iter_eq a b).

(** [operator++]: [assert(node_); node_ = node_->next_node]. *)
Definition iter_incr (it : BasicIterator) : M BasicIterator :=
  n <- deref (node_ it) ;; ret (mkIter (next_node n)).

(** [operator*]: [assert(node_); return node_->value]. *)
Definition iter_deref (it : BasicIterator) : M T :=
  n <- deref (node_ it) ;; ret (value n).

(** *** Member functions *)

Definition GetSize (this : positive) : M Z := get_size this.

Definition IsEmpty (this : positive) : M bool :=
  h <- deref (sentinel_of this) ;; ret (bool_decide (next_node h = nullptr)).

Definition PushFront (this : positive) (val : T) : M unit :=
  h <- deref (sentinel_of this) ;;
  p <- new_Node val (next_node h) ;;
  set_next_node (sentinel_of this) p ;;
  incr_size this.

Definition InsertAfter (this : positive) (pos : BasicIterator) (val : T)
  : M BasicIterator :=
  n <- deref (node_ pos) ;;
  p <- new_Node val (next_node n) ;;
  set_next_node (node_ pos) p ;;
  incr_size this ;;
  n' <- deref (node_ pos) ;;
  ret (mkIter (next_node n')).

Definition EraseAfter (this : positive) (pos : BasicIterator) : M BasicIterator :=
  e <- IsEmpty this ;;
  (if negb e then
     n <- deref (node_ pos) ;;
     let next := next_node n in
     n1 <- deref (node_ pos) ;;
     n2 <- deref (next_node n1) ;;
     set_next_node (node_ pos) (next_node n2) ;;
     delete_Node next ;;
     decr_size this
   else ret tt) ;;
  n' <- deref (node_ pos) ;;
  ret (mkIter (next_node n')).

Definition PopFront (this : positive) : M unit :=
  e <- IsEmpty this ;;
  if negb e then
    h <- deref (sentinel_of this) ;;
    let current := next_node h in
    h1 <- deref (sentinel_of this) ;;
    n2 <- deref (next_node h1) ;;
    set_next_node (sentinel_of this) (next_node n2) ;;
    delete_Node current ;;
    decr_size this
  else ret tt.

(** The [while] loop of [Clear]. *)
Fixpoint Clear_loop (fuel : nat) (this : positive) (current : NodePtr) : M unit :=
  match fuel with
  | O => undefined
  | S fuel' =>
      e <- IsEmpty this ;;
      if negb e then
        h <- deref (sentinel_of this) ;;
        n <- deref (next_node h) ;;
        set_next_node (sentinel_of this) (next_node n) ;;
        delete_Node current ;;
        h' <- deref (sentinel_of this) ;;
        Clear_loop fuel' this (next_node h')
      else ret tt
  end.

Definition Clear (this : positive) : M unit :=
  h <- deref (sentinel_of this) ;;
  fuel <- loop_bound ;;
  Clear_loop fuel this (next_node h) ;;
  set_size this 0%Z.

(** [std::swap] on the two head links, then on the two counters; each is
    [tmp = a; a = b; b = tmp] on the referenced members. *)
Definition swap (this other : positive) : M unit :=
  a <- deref (sentinel_of this) ;;
  let tmp := next_node a in
  b <- deref (sentinel_of other) ;;
  set_next_node (sentinel_of this) (next_node b) ;;
  set_next_node (sentinel_of other) tmp ;;
  sa <- get_size this ;;
  let tmp_size := sa in
  sb <- get_size other ;;
  set_size this sb ;;
  set_size other tmp_size.

(** The free function [swap(lhs, rhs)]. *)
Definition free_swap (lhs rhs : positive) : M unit := swap lhs rhs.

(** *** Object lifetime *)

(** Storage for a new list object with its default member initialisers
    [head_{}] and [size_ = 0]. *)
Definition new_object : M positive := λ s,
  let this := fresh (dom (objs s)) in
  Ret this (mkState (heap s)
              (<[this := mkList (mkNode T_default nullptr) 0%Z]> (objs s))).

Definition end_lifetime (this : positive) : M unit := λ s,
  match objs s !! this with
  | Some _ => Ret tt (mkState (heap s) (delete this (objs s)))
  | None => Undefined
  end.

(** [~SingleLinkedList() { Clear(); }] *)
Definition destructor (this : positive) : M unit :=
  Clear this ;; end_lifetime this.

(** A local variable of the class type: constructed, used by [body], and
    destroyed when the scope is left, normally or by an exception. *)
Definition with_local {A} (ctor : M positive) (body : positive → M A) : M A :=
  l <- ctor ;;
  a <- unwinding (body l) (destructor l) ;;
  destructor l ;;
  ret a.

(** [SingleLinkedList() = default] *)
Definition default_ctor : M positive := new_object.

(** [for (...) tmp.PushFront(v) for each v] over a sequence of values. *)
Fixpoint PushFront_each (this : positive) (vs : list T) : M unit :=
  match vs with
  | [] => ret tt
  | v :: vs' => PushFront this v ;; PushFront_each this vs'
  end.

(** [SingleLinkedList(std::initializer_list<Type> values)] *)
Definition init_list_ctor (values : list T) : M positive :=
  this <- new_object ;;
  unwinding
    (e <- IsEmpty this ;;
     z <- get_size this ;;
     if e && (z =? 0)%Z then
       with_local default_ctor (λ tmp,
         PushFront_each tmp (rev values) ;;
         swap this tmp)
     else ret tt)
    (end_lifetime this) ;;
  ret this.

(** [for (auto it = first; it != last; ++it) tmp_v.push_back(v) for v = *it] *)
Fixpoint push_back_each (fuel : nat) (it last : BasicIterator) (tmp_v : list T)
  : M (list T) :=
  match fuel with
  | O => undefined
  | S fuel' =>
      if iter_ne it last then
        v <- iter_deref it ;;
        it' <- iter_incr it ;;
        push_back_each fuel' it' last (tmp_v ++ [v])
      else ret tmp_v
  end.

(** [SingleLinkedList(const SingleLinkedList& other)] *)
Definition copy_ctor (other : positive) : M positive :=
  this <- new_object ;;
  unwinding
    (e <- IsEmpty this ;;
     z <- get_size this ;;
     if e && (z =? 0)%Z then
       with_local default_ctor (λ tmp,
         first <- begin other ;;
         fuel <- loop_bound ;;
         tmp_v <- push_back_each fuel first end_ [] ;;
         PushFront_each tmp (rev tmp_v) ;;
         swap this tmp)
     else ret tt)
    (end_lifetime this) ;;
  ret this.

(** [operator=(const SingleLinkedList& rhs)] *)
Definition assign (this rhs : positive) : M unit :=
  if bool_decide (this ≠ rhs) then
    with_local (copy_ctor rhs) (λ copy_value, swap this copy_value)
  else ret tt.

(** What a client sees when it iterates over the list:
    [for (auto it = l.begin(); it != l.end(); ++it) out.push_back(v) for v = *it]. *)
Definition iterate (this : positive) : M (list T) :=
  first <- begin this ;;
  fuel <- loop_bound ;;
  push_back_each fuel first end_ [].

(** [for (k = 0; k != n; ++k) ++it;] as a client would write it. *)
Fixpoint advance (n : nat) (it : BasicIterator) : M BasicIterator :=
  match n with
  | O => ret it
  | S n' => it' <- iter_incr it ;; advance n' it'
  end.

(** *** Comparison operators *)

(** [std::equal(first1, last1, first2)] of the standard library:
    [for (; first1 != last1; ++first1, ++first2)
       if (!(x == y)) return false;  with x = *first1, y = *first2
     return true;]
    where [==] is the one of the element type. *)
Fixpoint std_equal (fuel : nat) (first1 last1 first2 : BasicIterator) : M bool :=
  match fuel with
  | O => undefined
  | S fuel' =>
      if iter_ne first1 last1 then
        x <- iter_deref first1 ;;
        y <- iter_deref first2 ;;
        if negb (T_eq x y) then ret false
        else
          f1 <- iter_incr first1 ;;
          f2 <- iter_incr first2 ;;
          std_equal fuel' f1 last1 f2
      else ret true
  end.

(** [std::lexicographical_compare(first1, last1, first2, last2)] of the
    standard library:
    [for (; first1 != last1 && first2 != last2; ++first1, ++first2) {
       if (x < y) return true;       with x = *first1, y = *first2
       if (y < x) return false; }
     return first1 == last1 && first2 != last2;] *)
Fixpoint std_lexicographical_compare (fuel : nat)
    (first1 last1 first2 last2 : BasicIterator) : M bool :=
  match fuel with
  | O => undefined
  | S fuel' =>
      if iter_ne first1 last1 && iter_ne first2 last2 then
        x <- iter_deref first1 ;;
        y <- iter_deref first2 ;;
        if T_lt x y then ret true
        else if T_lt y x then ret false
        else
          f1 <- iter_incr first1 ;;
          f2 <- iter_incr first2 ;;
          std_lexicographical_compare fuel' f1 last1 f2 last2
      else ret (iter_eq first1 last1 && iter_ne first2 last2)
  end.

Definition operator_eq (lhs rhs : positive) : M bool :=
  a <- GetSize lhs ;;
  b <- GetSize rhs ;;
  if negb (a =? b)%Z then ret false
  else
    first1 <- begin lhs ;;
    first2 <- begin rhs ;;
    fuel <- loop_bound ;;
    std_equal fuel first1 end_ first2.

Definition operator_ne (lhs rhs : positive) : M bool :=
  b <- operator_eq lhs rhs ;; ret (negb b).

Definition operator_lt (lhs rhs : positive) : M bool :=
  first1 <- begin lhs ;;
  first2 <- begin rhs ;;
  fuel <- loop_bound ;;
  std_lexicographical_compare fuel first1 end_ first2 end_.

Definition operator_le (lhs rhs : positive) : M bool :=
  b <- operator_lt rhs lhs ;; ret (negb b).

Definition operator_gt (lhs rhs : positive) : M bool :=
  operator_lt rhs lhs.

Definition operator_ge (lhs rhs : positive) : M bool :=
  b <- operator_lt lhs rhs ;; ret (negb b).
End Code.

(** ** Representation invariant *)

Section Invariant.
Context {T : Type}.

(** [is_seg h p cs q]: following [next_node] links in the heap [h] from
    the pointer [p] visits exactly the nodes [cs] (address and value, in
    order) and then arrives at [q]. *)
Fixpoint is_seg (h : gmap positive (Node T)) (p : NodePtr)
    (cs : list (positive * T)) (q : NodePtr) : Prop :=
  match cs with
  | [] => p = q
  | c :: cs' =>
      p = node_at c.1 ∧ ∃ r, h !! c.1 = Some (mkNode c.2 r) ∧ is_seg h r cs' q
  end.

(** A chain is a segment that ends in the null pointer. *)
Definition is_chain (h : gmap positive (Node T)) (p : NodePtr)
    (cs : list (positive * T)) : Prop :=
  is_seg h p cs nullptr.

(** The list object at [l] owns the chain [cs]: its head link starts the
    chain and its counter holds the number of nodes. *)
Definition owns (s : state T) (l : positive) (cs : list (positive * T)) : Prop :=
  ∃ o, objs s !! l = Some o
       ∧ is_chain (heap s) (next_node (head_ o)) cs
       ∧ size_ o = Z.of_nat (length cs).

Definition disjoint_chains (m : gmap positive (list (positive * T))) : Prop :=
  ∀ l1 l2 c1 c2, l1 ≠ l2 → m !! l1 = Some c1 → m !! l2 = Some c2 →
                 c1.*1 ## c2.*1.

(** [represents s m]: the live list objects of [s] are the keys of [m],
    each owns the chain [m] gives it, no node belongs to two lists, and
    the heap fits into the address space. *)
Record represents (s : state T) (m : gmap positive (list (positive * T))) : Prop := {
  rep_dom : dom m = dom (objs s);
  rep_owns : ∀ l cs, m !! l = Some cs → owns s l cs;
  rep_disj : disjoint_chains m;
  rep_bound : (Z.of_nat (size (heap s)) < SIZE_MAX1)%Z
}.

Definition state_inv (s : state T) : Prop := ∃ m, represents s m.

(** The pointer held by an iterator at position [i] of a list with chain
    [cs]: position 0 is before-begin (the sentinel), position [k+1] is
    the [k]-th element, and past the last element it is the end. *)
Definition position (this : positive) (cs : list (positive * T)) (i : nat)
  : BasicIterator :=
  match i with
  | O => mkIter (sentinel_of this)
  | S k => match cs !! k with
           | Some c => mkIter (node_at c.1)
           | None => mkIter nullptr
           end
  end.

(** The state an outcome leaves behind, if it is defined. *)
Definition final {A} (o : outcome T A) : option (state T) :=
  match o with
  | Ret _ s => Some s
  | Throw s => Some s
  | Undefined => None
  end.

(** [wp o Q E]: the outcome is defined, satisfies [Q] when it is a normal
    return and [E] when it is an exception. *)
Definition wp {A} (o : outcome T A) (Q : A → state T → Prop) (E : state T → Prop)
  : Prop :=
  match o with
  | Ret a s => Q a s
  | Throw s => E s
  | Undefined => False
  end.
End Invariant.

(** ** Calls of the public interface and reachable states *)

Section Calls.
Context {T : Type} `{EqDecision T}.
Variable T_default : T.
Variable operator_new : gmap positive (Node T) → option positive.

(** The iterator [pos] references the sentinel or a real element of the
    list [this]. *)
Definition valid_position (s : state T) (this : positive) (pos : BasicIterator)
  : Prop :=
  ∃ cs i, owns s this cs ∧ i ≤ length cs ∧ pos = position this cs i.

Definition live (s : state T) (l : positive) : Prop := is_Some (objs s !! l).

(** One call a client can make. *)
Inductive call : Type :=
  | CallDefaultCtor
  | CallInitListCtor (values : list T)
  | CallCopyCtor (other : positive)
  | CallAssign (this rhs : positive)
  | CallPushFront (this : positive) (val : T)
  | CallPopFront (this : positive)
  | CallInsertAfter (this : positive) (pos : BasicIterator) (val : T)
  | CallEraseAfter (this : positive) (pos : BasicIterator)
  | CallClear (this : positive)
  | CallSwap (this other : positive)
  | CallFreeSwap (lhs rhs : positive)
  | CallDestructor (this : positive).

(** The state a call leaves behind, whether it returns or throws. *)
Definition exec (c : call) (s : state T) : option (state T) :=
  match c with
  | CallDefaultCtor => final (default_ctor T_default s)
  | CallInitListCtor values => final (init_list_ctor T_default operator_new values s)
  | CallCopyCtor other => final (copy_ctor T_default operator_new other s)
  | CallAssign this rhs => final (assign T_default operator_new this rhs s)
  | CallPushFront this val => final (PushFront operator_new this val s)
  | CallPopFront this => final (PopFront this s)
  | CallInsertAfter this pos val => final (InsertAfter operator_new this pos val s)
  | CallEraseAfter this pos => final (EraseAfter this pos s)
  | CallClear this => final (Clear this s)
  | CallSwap this other => final (swap this other s)
  | CallFreeSwap lhs rhs => final (free_swap lhs rhs s)
  | CallDestructor this => final (destructor this s)
  end.

(** What the caller owes: the objects involved are alive, and a position
    handed to [InsertAfter] or [EraseAfter] belongs to that list. *)
Definition precondition (s : state T) (c : call) : Prop :=
  match c with
  | CallDefaultCtor | CallInitListCtor _ => True
  | CallCopyCtor other => live s other
  | CallAssign this rhs => live s this ∧ live s rhs
  | CallPushFront this _ | CallPopFront this | CallClear this
  | CallDestructor this => live s this
  | CallInsertAfter this pos _ | CallEraseAfter this pos => valid_position s this pos
  | CallSwap this other | CallFreeSwap this other => live s this ∧ live s other
  end.





(** The states a program can get into by calls that have a defined
    outcome, starting with no list at all. *)
Inductive reachable : state T → Prop :=
  | reachable_init : reachable (mkState ∅ ∅)
  | reachable_call s c s' :
      reachable s → precondition s c → exec c s = Some s' → reachable s'.
End Calls.

(** ** Lexicographical order on sequences *)

(** [xs] is lexicographically less than [ys]: [xs] is a strict prefix of
    [ys], or at the first position where they differ the element of [xs]
    is the smaller one. *)
Definition lex_less {T : Type} (lt : T → T → bool) (xs ys : list T) : Prop :=
  (∃ y t, ys = xs ++ y :: t)
  ∨ (∃ p x y t1 t2, xs = p ++ x :: t1 ∧ ys = p ++ y :: t2 ∧ lt x y = true).

(** The same comparison as a function, element by element. *)
Fixpoint lex_ltb {T : Type} (lt : T → T → bool) (xs ys : list T) : bool :=
  match xs, ys with
  | _, [] => false
  | [], _ :: _ => true
  | x :: xs', y :: ys' =>
      if lt x y then true else if lt y x then false else lex_ltb lt xs' ys'
  end.

(** The elements of [xs] and [ys] at the same index are all equal by [eq]. *)
Fixpoint all_eqb {T : Type} (eq : T → T → bool) (xs ys : list T) : bool :=
  match xs, ys with
  | x :: xs', y :: ys' => eq x y && all_eqb eq xs' ys'
  | _, _ => true
  end.

(** ** A concrete instance: lists of integers *)

Definition empty_state : state Z := mkState ∅ ∅.

Definition run {A} (m : M Z A) (s : state Z) : option (A * state Z) :=
  match m s with Ret a s' => Some (a, s') | _ => None end.

Definition new_Z : gmap positive (Node Z) → option positive := bump_new.

(** The state after one call, or the same state when the call has no
    defined outcome. *)
Definition after (c : call (T:=Z)) (s : state Z) : state Z :=
  default s (exec 0%Z new_Z c s).

(** Three states of a small program: a list [{1, 2, 3}] at address 1, then
    a list [{1, 2, 4}] at address 2, then an empty list at address 3. *)
Definition state_1 : state Z :=
  Eval vm_compute in after (CallInitListCtor [1; 2; 3]%Z) empty_state.
Definition state_2 : state Z :=
  Eval vm_compute in after (CallInitListCtor [1; 2; 4]%Z) state_1.
Definition state_3 : state Z :=
  Eval vm_compute in after CallDefaultCtor state_2.

(** The nodes of the list at address 1: address and value. *)
Definition chain_1 : list (positive * Z) :=
  [(3%positive, 1%Z); (2%positive, 2%Z); (1%positive, 3%Z)].

(** All six comparison operators on two lists built from literals. *)
Definition compare_lists (xs ys : list Z)
  : option (bool * bool * bool * bool * bool * bool) :=
  fst <$> run (a <- init_list_ctor 0%Z new_Z xs ;;
               b <- init_list_ctor 0%Z new_Z ys ;;
               eq <- operator_eq Z.eqb a b ;;
               ne <- operator_ne Z.eqb a b ;;
               lt <- operator_lt Z.ltb a b ;;
               le <- operator_le Z.ltb a b ;;
               gt <- operator_gt Z.ltb a b ;;
               ge <- operator_ge Z.ltb a b ;;
               ret (eq, ne, lt, le, gt, ge)) empty_state.

(** ** Exceptions, leaks and failing allocation *)

(** A call that never leaves by an exception. *)
Definition nothrow {T A} (f : M T A) : Prop := ∀ s s', f s ≠ Throw s'.

(** Every allocated node is in the chain of a list of [m]. *)
Definition no_garbage {T} (s : state T) (m : gmap positive (list (positive * T)))
  : Prop :=
  ∀ a, is_Some (heap s !! a) → ∃ l cs, m !! l = Some cs ∧ a ∈ cs.*1.

(** The representation invariant together with the absence of leaked
    nodes. *)
Definition tight {T} (s : state T) (m : gmap positive (list (positive * T))) : Prop :=
  represents s m ∧ no_garbage s m.

(** A state without leaked nodes, for some assignment of chains to lists. *)
Definition state_tight {T} (s : state T) : Prop := ∃ m, tight s m.

(** Two states a client cannot tell apart: the same nodes, the same live
    lists, each with the same elements and size. *)
Definition same_lists {T} `{EqDecision T} (s s' : state T) : Prop :=
  heap s' = heap s
  ∧ (∀ l, live s' l ↔ live s l)
  ∧ ∀ l xs n, iterate l s = Ret xs s → GetSize l s = Ret n s →
              iterate l s' = Ret xs s' ∧ GetSize l s' = Ret n s'.

(** The allocator serves every request made while fewer than [n] nodes
    are allocated. *)
Definition serves {T} (operator_new : gmap positive (Node T) → option positive)
    (n : nat) : Prop :=
  ∀ h, size h < n → is_Some (operator_new h).

(** [within o Q]: no exception leaves, and [Q] holds on a normal return. *)
Definition within {T A} (o : outcome T A) (Q : A → state T → Prop) : Prop :=
  match o with
  | Ret a s => Q a s
  | Throw _ => False
  | Undefined => True
  end.

(** An allocator that refuses to allocate once [k] nodes are allocated. *)
Definition bounded_new {V : Type} (k : nat) (h : gmap positive V) : option positive :=
  if decide (size h < k) then Some (fresh (dom h)) else None.

(** [state_1] after [PushFront(9)] on its list, after [InsertAfter] of 9
    at the first element, after [EraseAfter] at the first element, and
    after a copy of the list was constructed. *)
Definition state_1_pushed : state Z :=
  Eval vm_compute in after (CallPushFront 1 9%Z) state_1.
Definition state_1_inserted : state Z :=
  Eval vm_compute in after (CallInsertAfter 1 (position 1 chain_1 1) 9%Z) state_1.
Definition state_1_erased : state Z :=
  Eval vm_compute in after (CallEraseAfter 1 (position 1 chain_1 1)) state_1.
Definition state_1_copied : state Z :=
  Eval vm_compute in after (CallCopyCtor 1) state_1.

(** [state_3] after [PushFront] of 5, 6 and 7 on its empty list, and
    [state_2] after a copy of list 1 was constructed and after list 1 was
    assigned to list 2. *)
Definition state_3_filled : state Z :=
  Eval vm_compute in
    default state_3 (final (PushFront_each new_Z 3 [5; 6; 7]%Z state_3)).

(** An [==] that is not reflexive, as the one of floating-point numbers:
    0 plays the part of NaN. *)
Definition nan_eq (x y : Z) : bool := negb (x =? 0)%Z && (x =? y)%Z.

(** [state_1] after a second list was constructed from [{7, 8}]. *)
Definition state_1_literal : state Z :=
  Eval vm_compute in after (CallInitListCtor [7; 8]%Z) state_1.

(** * Proofs *)

(** ** Segments and chains *)

Section Chains.
Context {T : Type}.
Implicit Types (h : gmap positive (Node T)) (p q r : NodePtr).
Implicit Types (cs : list (positive * T)) (a : positive).

Lemma is_seg_app h p cs1 cs2 q :
  is_seg h p (cs1 ++ cs2) q ↔ ∃ r, is_seg h p cs1 r ∧ is_seg h r cs2 q.
Proof.
  revert p. induction cs1 as [|c cs1 IH]; intros p; simpl.
  - split; [intros Hs; by exists p | by intros (r & -> & Hs)].
  - split.
    + intros (-> & r & Hl & Hs). apply IH in Hs as (r' & H1 & H2).
      exists r'. split; [|done]. split; [done|]. by exists r.
    + intros (r' & (-> & r & Hl & H1) & H2). split; [done|].
      exists r. split; [done|]. apply IH. by exists r'.
Qed.

(** The heap and the start pointer determine the chain. *)
Lemma is_chain_inj h p cs1 cs2 :
  is_chain h p cs1 → is_chain h p cs2 → cs1 = cs2.
Proof.
  unfold is_chain. revert p cs2.
  induction cs1 as [|[a v] cs1 IH]; intros p [|[a' v'] cs2]; simpl; try done.
  - by intros -> [? _].
  - by intros [-> _] ?.
  - intros (-> & r & Hl & H1) (Heq & r' & Hl' & H2).
    injection Heq as <-. rewrite Hl in Hl'. injection Hl' as <- <-.
    f_equal. by eapply IH.
Qed.

Lemma is_seg_lookup h p cs q a :
  is_seg h p cs q → a ∈ cs.*1 → ∃ v r, h !! a = Some (mkNode v r).
Proof.
  revert p. induction cs as [|c cs IH]; intros p; simpl.
  - by intros _ ?%elem_of_nil.
  - intros (-> & r & Hl & Hs) [->|Hin]%elem_of_cons; eauto.
Qed.

(** The tail of a chain, from one of its nodes on, is a chain. *)
Lemma is_chain_from_middle h p cs1 c cs2 :
  is_chain h p (cs1 ++ c :: cs2) → is_chain h (node_at c.1) (c :: cs2).
Proof.
  unfold is_chain. intros (r & _ & Hs)%is_seg_app.
  destruct Hs as (-> & Hs). done.
Qed.

(** A chain visits no node twice: it has no cycle. *)
Lemma is_chain_NoDup h p cs : is_chain h p cs → NoDup cs.*1.
Proof.
  revert p. induction cs as [|c cs IH]; intros p Hc; simpl.
  - constructor.
  - pose proof Hc as (-> & r & Hl & Hs). constructor; [|by eapply IH].
    intros (c' & Heq & Hin)%list_elem_of_fmap.
    apply list_elem_of_split in Hin as (cs1 & cs2 & ->).
    assert (is_chain h (node_at c'.1) (c' :: cs2)) as H1.
    { eapply (is_chain_from_middle _ _ (c :: cs1)). exact Hc. }
    rewrite <- Heq in H1.
    pose proof (is_chain_inj _ _ _ _ Hc H1) as Habs.
    apply (f_equal length) in Habs. simpl in Habs.
    rewrite length_app in Habs. simpl in Habs. lia.
Qed.

Lemma is_chain_length h p cs : is_chain h p cs → length cs ≤ size h.
Proof.
  intros Hc. pose proof (is_chain_NoDup _ _ _ Hc) as Hnd.
  rewrite <- (length_fmap fst cs).
  rewrite <- (size_dom (D := gset positive) h).
  rewrite <- (size_list_to_set (C := gset positive) cs.*1) by done.
  apply subseteq_size. intros a Ha%elem_of_list_to_set.
  apply elem_of_dom. destruct (is_seg_lookup _ _ _ _ _ Hc Ha) as (v & r & ->).
  by eexists.
Qed.

(** Frame rules: writing or freeing a node that is not on the segment. *)
Lemma is_seg_insert_ne h p cs q a n :
  a ∉ cs.*1 → is_seg h p cs q → is_seg (<[a := n]> h) p cs q.
Proof.
  revert p. induction cs as [|c cs IH]; intros p; simpl; [done|].
  intros Hnin (-> & r & Hl & Hs). apply not_elem_of_cons in Hnin as [Hne Hnin].
  split; [done|]. exists r. split; [|by apply IH].
  by rewrite lookup_insert_ne.
Qed.

Lemma is_seg_delete_ne h p cs q a :
  a ∉ cs.*1 → is_seg h p cs q → is_seg (delete a h) p cs q.
Proof.
  revert p. induction cs as [|c cs IH]; intros p; simpl; [done|].
  intros Hnin (-> & r & Hl & Hs). apply not_elem_of_cons in Hnin as [Hne Hnin].
  split; [done|]. exists r. split; [|by apply IH].
  by rewrite lookup_delete_ne.
Qed.

Lemma is_seg_fresh h p cs q a :
  h !! a = None → is_seg h p cs q → a ∉ cs.*1.
Proof.
  intros Hf Hs Hin. destruct (is_seg_lookup _ _ _ _ _ Hs Hin) as (v & r & Hl).
  congruence.
Qed.
End Chains.

(** ** Reasoning about outcomes *)

Section Outcomes.
Context {T : Type}.

Lemma wp_bind {A B} (m : M T A) (k : A → M T B) s Q E :
  wp (m s) (λ a s', wp (k a s') Q E) E → wp (bind m k s) Q E.
Proof. unfold bind. by destruct (m s). Qed.

Lemma wp_mono {A} (o : outcome T A) (Q Q' : A → state T → Prop) (E E' : state T → Prop) :
  wp o Q E → (∀ a s, Q a s → Q' a s) → (∀ s, E s → E' s) → wp o Q' E'.
Proof. destruct o; simpl; auto. Qed.

Lemma wp_unwinding {A} (body : M T A) (cleanup : M T unit) s Q E :
  wp (body s) Q (λ s', wp (cleanup s') (λ _ s'', E s'') (λ _, False)) →
  wp (unwinding body cleanup s) Q E.
Proof.
  unfold unwinding. destruct (body s) as [a s'|s'|]; simpl; [done| |done].
  by destruct (cleanup s').
Qed.

Lemma wp_defined {A} (o : outcome T A) Q E : wp o Q E → o ≠ Undefined.
Proof. by destruct o. Qed.

Lemma bind_Ret {A B} (m : M T A) (k : A → M T B) s a s' :
  m s = Ret a s' → bind m k s = k a s'.
Proof. unfold bind. by intros ->. Qed.
End Outcomes.

(** ** Representation lemmas *)

Section Representation.
Context {T : Type}.
Implicit Types (s : state T) (m : gmap positive (list (positive * T))).
Implicit Types (cs : list (positive * T)) (l a : positive).

Lemma is_seg_agree (h h' : gmap positive (Node T)) p cs q :
  (∀ a, a ∈ cs.*1 → h' !! a = h !! a) → is_seg h p cs q → is_seg h' p cs q.
Proof.
  revert p. induction cs as [|c cs IH]; intros p Hag; simpl; [done|].
  intros (-> & r & Hl & Hs). split; [done|]. exists r. split.
  - rewrite Hag; [done|]. simpl. left.
  - apply IH; [|done]. intros a Ha. apply Hag. simpl. by right.
Qed.

Lemma owns_inj s l cs1 cs2 : owns s l cs1 → owns s l cs2 → cs1 = cs2.
Proof.
  intros (o & Ho & Hc & _) (o' & Ho' & Hc' & _).
  rewrite Ho in Ho'. injection Ho' as <-. by eapply is_chain_inj.
Qed.

Lemma owns_NoDup s l cs : owns s l cs → NoDup cs.*1.
Proof. intros (o & _ & Hc & _). by eapply is_chain_NoDup. Qed.

Lemma owns_length s l cs : owns s l cs → length cs ≤ size (heap s).
Proof. intros (o & _ & Hc & _). by eapply is_chain_length. Qed.

Lemma owns_fresh s l cs a : owns s l cs → heap s !! a = None → a ∉ cs.*1.
Proof. intros (o & _ & Hc & _) Hf. by eapply is_seg_fresh. Qed.

(** An object that keeps its members, over a heap that agrees on its
    nodes, keeps its chain. *)
Lemma owns_frame s s' l cs :
  owns s l cs →
  objs s' !! l = objs s !! l →
  (∀ a, a ∈ cs.*1 → heap s' !! a = heap s !! a) →
  owns s' l cs.
Proof.
  intros (o & Ho & Hc & Hsz) Hobj Hheap. exists o.
  split; [by rewrite Hobj|]. split; [|done]. by eapply is_seg_agree.
Qed.

Lemma represents_lookup s m l o :
  represents s m → objs s !! l = Some o → ∃ cs, m !! l = Some cs ∧ owns s l cs.
Proof.
  intros Hr Ho. assert (l ∈ dom m) as [cs Hcs]%elem_of_dom.
  { rewrite (rep_dom _ _ Hr). apply elem_of_dom. by eexists. }
  exists cs. split; [done|]. by eapply rep_owns.
Qed.

(** One list changes its chain to [cs'], using only nodes it had or fresh
    ones; the other lists are framed out. *)
Lemma represents_update s s' m l cs cs' :
  represents s m →
  m !! l = Some cs →
  dom (objs s') = dom (objs s) →
  owns s' l cs' →
  (∀ l' c, l' ≠ l → m !! l' = Some c → owns s' l' c) →
  (∀ a, a ∈ cs'.*1 → a ∈ cs.*1 ∨ heap s !! a = None) →
  (Z.of_nat (size (heap s')) < SIZE_MAX1)%Z →
  represents s' (<[l := cs']> m).
Proof.
  intros Hr Hm Hdom Hown Hfr Hsub Hbd. split.
  - rewrite dom_insert_lookup_L by (by eexists).
    by rewrite Hdom, <- (rep_dom _ _ Hr).
  - intros l' c. rewrite lookup_insert. case_decide as Hl.
    + subst l'. by intros [= <-].
    + intros Hc. by apply Hfr.
  - assert (∀ l' c, l' ≠ l → m !! l' = Some c → cs'.*1 ## c.*1) as Hd.
    { intros l' c Hne Hc a Ha Ha'. destruct (Hsub a Ha) as [Hin|Hf].
      - by apply (rep_disj _ _ Hr l l' cs c (not_eq_sym Hne) Hm Hc a).
      - pose proof (rep_owns _ _ Hr _ _ Hc) as Ho.
        by apply (owns_fresh _ _ _ _ Ho Hf). }
    intros l1 l2 c1 c2 Hne. rewrite !lookup_insert.
    repeat case_decide; subst; try done.
    + intros [= <-] Hc2. by eapply Hd.
    + intros Hc1 [= <-] a Ha Ha'. by eapply (Hd l1 c1).
    + by apply (rep_disj _ _ Hr).
  - done.
Qed.
End Representation.

Ltac red_state :=
  cbn [heap objs node_ next_node value head_ size_ negb wp fst snd].

(** ** Read-only operations *)

Section Reads.
Context {T : Type} `{EqDecision T}.
Implicit Types (s : state T) (m : gmap positive (list (positive * T))).
Implicit Types (cs : list (positive * T)) (l a : positive).

Lemma deref_sentinel s l o :
  objs s !! l = Some o → deref (sentinel_of l) s = Ret (head_ o) s.
Proof. intros Ho. unfold deref. by rewrite Ho. Qed.

Lemma deref_node s a n :
  heap s !! a = Some n → deref (node_at a) s = Ret n s.
Proof. intros Hn. unfold deref. by rewrite Hn. Qed.

Lemma IsEmpty_owns s l cs :
  owns s l cs → IsEmpty l s = Ret (bool_decide (cs = [])) s.
Proof.
  intros (o & Ho & Hc & _). unfold IsEmpty.
  rewrite (bind_Ret _ _ _ _ _ (deref_sentinel _ _ _ Ho)). unfold ret. f_equal.
  destruct cs as [|c cs]; simpl in *.
  - by rewrite Hc.
  - destruct Hc as (-> & _). done.
Qed.

Lemma GetSize_owns s l cs :
  owns s l cs → GetSize l s = Ret (Z.of_nat (length cs)) s.
Proof.
  intros (o & Ho & _ & Hsz). unfold GetSize, get_size. by rewrite Ho, Hsz.
Qed.

Lemma begin_owns s l cs :
  owns s l cs → begin l s = Ret (position l cs 1) s.
Proof.
  intros (o & Ho & Hc & _). unfold begin.
  rewrite (bind_Ret _ _ _ _ _ (deref_sentinel _ _ _ Ho)). unfold ret. f_equal.
  destruct cs as [|c cs]; simpl in *.
  - by rewrite Hc.
  - destruct Hc as (-> & _). done.
Qed.

Lemma push_back_each_chain fuel s p cs acc :
  is_chain (heap s) p cs → length cs < fuel →
  push_back_each fuel (mkIter p) end_ acc s = Ret (acc ++ cs.*2) s.
Proof.
  revert p cs acc. induction fuel as [|fuel IH]; intros p cs acc Hc Hlen; [lia|].
  destruct cs as [|c cs]; simpl in *.
  - rewrite Hc. simpl. by rewrite app_nil_r.
  - destruct Hc as (-> & r & Hl & Hc). simpl.
    unfold iter_ne, iter_eq. simpl.
    unfold iter_deref, iter_incr. simpl.
    unfold bind, deref, ret; simpl. rewrite !Hl. simpl.
    rewrite (IH r cs); [|done|lia]. by rewrite <- app_assoc.
Qed.

Lemma iterate_owns s l cs : owns s l cs → iterate l s = Ret cs.*2 s.
Proof.
  intros Ho. unfold iterate.
  rewrite (bind_Ret _ _ _ _ _ (begin_owns _ _ _ Ho)).
  unfold bind, loop_bound. pose proof (owns_length _ _ _ Ho).
  destruct Ho as (o & Ho & Hc & _).
  assert (position l cs 1 = mkIter (next_node (head_ o))) as ->.
  { destruct cs as [|c cs]; simpl in *; [by rewrite Hc|].
    by destruct Hc as (-> & _). }
  rewrite (push_back_each_chain _ _ _ cs); [done|done|lia].
Qed.
End Reads.

(** ** Operations that change the lists *)

Section Writes.
Context {T : Type} `{EqDecision T}.
Variable T_default : T.
Variable operator_new : gmap positive (Node T) → option positive.
(** The allocator hands out an address that is not in use, and the nodes
    that exist at any time fit into a 64-bit address space. *)
Hypothesis operator_new_spec : ∀ h a,
  operator_new h = Some a → h !! a = None ∧ (Z.of_nat (size h) + 1 < SIZE_MAX1)%Z.
Implicit Types (s : state T) (m : gmap positive (list (positive * T))).
Implicit Types (cs : list (positive * T)) (l a : positive).

Lemma PushFront_spec s m l cs v :
  represents s m → m !! l = Some cs →
  wp (PushFront operator_new l v s)
     (λ _ s', ∃ a, heap s !! a = None ∧ represents s' (<[l := (a, v) :: cs]> m))
     (λ s', s' = s).
Proof.
  intros Hr Hm. destruct (rep_owns _ _ Hr _ _ Hm) as (o & Ho & Hc & Hsz).
  unfold PushFront, bind, deref, new_Node. rewrite Ho.
  destruct (operator_new (heap s)) as [a|] eqn:Hnew; simpl; [|done].
  destruct (operator_new_spec _ _ Hnew) as [Hfresh Hbound].
  rewrite Ho. unfold incr_size, bind, get_size, set_size; simpl.
  repeat (rewrite lookup_insert_eq; simpl). rewrite insert_insert_eq.
  exists a. split; [done|].
  pose proof (is_chain_length _ _ _ Hc) as Hlen.
  eapply represents_update; [done|done|..]; simpl.
  - apply dom_insert_lookup_L. by eexists.
  - eexists. split; [apply lookup_insert_eq|]. simpl. split.
    + split; [done|]. exists (next_node (head_ o)).
      split; [apply lookup_insert_eq|].
      apply is_seg_insert_ne; [|done]. by eapply is_seg_fresh.
    + rewrite Hsz. rewrite Z.mod_small; lia.
  - intros l' c Hne Hc'. eapply owns_frame; [by eapply rep_owns|..]; simpl.
    + by rewrite lookup_insert_ne.
    + intros a' Ha'. rewrite lookup_insert_ne; [done|]. intros <-.
      by eapply (owns_fresh _ _ _ _ (rep_owns _ _ Hr _ _ Hc')).
  - intros a' [->|Ha']%elem_of_cons; auto.
  - rewrite map_size_insert_None by done. lia.
Qed.

Lemma chain_start (h : gmap positive (Node T)) p cs :
  is_chain h p cs →
  mkIter p = match cs !! 0 with
             | Some c => mkIter (node_at c.1)
             | None => mkIter nullptr
             end.
Proof. destruct cs as [|c cs]; simpl; [by intros ->|by intros (-> & _)]. Qed.

(** Cutting a chain at its [k]-th node. *)
Lemma chain_split (h : gmap positive (Node T)) p cs k c :
  is_chain h p cs → cs !! k = Some c →
  ∃ r, is_seg h p (take k cs) (node_at c.1)
       ∧ h !! c.1 = Some (mkNode c.2 r)
       ∧ is_chain h r (drop (S k) cs)
       ∧ (c.1 ∉ (take k cs).*1)
       ∧ (c.1 ∉ (drop (S k) cs).*1)
       ∧ ((take k cs).*1 ## (drop (S k) cs).*1).
Proof.
  intros Hc Hk. pose proof (is_chain_NoDup _ _ _ Hc) as Hnd.
  rewrite <- (take_drop_middle _ _ _ Hk) in Hc, Hnd.
  apply is_seg_app in Hc as (r1 & H1 & (-> & r & Hl & H2)).
  rewrite fmap_app, fmap_cons in Hnd.
  apply NoDup_app in Hnd as (_ & Hd & Hnd2).
  apply NoDup_cons in Hnd2 as [Hn2 _].
  exists r. repeat split; try done.
  - intros Hin. apply (Hd _ Hin). left.
  - intros a Ha Ha'. apply (Hd _ Ha). by right.
Qed.

Lemma InsertAfter_spec s m l cs i v :
  represents s m → m !! l = Some cs → i ≤ length cs →
  wp (InsertAfter operator_new l (position l cs i) v s)
     (λ it s', ∃ a, heap s !! a = None ∧ it = mkIter (node_at a)
                    ∧ represents s' (<[l := take i cs ++ (a, v) :: drop i cs]> m))
     (λ s', s' = s).
Proof.
  intros Hr Hm Hi. destruct (rep_owns _ _ Hr _ _ Hm) as (o & Ho & Hc & Hsz).
  pose proof (is_chain_length _ _ _ Hc) as Hlen.
  destruct i as [|k]; simpl.
  - unfold InsertAfter, bind, deref, new_Node; simpl. rewrite Ho.
    destruct (operator_new (heap s)) as [a|] eqn:Hnew; simpl; [|done].
    destruct (operator_new_spec _ _ Hnew) as [Hfresh Hbound].
    rewrite Ho. unfold incr_size, bind, get_size, set_size; simpl.
    repeat (rewrite lookup_insert_eq; simpl). rewrite insert_insert_eq.
    exists a. split; [done|]. split; [done|]. rewrite drop_0.
    eapply represents_update; [done|done|..]; simpl.
    + apply dom_insert_lookup_L. by eexists.
    + eexists. split; [apply lookup_insert_eq|]. simpl. split.
      * split; [done|]. exists (next_node (head_ o)).
        split; [apply lookup_insert_eq|].
        apply is_seg_insert_ne; [|done]. by eapply is_seg_fresh.
      * rewrite Hsz. rewrite Z.mod_small; lia.
    + intros l' c Hne Hc'. eapply owns_frame; [by eapply rep_owns|..]; simpl.
      * by rewrite lookup_insert_ne.
      * intros a' Ha'. rewrite lookup_insert_ne; [done|]. intros <-.
        by eapply (owns_fresh _ _ _ _ (rep_owns _ _ Hr _ _ Hc')).
    + intros a' [->|Ha']%elem_of_cons; auto.
    + rewrite map_size_insert_None by done. lia.
  - destruct (lookup_lt_is_Some_2 cs k) as [c Hk]; [lia|]. rewrite Hk. simpl.
    destruct (chain_split _ _ _ _ _ Hc Hk) as (r & H1 & Hl & H2 & Hn1 & Hn2 & Hd).
    unfold InsertAfter, bind, deref, new_Node; simpl. rewrite Hl.
    destruct (operator_new (heap s)) as [a|] eqn:Hnew; simpl; [|done].
    destruct (operator_new_spec _ _ Hnew) as [Hfresh Hbound].
    assert (a ≠ c.1) as Hac by congruence.
    rewrite lookup_insert_ne by done. rewrite Hl. simpl.
    unfold incr_size, bind, get_size, set_size; simpl. rewrite Ho. simpl.
    rewrite Ho. simpl. rewrite lookup_insert_eq. simpl.
    exists a. split; [done|]. split; [done|].
    rewrite (take_S_r _ _ _ Hk), <- app_assoc. simpl.
    eapply represents_update; [done|done|..]; simpl.
    + apply dom_insert_lookup_L. by eexists.
    + eexists. split; [apply lookup_insert_eq|]. simpl. split.
      * apply is_seg_app. exists (node_at c.1). split.
        { eapply is_seg_agree; [|done]. intros a' Ha'.
          rewrite !lookup_insert_ne; [done| |].
          - intros <-. by eapply (is_seg_fresh _ _ _ _ _ Hfresh H1).
          - by intros <-. }
        split; [done|]. exists (node_at a). split; [apply lookup_insert_eq|].
        split; [done|]. exists r. split.
        { rewrite lookup_insert_ne by done. apply lookup_insert_eq. }
        eapply is_seg_agree; [|done]. intros a' Ha'.
        rewrite !lookup_insert_ne; [done| |].
        { intros <-. by eapply (is_seg_fresh _ _ _ _ _ Hfresh H2). }
        by intros <-.
      * rewrite Hsz, length_app. simpl.
        pose proof (f_equal length (take_drop_middle _ _ _ Hk)) as Hl'.
        rewrite length_app in Hl'. simpl in Hl'.
        rewrite Z.mod_small; lia.
    + intros l' c' Hne Hc'. pose proof (rep_owns _ _ Hr _ _ Hc') as Ho'.
      eapply owns_frame; [done|..]; simpl.
      * by rewrite lookup_insert_ne.
      * intros a' Ha'. rewrite !lookup_insert_ne; [done| |].
        { intros <-. by eapply (owns_fresh _ _ _ _ Ho'). }
        intros <-. apply (rep_disj _ _ Hr l l' cs c' (not_eq_sym Hne) Hm Hc' c.1); [|done].
        apply list_elem_of_fmap. exists c. split; [done|].
        by eapply list_elem_of_lookup_2.
    + intros a' Ha'.
      rewrite fmap_app, !fmap_cons, elem_of_app, !elem_of_cons in Ha'.
      simpl in Ha'.
      assert (cs.*1 = (take k cs).*1 ++ c.1 :: (drop (S k) cs).*1) as ->.
      { rewrite <- (take_drop_middle _ _ _ Hk) at 1.
        by rewrite fmap_app, fmap_cons. }
      rewrite elem_of_app, elem_of_cons.
      destruct Ha' as [?|[?|[->|?]]]; auto.
    + rewrite map_size_insert_Some.
      2:{ rewrite lookup_insert_ne by done. by eexists. }
      rewrite map_size_insert_None by done. lia.
Qed.

(** [EraseAfter] on an empty list, called with the before-begin position. *)
Lemma EraseAfter_empty s l :
  owns s l [] → EraseAfter l (mkIter (sentinel_of l)) s = Ret end_ s.
Proof.
  intros Hown. unfold EraseAfter.
  rewrite (bind_Ret _ _ _ _ _ (IsEmpty_owns _ _ _ Hown)). simpl.
  destruct Hown as (o & Ho & Hc & _). simpl in Hc.
  unfold bind, ret, deref. rewrite Ho. unfold end_. by rewrite Hc.
Qed.

Lemma EraseAfter_spec s m l cs i :
  represents s m → m !! l = Some cs → i < length cs →
  wp (EraseAfter l (position l cs i) s)
     (λ it s', it = position l cs (S (S i))
               ∧ represents s' (<[l := delete i cs]> m))
     (λ _, False).
Proof.
  intros Hr Hm Hi. pose proof (rep_owns _ _ Hr _ _ Hm) as Hown.
  unfold EraseAfter. rewrite (bind_Ret _ _ _ _ _ (IsEmpty_owns _ _ _ Hown)).
  rewrite bool_decide_false by (intros ->; simpl in Hi; lia). simpl.
  destruct Hown as (o & Ho & Hc & Hsz).
  pose proof (is_chain_length _ _ _ Hc) as Hlen.
  pose proof (rep_bound _ _ Hr) as Hbd.
  destruct (lookup_lt_is_Some_2 cs i) as [d Hd]; [lia|].
  destruct (chain_split _ _ _ _ _ Hc Hd) as (r & H1 & Hl & H2 & Hn1 & Hn2 & Hdj).
  pose proof (chain_start _ _ _ H2) as Hr2. rewrite lookup_drop in Hr2.
  replace (S i + 0) with (S i) in Hr2 by lia.
  rewrite delete_take_drop.
  assert (∀ l' c', l' ≠ l → m !! l' = Some c' → d.1 ∉ c'.*1) as Hother.
  { intros l' c' Hne Hc' Hin.
    apply (rep_disj _ _ Hr l l' cs c' (not_eq_sym Hne) Hm Hc' d.1); [|done].
    apply list_elem_of_fmap. exists d. split; [done|].
    by eapply list_elem_of_lookup_2. }
  assert (length cs = length (take i cs ++ drop (S i) cs) + 1) as Hlen'.
  { rewrite <- (take_drop_middle _ _ _ Hd) at 1. rewrite !length_app. simpl. lia. }
  assert (∀ a', a' ∈ (take i cs ++ drop (S i) cs).*1 → a' ∈ cs.*1) as Hsub.
  { intros a'. rewrite <- (take_drop_middle _ _ _ Hd) at 3.
    rewrite !fmap_app, fmap_cons, !elem_of_app, elem_of_cons. tauto. }
  destruct i as [|k]; simpl.
  - rewrite take_0 in *. simpl in H1.
    unfold bind, ret, deref, set_next_node, delete_Node; simpl.
    unfold decr_size, bind, get_size, set_size.
    repeat first [rewrite Ho | rewrite H1 | rewrite Hl | rewrite lookup_insert_eq
                 | progress red_state].
    rewrite insert_insert_eq.
    split; [by rewrite Hr2|].
    eapply represents_update; [done|done|..]; simpl.
    + apply dom_insert_lookup_L. by eexists.
    + eexists. split; [apply lookup_insert_eq|]. simpl. split.
      * by apply is_seg_delete_ne.
      * simpl in Hlen'. rewrite Hsz. rewrite Z.mod_small; lia.
    + intros l' c' Hne Hc'. eapply owns_frame; [by eapply rep_owns|..]; simpl.
      * by rewrite lookup_insert_ne.
      * intros a' Ha'. rewrite lookup_delete_ne; [done|]. intros <-.
        by eapply Hother.
    + intros a' Ha'. left. by apply Hsub.
    + rewrite map_size_delete_Some by (by eexists). lia.
  - destruct (lookup_lt_is_Some_2 cs k) as [c Hk]; [lia|]. rewrite Hk. simpl.
    assert (take (S k) cs = take k cs ++ [c]) as Htk by by apply take_S_r.
    rewrite Htk in H1. apply is_seg_app in H1 as (r1 & H0 & (-> & r' & Hlc & Heq)).
    simpl in Heq. subst r'.
    assert (c.1 ≠ d.1) as Hcd.
    { intros Heq. apply Hn1. rewrite Htk, fmap_app, elem_of_app. right.
      rewrite <- Heq. simpl. left. }
    unfold bind, ret, deref, set_next_node, delete_Node; simpl.
    unfold decr_size, bind, get_size, set_size.
    repeat first [rewrite Ho | rewrite Hlc | rewrite Hl | rewrite lookup_insert_eq
                 | rewrite lookup_insert_ne by done
                 | rewrite lookup_delete_ne by done
                 | progress red_state].
    split; [by rewrite Hr2|].
    assert (c.1 ∉ (take k cs).*1) as Hck.
    { pose proof (is_chain_NoDup _ _ _ Hc) as Hnd.
      rewrite <- (take_drop_middle _ _ _ Hk), fmap_app, fmap_cons in Hnd.
      apply NoDup_app in Hnd as (_ & Hnd & _). intros Hin. apply (Hnd _ Hin). left. }
    eapply represents_update; [done|done|..]; simpl.
    + apply dom_insert_lookup_L. by eexists.
    + eexists. split; [apply lookup_insert_eq|]. simpl. split.
      * rewrite Htk, <- app_assoc. simpl. apply is_seg_app. exists (node_at c.1). split.
        { eapply is_seg_agree; [|done]. intros a' Ha'.
          rewrite lookup_delete_ne, lookup_insert_ne; [done| |].
          - by intros <-.
          - intros <-. apply Hn1. rewrite Htk, fmap_app, elem_of_app. by left. }
        split; [done|]. exists r. split.
        { rewrite lookup_delete_ne by done. apply lookup_insert_eq. }
        eapply is_seg_agree; [|done]. intros a' Ha'.
        rewrite lookup_delete_ne, lookup_insert_ne; [done| |].
        { intros <-. apply (Hdj c.1); [|done].
          rewrite Htk, fmap_app, elem_of_app. right. simpl. left. }
        by intros <-.
      * rewrite Hsz, Hlen'. rewrite Z.mod_small; lia.
    + intros l' c' Hne Hc'. pose proof (rep_owns _ _ Hr _ _ Hc') as Ho'.
      eapply owns_frame; [done|..]; simpl.
      * by rewrite lookup_insert_ne.
      * intros a' Ha'. rewrite lookup_delete_ne, lookup_insert_ne; [done| |].
        { intros <-.
          apply (rep_disj _ _ Hr l l' cs c' (not_eq_sym Hne) Hm Hc' c.1); [|done].
          apply list_elem_of_fmap. exists c. split; [done|].
          by eapply list_elem_of_lookup_2. }
        intros <-. by eapply Hother.
    + intros a' Ha'. left. by apply Hsub.
    + rewrite map_size_delete_Some.
      2:{ rewrite lookup_insert_ne by done. by eexists. }
      rewrite map_size_insert_Some by (by eexists). lia.
Qed.

Lemma PopFront_empty s l : owns s l [] → PopFront l s = Ret tt s.
Proof.
  intros Hown. unfold PopFront.
  by rewrite (bind_Ret _ _ _ _ _ (IsEmpty_owns _ _ _ Hown)).
Qed.

Lemma PopFront_spec s m l c cs :
  represents s m → m !! l = Some (c :: cs) →
  wp (PopFront l s) (λ _ s', represents s' (<[l := cs]> m)) (λ _, False).
Proof.
  intros Hr Hm. pose proof (rep_owns _ _ Hr _ _ Hm) as Hown.
  unfold PopFront. rewrite (bind_Ret _ _ _ _ _ (IsEmpty_owns _ _ _ Hown)).
  rewrite bool_decide_false by done.
  destruct Hown as (o & Ho & Hc & Hsz).
  pose proof (is_chain_length _ _ _ Hc) as Hlen.
  pose proof (rep_bound _ _ Hr) as Hbd.
  pose proof (is_chain_NoDup _ _ _ Hc) as Hnd.
  rewrite fmap_cons in Hnd. apply NoDup_cons in Hnd as [Hnin _].
  destruct Hc as (H1 & r & Hl & H2).
  unfold bind, ret, deref, set_next_node, delete_Node, decr_size, bind,
    get_size, set_size.
  repeat first [rewrite Ho | rewrite H1 | rewrite Hl | rewrite lookup_insert_eq
               | progress red_state].
  rewrite insert_insert_eq.
  eapply represents_update; [done|done|..]; simpl.
  - apply dom_insert_lookup_L. by eexists.
  - eexists. split; [apply lookup_insert_eq|]. simpl. split.
    + by apply is_seg_delete_ne.
    + rewrite Hsz. simpl in *. rewrite Z.mod_small; lia.
  - intros l' c' Hne Hc'. eapply owns_frame; [by eapply rep_owns|..]; simpl.
    + by rewrite lookup_insert_ne.
    + intros a' Ha'. rewrite lookup_delete_ne; [done|]. intros <-.
      apply (rep_disj _ _ Hr l l' _ c' (not_eq_sym Hne) Hm Hc' c.1); [|done].
      simpl. left.
  - intros a' Ha'. left. simpl. by right.
  - rewrite map_size_delete_Some by (by eexists). lia.
Qed.

(** The loop of [Clear] frees the whole chain and leaves the head link
    null; nodes outside the chain are untouched. *)
Lemma Clear_loop_spec fuel s l o cs :
  objs s !! l = Some o →
  is_chain (heap s) (next_node (head_ o)) cs →
  length cs < fuel →
  ∃ h', Clear_loop fuel l (next_node (head_ o)) s
        = Ret tt (mkState h'
            (<[l := mkList (mkNode (value (head_ o)) nullptr) (size_ o)]> (objs s)))
        ∧ (∀ a, a ∉ cs.*1 → h' !! a = heap s !! a)
        ∧ size h' ≤ size (heap s).
Proof.
  revert s o cs. induction fuel as [|fuel IH]; intros s o cs Ho Hc Hlen; [lia|].
  pose proof (is_chain_NoDup _ _ _ Hc) as Hnd.
  destruct cs as [|c cs].
  - simpl in Hc. exists (heap s). simpl.
    unfold IsEmpty, bind, ret, deref. rewrite Ho, Hc. simpl.
    split; [|done]. f_equal. destruct s as [h ob]. simpl in *. f_equal.
    symmetry. apply insert_id. rewrite Ho. f_equal.
    destruct o as [[v nx] sz]. simpl in *. by rewrite Hc.
  - rewrite fmap_cons in Hnd. apply NoDup_cons in Hnd as [Hnin _].
    destruct Hc as (H1 & r & Hl & H2). simpl in Hlen.
    set (s1 := mkState (delete c.1 (heap s))
                 (<[l := mkList (mkNode (value (head_ o)) r) (size_ o)]> (objs s))).
    destruct (IH s1 (mkList (mkNode (value (head_ o)) r) (size_ o)) cs)
      as (h' & Hrun & Hag & Hsz).
    { apply lookup_insert_eq. }
    { simpl. by apply is_seg_delete_ne. }
    { lia. }
    exists h'. split; [|split].
    + simpl. unfold IsEmpty, bind, ret, deref, set_next_node, delete_Node.
      repeat first [rewrite Ho | rewrite H1 | rewrite Hl | rewrite lookup_insert_eq
                   | rewrite bool_decide_false by done
                   | progress red_state].
      fold s1. simpl in Hrun. rewrite Hrun. subst s1. simpl.
      by rewrite insert_insert_eq.
    + intros a Ha. rewrite fmap_cons, not_elem_of_cons in Ha. destruct Ha as [Hne Ha].
      rewrite (Hag a Ha). simpl. by rewrite lookup_delete_ne.
    + simpl in Hsz. rewrite map_size_delete_Some in Hsz by (by eexists). lia.
Qed.

Lemma Clear_spec s m l cs :
  represents s m → m !! l = Some cs →
  wp (Clear l s) (λ _ s', represents s' (<[l := []]> m)) (λ _, False).
Proof.
  intros Hr Hm. destruct (rep_owns _ _ Hr _ _ Hm) as (o & Ho & Hc & Hsz).
  pose proof (is_chain_length _ _ _ Hc) as Hlen.
  pose proof (rep_bound _ _ Hr) as Hbd.
  destruct (Clear_loop_spec (S (size (heap s))) s l o cs) as (h' & Hrun & Hag & Hsize);
    [done|done|lia|].
  unfold Clear, bind, deref, loop_bound, set_size. rewrite Ho, Hrun.
  red_state. rewrite lookup_insert_eq. red_state. rewrite insert_insert_eq.
  eapply represents_update; [done|done|..]; simpl.
  - apply dom_insert_lookup_L. by eexists.
  - eexists. split; [apply lookup_insert_eq|]. done.
  - intros l' c' Hne Hc'. eapply owns_frame; [by eapply rep_owns|..]; simpl.
    + by rewrite lookup_insert_ne.
    + intros a' Ha'. apply Hag. intros Hin.
      by apply (rep_disj _ _ Hr l l' _ c' (not_eq_sym Hne) Hm Hc' a').
  - by intros a' Ha'%elem_of_nil.
  - lia.
Qed.

Lemma swap_self s l o : objs s !! l = Some o → swap l l s = Ret tt s.
Proof.
  intros Ho. unfold swap, bind, ret, deref, set_next_node, get_size, set_size.
  repeat first [rewrite Ho | rewrite lookup_insert_eq | progress red_state].
  f_equal. destruct s as [h ob]. simpl in *. f_equal.
  rewrite !insert_insert_eq. apply insert_id. rewrite Ho.
  by destruct o as [[v nx] sz].
Qed.

Lemma swap_spec s m a b ca cb :
  represents s m → m !! a = Some ca → m !! b = Some cb →
  wp (swap a b s)
     (λ _ s', represents s' (<[a := cb]> (<[b := ca]> m)) ∧ heap s' = heap s)
     (λ _, False).
Proof.
  intros Hr Ha Hb.
  destruct (rep_owns _ _ Hr _ _ Ha) as (oa & Hoa & Hca & Hsa).
  destruct (rep_owns _ _ Hr _ _ Hb) as (ob & Hob & Hcb & Hsb).
  destruct (decide (a = b)) as [->|Hne].
  - rewrite (swap_self _ _ _ Hoa). simpl. split; [|done].
    rewrite Ha in Hb. injection Hb as <-.
    by rewrite insert_insert_eq, (insert_id m b ca).
  - unfold swap, bind, ret, deref, set_next_node, get_size, set_size.
    repeat first [rewrite Hoa | rewrite Hob | rewrite lookup_insert_eq
                 | rewrite lookup_insert_ne by done | progress red_state].
    split; [|done]. split; simpl.
    + apply set_eq. intros l. rewrite !elem_of_dom, !lookup_insert_is_Some.
      assert (is_Some (m !! l) ↔ is_Some (objs s !! l)) as ->.
      { rewrite <- !elem_of_dom. by rewrite (rep_dom _ _ Hr). }
      destruct (decide (a = l)), (decide (b = l)); tauto.
    + intros l cs. rewrite !lookup_insert.
      destruct (decide (a = l)) as [<-|Hal].
      * intros [= <-]. eexists. split; simpl.
        { rewrite lookup_insert_ne by done. apply lookup_insert_eq. }
        done.
      * destruct (decide (b = l)) as [<-|Hbl].
        { intros [= <-]. eexists. split; simpl; [apply lookup_insert_eq|]. done. }
        intros Hl. destruct (rep_owns _ _ Hr _ _ Hl) as (o & Ho & Hc & Hs).
        exists o. split; simpl; [|done]. by rewrite !lookup_insert_ne.
    + pose proof (rep_disj _ _ Hr) as Hd.
      set (σ := λ l : positive,
                  if decide (l = a) then b else if decide (l = b) then a else l).
      assert (∀ l, <[a := cb]> (<[b := ca]> m) !! l = m !! σ l) as Hσ.
      { intros l. unfold σ. rewrite !lookup_insert.
        repeat case_decide; subst; congruence. }
      assert (∀ l1 l2, σ l1 = σ l2 → l1 = l2) as Hinj.
      { intros l1 l2. unfold σ. repeat case_decide; congruence. }
      intros l1 l2 c1 c2 H12. rewrite !Hσ. apply Hd. intros Heq. by apply H12, Hinj.
    + apply (rep_bound _ _ Hr).
Qed.

Lemma new_object_spec s m :
  represents s m →
  wp (new_object T_default s)
     (λ l s', m !! l = None ∧ heap s' = heap s ∧ represents s' (<[l := []]> m))
     (λ _, False).
Proof.
  intros Hr. unfold new_object. simpl.
  set (l := fresh (dom (objs s))).
  assert (l ∉ dom (objs s)) as Hl by apply is_fresh.
  assert (m !! l = None) as Hm.
  { apply not_elem_of_dom. by rewrite (rep_dom _ _ Hr). }
  split; [done|]. split; [done|]. split; simpl.
  - by rewrite !dom_insert_L, (rep_dom _ _ Hr).
  - intros l' cs. rewrite lookup_insert. case_decide as Hll.
    + subst l'. intros [= <-]. eexists. split; simpl; [apply lookup_insert_eq|]. done.
    + intros Hcs. destruct (rep_owns _ _ Hr _ _ Hcs) as (o & Ho & Hc & Hs).
      exists o. split; simpl; [|done]. by rewrite lookup_insert_ne.
  - intros l1 l2 c1 c2 Hne. rewrite !lookup_insert.
    repeat case_decide; subst; try done.
    + intros [= <-] _ a Ha. by apply elem_of_nil in Ha.
    + intros _ [= <-] a _ Ha. by apply elem_of_nil in Ha.
    + by apply (rep_disj _ _ Hr).
  - apply (rep_bound _ _ Hr).
Qed.

Lemma end_lifetime_spec s m l cs :
  represents s m → m !! l = Some cs →
  wp (end_lifetime l s)
     (λ _ s', heap s' = heap s ∧ represents s' (delete l m))
     (λ _, False).
Proof.
  intros Hr Hm. destruct (rep_owns _ _ Hr _ _ Hm) as (o & Ho & Hc & Hs).
  unfold end_lifetime. rewrite Ho. simpl. split; [done|]. split; simpl.
  - by rewrite !dom_delete_L, (rep_dom _ _ Hr).
  - intros l' c' [Hne Hc']%lookup_delete_Some.
    destruct (rep_owns _ _ Hr _ _ Hc') as (o' & Ho' & Hc2 & Hs').
    exists o'. split; simpl; [|done]. by rewrite lookup_delete_ne.
  - intros l1 l2 c1 c2 Hne [_ H1]%lookup_delete_Some [_ H2]%lookup_delete_Some.
    by apply (rep_disj _ _ Hr l1 l2).
  - apply (rep_bound _ _ Hr).
Qed.

Lemma destructor_spec s m l cs :
  represents s m → m !! l = Some cs →
  wp (destructor l s) (λ _ s', represents s' (delete l m)) (λ _, False).
Proof.
  intros Hr Hm. unfold destructor. apply wp_bind.
  eapply wp_mono; [by eapply Clear_spec|cbv beta|done].
  intros ? s1 Hr1.
  eapply wp_mono; [eapply end_lifetime_spec; [exact Hr1|apply lookup_insert_eq]
                  |cbv beta|done].
  intros ? s2 [_ Hr2]. by rewrite delete_insert_eq in Hr2.
Qed.

Lemma PushFront_each_spec s m l cs vs :
  represents s m → m !! l = Some cs →
  wp (PushFront_each operator_new l vs s)
     (λ _ s', ∃ new, new.*2 = rev vs ∧ represents s' (<[l := new ++ cs]> m))
     (λ s', ∃ new, represents s' (<[l := new ++ cs]> m)).
Proof.
  revert s m cs. induction vs as [|v vs IH]; intros s m cs Hr Hm; simpl.
  - exists []. split; [done|]. simpl. by rewrite insert_id.
  - apply wp_bind. eapply wp_mono; [by eapply PushFront_spec|cbv beta|cbv beta].
    + intros ? s1 (a & Hf & Hr1).
      eapply wp_mono; [eapply IH; [exact Hr1|apply lookup_insert_eq]
                      |cbv beta|cbv beta].
      * intros ? s2 (new & Hnew & Hr2). exists (new ++ [(a, v)]).
        rewrite insert_insert_eq in Hr2. rewrite <- app_assoc. split; [|done].
        by rewrite fmap_app, Hnew.
      * intros s2 (new & Hr2). exists (new ++ [(a, v)]).
        rewrite insert_insert_eq in Hr2. by rewrite <- app_assoc.
    + intros s1 ->. exists []. simpl. by rewrite insert_id.
Qed.

Lemma wp_with_local {A} (ctor : M T positive) (body : positive → M T A) s
    (Q : A → state T → Prop) (E : state T → Prop) :
  wp (ctor s)
     (λ l s1, wp (body l s1)
        (λ x s2, wp (destructor l s2) (λ _ s3, Q x s3) (λ _, False))
        (λ s2, wp (destructor l s2) (λ _ s3, E s3) (λ _, False)))
     E →
  wp (with_local ctor body s) Q E.
Proof.
  intros Hwp. unfold with_local. apply wp_bind.
  eapply wp_mono; [exact Hwp|cbv beta|done].
  intros l s1 Hbody. apply wp_bind. apply wp_unwinding.
  eapply wp_mono; [exact Hbody|cbv beta|done].
  intros x s2 Hd. apply wp_bind.
  eapply wp_mono; [exact Hd|cbv beta|done]. done.
Qed.

(** The common core of the constructors: fill a temporary and swap. *)
Lemma fill_and_swap_spec s m this tmp ws :
  represents s m → m !! this = Some [] → m !! tmp = Some [] →
  wp (bind (PushFront_each operator_new tmp ws) (λ _, swap this tmp) s)
     (λ _ s', ∃ new, new.*2 = rev ws
                     ∧ represents s' (<[this := new]> (<[tmp := []]> m)))
     (λ s', ∃ new, represents s' (<[tmp := new]> m)).
Proof.
  intros Hr Hthis Htmp. apply wp_bind.
  eapply wp_mono; [by eapply PushFront_each_spec|cbv beta|cbv beta].
  - intros ? s1 (new & Hnew & Hr1). rewrite app_nil_r in Hr1.
    destruct (decide (this = tmp)) as [->|Hne].
    + eapply wp_mono; [eapply swap_spec; [exact Hr1|apply lookup_insert_eq..]
                      |cbv beta|done].
      intros ? s2 [Hr2 _]. exists new. split; [done|].
      rewrite !insert_insert_eq in Hr2. by rewrite !insert_insert_eq.
    + eapply wp_mono; [eapply swap_spec; [exact Hr1| |apply lookup_insert_eq]
                      |cbv beta|done].
      { rewrite lookup_insert_ne by done. exact Hthis. }
      intros ? s2 [Hr2 _]. exists new. split; [done|].
      by rewrite insert_insert_eq in Hr2.
  - intros s1 (new & Hr1). exists new. by rewrite app_nil_r in Hr1.
Qed.

Lemma build_spec s m this ws (body : positive → M T unit) :
  represents s m → m !! this = Some [] →
  (∀ tmp s1, m !! tmp = None → represents s1 (<[tmp := []]> m) →
     body tmp s1
     = bind (PushFront_each operator_new tmp ws) (λ _, swap this tmp) s1) →
  wp (with_local (default_ctor T_default) body s)
     (λ _ s', ∃ new, new.*2 = rev ws ∧ represents s' (<[this := new]> m))
     (λ s', represents s' m).
Proof.
  intros Hr Hthis Hbody. apply wp_with_local. unfold default_ctor.
  eapply wp_mono; [by eapply new_object_spec|cbv beta|done].
  intros tmp s1 (Htmp & _ & Hr1).
  assert (this ≠ tmp) as Hne by congruence.
  rewrite (Hbody tmp s1 Htmp Hr1).
  eapply wp_mono; [eapply fill_and_swap_spec; [exact Hr1| |apply lookup_insert_eq]
                  |cbv beta|cbv beta].
  { by rewrite lookup_insert_ne. }
  - intros ? s2 (new & Hnew & Hr2).
    eapply wp_mono; [eapply destructor_spec; [exact Hr2|]|cbv beta|done].
    { rewrite lookup_insert_ne by done. apply lookup_insert_eq. }
    intros ? s3 Hr3. exists new. split; [done|].
    replace (<[this := new]> m)
      with (delete tmp (<[this:=new]> (<[tmp:=[]]> (<[tmp:=[]]> m)))); [done|].
    rewrite insert_insert_eq, delete_insert_ne, delete_insert_eq by done.
    by rewrite delete_id.
  - intros s2 (new & Hr2).
    eapply wp_mono; [eapply destructor_spec; [exact Hr2|apply lookup_insert_eq]
                    |cbv beta|done].
    intros ? s3 Hr3. rewrite insert_insert_eq, delete_insert_eq in Hr3.
    by rewrite delete_id in Hr3.
Qed.

Lemma init_list_ctor_spec s m values :
  represents s m →
  wp (init_list_ctor T_default operator_new values s)
     (λ this s', m !! this = None
                 ∧ ∃ new, new.*2 = values ∧ represents s' (<[this := new]> m))
     (λ s', represents s' m).
Proof.
  intros Hr. unfold init_list_ctor. apply wp_bind.
  eapply wp_mono; [by eapply new_object_spec|cbv beta|done].
  intros this s1 (Hthis & _ & Hr1).
  pose proof (rep_owns _ _ Hr1 this [] (lookup_insert_eq _ _ _)) as Hown.
  apply wp_bind. apply wp_unwinding.
  rewrite (bind_Ret _ _ _ _ _ (IsEmpty_owns _ _ _ Hown)).
  rewrite (bind_Ret _ _ _ _ _ (GetSize_owns _ _ _ Hown)). simpl.
  eapply wp_mono; [eapply (build_spec _ _ _ (rev values));
                     [exact Hr1|apply lookup_insert_eq|done]
                  |cbv beta|cbv beta].
  - intros ? s2 (new & Hnew & Hr2). simpl. split; [done|].
    exists new. rewrite rev_involutive in Hnew. split; [done|].
    by rewrite insert_insert_eq in Hr2.
  - intros s2 Hr2.
    eapply wp_mono; [eapply end_lifetime_spec; [exact Hr2|apply lookup_insert_eq]
                    |cbv beta|done].
    intros ? s3 [_ Hr3]. rewrite delete_insert_eq in Hr3. by rewrite delete_id in Hr3.
Qed.

Lemma copy_ctor_spec s m other cs :
  represents s m → m !! other = Some cs →
  wp (copy_ctor T_default operator_new other s)
     (λ this s', m !! this = None
                 ∧ ∃ new, new.*2 = cs.*2 ∧ represents s' (<[this := new]> m))
     (λ s', represents s' m).
Proof.
  intros Hr Hother. unfold copy_ctor. apply wp_bind.
  eapply wp_mono; [by eapply new_object_spec|cbv beta|done].
  intros this s1 (Hthis & _ & Hr1).
  pose proof (rep_owns _ _ Hr1 this [] (lookup_insert_eq _ _ _)) as Hown.
  assert (this ≠ other) as Hne by congruence.
  apply wp_bind. apply wp_unwinding.
  rewrite (bind_Ret _ _ _ _ _ (IsEmpty_owns _ _ _ Hown)).
  rewrite (bind_Ret _ _ _ _ _ (GetSize_owns _ _ _ Hown)). simpl.
  eapply wp_mono; [eapply (build_spec _ _ _ (rev cs.*2));
                     [exact Hr1|apply lookup_insert_eq|]
                  |cbv beta|cbv beta].
  - intros tmp s2 Htmp Hr2.
    assert (owns s2 other cs) as Hown2.
    { apply (rep_owns _ _ Hr2). rewrite !lookup_insert_ne; [done|done|].
      intros <-. rewrite lookup_insert_ne in Htmp by done. congruence. }
    change (bind (begin other) _ s2) with
      (bind (begin other) (λ first,
         bind loop_bound (λ fuel,
         bind (push_back_each fuel first end_ [])
              (λ tmp_v, bind (PushFront_each operator_new tmp (rev tmp_v))
                          (λ _, swap this tmp)))) s2).
    rewrite (bind_Ret _ _ _ _ _ (begin_owns _ _ _ Hown2)).
    pose proof (owns_length _ _ _ Hown2) as Hlen.
    destruct Hown2 as (o & Ho & Hc & _).
    assert (position other cs 1 = mkIter (next_node (head_ o))) as ->.
    { destruct cs as [|c cs']; simpl in *; [by rewrite Hc|].
      by destruct Hc as (-> & _). }
    unfold bind at 1, loop_bound at 1.
    rewrite (bind_Ret _ _ _ _ _
               (push_back_each_chain (S (size (heap s2))) s2 _ cs [] Hc
                  ltac:(lia))).
    done.
  - intros ? s2 (new & Hnew & Hr2). simpl. split; [done|].
    exists new. rewrite rev_involutive in Hnew. split; [done|].
    by rewrite insert_insert_eq in Hr2.
  - intros s2 Hr2.
    eapply wp_mono; [eapply end_lifetime_spec; [exact Hr2|apply lookup_insert_eq]
                    |cbv beta|done].
    intros ? s3 [_ Hr3]. rewrite delete_insert_eq in Hr3. by rewrite delete_id in Hr3.
Qed.

Lemma assign_spec s m this rhs ct cr :
  represents s m → m !! this = Some ct → m !! rhs = Some cr →
  wp (assign T_default operator_new this rhs s)
     (λ _ s', ∃ new, new.*2 = cr.*2 ∧ represents s' (<[this := new]> m))
     (λ s', represents s' m).
Proof.
  intros Hr Hthis Hrhs. unfold assign. case_bool_decide as Hne.
  - apply wp_with_local.
    eapply wp_mono; [by eapply copy_ctor_spec|cbv beta|done].
    intros cv s1 (Hcv & new & Hnew & Hr1).
    assert (this ≠ cv) as Hne' by congruence.
    eapply wp_mono; [eapply swap_spec; [exact Hr1| |apply lookup_insert_eq]
                    |cbv beta|done].
    { rewrite lookup_insert_ne by done. exact Hthis. }
    intros ? s2 [Hr2 _].
    eapply wp_mono; [eapply destructor_spec; [exact Hr2|]|cbv beta|done].
    { rewrite lookup_insert_ne by done. apply lookup_insert_eq. }
    intros ? s3 Hr3. exists new. split; [done|].
    rewrite insert_insert_eq, delete_insert_ne, delete_insert_eq in Hr3 by done.
    by rewrite delete_id in Hr3.
  - subst rhs. simpl. exists ct.
    rewrite Hthis in Hrhs. injection Hrhs as <-. split; [done|].
    by rewrite insert_id.
Qed.
End Writes.

(** ** Comparison operators *)

Section Compare.
Context {T : Type} `{EqDecision T}.
Variable T_eq : T → T → bool.
Variable T_lt : T → T → bool.
Implicit Types (s : state T) (m : gmap positive (list (positive * T))).
Implicit Types (cs : list (positive * T)) (l a : positive).

Lemma owns_begin s l cs :
  owns s l cs →
  ∃ p, begin l s = Ret (mkIter p) s ∧ is_chain (heap s) p cs.
Proof.
  intros (o & Ho & Hc & _). exists (next_node (head_ o)). split; [|done].
  unfold begin. by rewrite (bind_Ret _ _ _ _ _ (deref_sentinel _ _ _ Ho)).
Qed.

Lemma std_equal_chains fuel s p1 p2 cs1 cs2 :
  is_chain (heap s) p1 cs1 → is_chain (heap s) p2 cs2 →
  length cs1 = length cs2 → length cs1 < fuel →
  std_equal T_eq fuel (mkIter p1) end_ (mkIter p2) s
  = Ret (all_eqb T_eq cs1.*2 cs2.*2) s.
Proof.
  revert p1 p2 cs1 cs2.
  unfold is_chain.
  induction fuel as [|fuel IH]; intros p1 p2 cs1 cs2 H1 H2 Hlen Hfuel; [lia|].
  destruct cs1 as [|c1 cs1], cs2 as [|c2 cs2]; simpl in Hlen; try lia.
  - simpl in H1. subst p1. done.
  - destruct H1 as (-> & r1 & Hl1 & H1). destruct H2 as (-> & r2 & Hl2 & H2).
    simpl. unfold iter_deref, iter_incr, bind, ret, deref. red_state.
    repeat first [rewrite Hl1 | rewrite Hl2 | progress red_state].
    destruct (T_eq c1.2 c2.2); red_state; [|done].
    repeat first [rewrite Hl1 | rewrite Hl2 | progress red_state].
    apply IH; [done|done|lia|simpl in Hfuel; lia].
Qed.

Lemma lexicographical_compare_chains fuel s p1 p2 cs1 cs2 :
  is_chain (heap s) p1 cs1 → is_chain (heap s) p2 cs2 →
  length cs1 < fuel →
  std_lexicographical_compare T_lt fuel (mkIter p1) end_ (mkIter p2) end_ s
  = Ret (lex_ltb T_lt cs1.*2 cs2.*2) s.
Proof.
  revert p1 p2 cs1 cs2.
  unfold is_chain.
  induction fuel as [|fuel IH]; intros p1 p2 cs1 cs2 H1 H2 Hfuel; [lia|].
  destruct cs1 as [|c1 cs1], cs2 as [|c2 cs2].
  - simpl in H1, H2. subst. done.
  - simpl in H1. subst p1. destruct H2 as (-> & _). done.
  - simpl in H2. subst p2. destruct H1 as (-> & _). done.
  - destruct H1 as (-> & r1 & Hl1 & H1). destruct H2 as (-> & r2 & Hl2 & H2).
    simpl. unfold iter_deref, iter_incr, bind, ret, deref. red_state.
    repeat first [rewrite Hl1 | rewrite Hl2 | progress red_state].
    destruct (T_lt c1.2 c2.2); [done|]. destruct (T_lt c2.2 c1.2); [done|].
    repeat first [rewrite Hl1 | rewrite Hl2 | progress red_state].
    apply IH; [done|done|simpl in Hfuel; lia].
Qed.

Lemma operator_eq_owns s a b ca cb :
  owns s a ca → owns s b cb →
  operator_eq T_eq a b s
  = Ret (bool_decide (length ca = length cb) && all_eqb T_eq ca.*2 cb.*2) s.
Proof.
  intros Ha Hb. unfold operator_eq.
  rewrite (bind_Ret _ _ _ _ _ (GetSize_owns _ _ _ Ha)).
  rewrite (bind_Ret _ _ _ _ _ (GetSize_owns _ _ _ Hb)).
  pose proof (owns_length _ _ _ Ha) as Hlen.
  destruct (owns_begin _ _ _ Ha) as (p1 & Hb1 & H1).
  destruct (owns_begin _ _ _ Hb) as (p2 & Hb2 & H2).
  destruct (Z.eqb_spec (Z.of_nat (length ca)) (Z.of_nat (length cb))) as [Heq|Hne];
    simpl.
  - rewrite (bind_Ret _ _ _ _ _ Hb1), (bind_Ret _ _ _ _ _ Hb2).
    unfold bind at 1, loop_bound at 1.
    rewrite bool_decide_true by lia.
    apply std_equal_chains; [done|done|lia|lia].
  - unfold ret. by rewrite bool_decide_false by lia.
Qed.

(** [all_eqb] on sequences of the same length, index by index. *)
Lemma all_eqb_lookup (xs ys : list T) :
  length xs = length ys →
  all_eqb T_eq xs ys = true
  ↔ ∀ i x y, xs !! i = Some x → ys !! i = Some y → T_eq x y = true.
Proof.
  revert ys. induction xs as [|x xs IH]; intros [|y ys] Hlen; simpl in Hlen; try lia.
  - split; [|done]. intros _ i x y Hx. by rewrite lookup_nil in Hx.
  - simpl. rewrite andb_true_iff, IH by lia. split.
    + intros [Hxy Hrest] [|i] x' y'; simpl.
      * by intros [= <-] [= <-].
      * apply Hrest.
    + intros Hall. split; [by apply (Hall 0)|].
      intros i x' y'. apply (Hall (S i)).
Qed.

(** When [==] on the elements is the identity, so is [all_eqb] on
    sequences of the same length. *)
Lemma all_eqb_eq (xs ys : list T) :
  (∀ x y, T_eq x y = true ↔ x = y) →
  length xs = length ys → all_eqb T_eq xs ys = true ↔ xs = ys.
Proof.
  intros Heq. revert ys.
  induction xs as [|x xs IH]; intros [|y ys] Hlen; simpl in Hlen; try lia.
  - done.
  - simpl. rewrite andb_true_iff, IH, Heq by lia. split.
    + by intros [-> ->].
    + by intros [= -> ->].
Qed.

Lemma operator_lt_owns s a b ca cb :
  owns s a ca → owns s b cb →
  operator_lt T_lt a b s = Ret (lex_ltb T_lt ca.*2 cb.*2) s.
Proof.
  intros Ha Hb. unfold operator_lt.
  pose proof (owns_length _ _ _ Ha) as Hlen.
  destruct (owns_begin _ _ _ Ha) as (p1 & Hb1 & H1).
  destruct (owns_begin _ _ _ Hb) as (p2 & Hb2 & H2).
  rewrite (bind_Ret _ _ _ _ _ Hb1), (bind_Ret _ _ _ _ _ Hb2).
  unfold bind at 1, loop_bound at 1.
  apply lexicographical_compare_chains; [done|done|lia].
Qed.

(** The element-by-element comparison decides the lexicographical order
    when [<] on the elements is irreflexive and total. *)
Lemma lex_ltb_less xs ys :
  (∀ x, T_lt x x = false) →
  (∀ x y, T_lt x y = false → T_lt y x = false → x = y) →
  lex_ltb T_lt xs ys = true ↔ lex_less T_lt xs ys.
Proof.
  intros Hirr Htot. revert ys. induction xs as [|x xs IH]; intros [|y ys]; simpl.
  - split; [done|]. intros [(y & t & Heq)|(p & x & y & t1 & t2 & Heq & _)].
    + by destruct t.
    + by destruct p.
  - split; [|done]. intros _. left. by exists y, ys.
  - split; [done|]. intros [(y & t & Heq)|(p & x' & y & t1 & t2 & _ & Heq & _)].
    + done.
    + by destruct p.
  - destruct (T_lt x y) eqn:Hxy.
    { split; [|done]. intros _. right. by exists [], x, y, xs, ys. }
    destruct (T_lt y x) eqn:Hyx.
    { split; [done|].
      intros [(y' & t & Heq)|(p & x' & y' & t1 & t2 & Hx & Hy & Hlt)].
      - injection Heq as -> _. by rewrite Hirr in Hyx.
      - destruct p as [|z p]; simpl in *.
        + injection Hx as -> ->. injection Hy as -> ->. congruence.
        + injection Hx as -> ->. injection Hy as -> ->. by rewrite Hirr in Hyx. }
    rewrite IH. pose proof (Htot _ _ Hxy Hyx) as ->. split.
    + intros [(y' & t & ->)|(p & x' & y' & t1 & t2 & -> & -> & Hlt)].
      * left. by exists y', t.
      * right. by exists (y :: p), x', y', t1, t2.
    + intros [(y' & t & Heq)|(p & x' & y' & t1 & t2 & Hx & Hy & Hlt)].
      * injection Heq as ->. left. by exists y', t.
      * destruct p as [|z p]; simpl in *.
        { injection Hx as -> ->. injection Hy as -> ->. congruence. }
        injection Hx as -> ->. injection Hy as ->.
        right. by exists p, x', y', t1, t2.
Qed.
End Compare.

(** ** Reachable states satisfy the representation invariant *)

Section Reachable.
Context {T : Type} `{EqDecision T}.
Variable T_default : T.
Variable operator_new : gmap positive (Node T) → option positive.
(** The allocator hands out an address that is not in use, and the nodes
    that exist at any time fit into a 64-bit address space. *)
Hypothesis operator_new_spec : ∀ h a,
  operator_new h = Some a → h !! a = None ∧ (Z.of_nat (size h) + 1 < SIZE_MAX1)%Z.
Implicit Types (s : state T) (m : gmap positive (list (positive * T))).
Implicit Types (cs : list (positive * T)) (l : positive).

Lemma state_inv_init : state_inv (@mkState T ∅ ∅).
Proof.
  exists ∅. split; simpl.
  - by rewrite !dom_empty_L.
  - intros l cs. by rewrite lookup_empty.
  - intros l1 l2 c1 c2 _. by rewrite lookup_empty.
  - rewrite map_size_empty. done.
Qed.

Lemma final_wp {A} (o : outcome T A) (P : state T → Prop) s' :
  wp o (λ _ s, P s) P → final o = Some s' → P s'.
Proof. destruct o; simpl; [|intros ? [= <-]..|]; try done. by intros ? [= <-]. Qed.

Lemma live_represents s m l :
  represents s m → live s l → ∃ cs, m !! l = Some cs ∧ owns s l cs.
Proof. intros Hr [o Ho]. by eapply represents_lookup. Qed.

Lemma valid_position_represents s m this pos :
  represents s m → valid_position s this pos →
  ∃ cs i, m !! this = Some cs ∧ i ≤ length cs ∧ pos = position this cs i.
Proof.
  intros Hr (cs & i & Hown & Hi & ->).
  destruct (live_represents s m this Hr) as (cs' & Hm & Hown').
  { destruct Hown as (o & Ho & _). by exists o. }
  pose proof (owns_inj _ _ _ _ Hown Hown') as ->. by exists cs', i.
Qed.

(** [EraseAfter] at the last element of a non-empty list reads through
    a null pointer. *)
Lemma EraseAfter_last s l cs :
  owns s l cs → cs ≠ [] →
  EraseAfter l (position l cs (length cs)) s = Undefined.
Proof.
  intros Hown Hne. unfold EraseAfter.
  rewrite (bind_Ret _ _ _ _ _ (IsEmpty_owns _ _ _ Hown)).
  rewrite bool_decide_false by done.
  destruct Hown as (o & Ho & Hc & _).
  destruct (length cs) as [|k] eqn:Hlen; [by destruct cs|].
  destruct (lookup_lt_is_Some_2 cs k) as [c Hk]; [lia|].
  destruct (chain_split _ _ _ _ _ Hc Hk) as (r & _ & Hl & H2 & _).
  rewrite drop_ge in H2 by lia. unfold is_chain in H2. simpl in H2. subst r.
  simpl. rewrite Hk. unfold bind, ret, deref. red_state.
  repeat first [rewrite Hl | progress red_state]. done.
Qed.

Lemma call_preserves s c s' :
  state_inv s → precondition s c → exec T_default operator_new c s = Some s' →
  state_inv s'.
Proof.
  intros [m Hr] Hpre Hex. destruct c; cbn [exec precondition] in Hpre, Hex.
  - eapply (final_wp _ state_inv); [|exact Hex].
    eapply wp_mono; [by eapply new_object_spec|cbv beta|done].
    intros ? ? (_ & _ & ?). by eexists.
  - eapply (final_wp _ state_inv); [|exact Hex].
    eapply wp_mono; [by eapply init_list_ctor_spec|cbv beta|cbv beta].
    + intros ? ? (_ & ? & _ & ?). by eexists.
    + intros ? ?. by eexists.
  - destruct (live_represents _ _ _ Hr Hpre) as (cs & Hm & _).
    eapply (final_wp _ state_inv); [|exact Hex].
    eapply wp_mono; [by eapply copy_ctor_spec|cbv beta|cbv beta].
    + intros ? ? (_ & ? & _ & ?). by eexists.
    + intros ? ?. by eexists.
  - destruct Hpre as [H1 H2].
    destruct (live_represents _ _ _ Hr H1) as (c1 & Hm1 & _).
    destruct (live_represents _ _ _ Hr H2) as (c2 & Hm2 & _).
    eapply (final_wp _ state_inv); [|exact Hex].
    eapply wp_mono; [by eapply assign_spec|cbv beta|cbv beta].
    + intros ? ? (? & _ & ?). by eexists.
    + intros ? ?. by eexists.
  - destruct (live_represents _ _ _ Hr Hpre) as (cs & Hm & _).
    eapply (final_wp _ state_inv); [|exact Hex].
    eapply wp_mono; [by eapply PushFront_spec|cbv beta|cbv beta].
    + intros ? ? (? & _ & ?). by eexists.
    + intros ? ->. by eexists.
  - destruct (live_represents _ _ _ Hr Hpre) as (cs & Hm & Hown).
    destruct cs as [|c cs].
    + rewrite (PopFront_empty _ _ Hown) in Hex. injection Hex as <-. by eexists.
    + eapply (final_wp _ state_inv); [|exact Hex].
      eapply wp_mono; [by eapply PopFront_spec|cbv beta|done].
      intros ? ? ?. by eexists.
  - destruct (valid_position_represents _ _ _ _ Hr Hpre) as (cs & i & Hm & Hi & ->).
    eapply (final_wp _ state_inv); [|exact Hex].
    eapply wp_mono; [by eapply InsertAfter_spec|cbv beta|cbv beta].
    + intros ? ? (? & _ & _ & ?). by eexists.
    + intros ? ->. by eexists.
  - destruct (valid_position_represents _ _ _ _ Hr Hpre) as (cs & i & Hm & Hi & ->).
    pose proof (rep_owns _ _ Hr _ _ Hm) as Hown.
    destruct (decide (i < length cs)) as [Hlt|Hge].
    + eapply (final_wp _ state_inv); [|exact Hex].
      eapply wp_mono; [by eapply EraseAfter_spec|cbv beta|done].
      intros ? ? (_ & ?). by eexists.
    + assert (i = length cs) as -> by lia.
      destruct cs as [|c cs].
      * cbn [length position] in Hex. rewrite (EraseAfter_empty _ _ Hown) in Hex.
        injection Hex as <-. by eexists.
      * by rewrite (EraseAfter_last _ _ _ Hown) in Hex.
  - destruct (live_represents _ _ _ Hr Hpre) as (cs & Hm & _).
    eapply (final_wp _ state_inv); [|exact Hex].
    eapply wp_mono; [by eapply Clear_spec|cbv beta|done].
    intros ? ? ?. by eexists.
  - destruct Hpre as [H1 H2].
    destruct (live_represents _ _ _ Hr H1) as (c1 & Hm1 & _).
    destruct (live_represents _ _ _ Hr H2) as (c2 & Hm2 & _).
    eapply (final_wp _ state_inv); [|exact Hex].
    eapply wp_mono; [by eapply swap_spec|cbv beta|done].
    intros ? ? [? _]. by eexists.
  - destruct Hpre as [H1 H2].
    destruct (live_represents _ _ _ Hr H1) as (c1 & Hm1 & _).
    destruct (live_represents _ _ _ Hr H2) as (c2 & Hm2 & _).
    eapply (final_wp _ state_inv); [|exact Hex].
    unfold free_swap. eapply wp_mono; [by eapply swap_spec|cbv beta|done].
    intros ? ? [? _]. by eexists.
  - destruct (live_represents _ _ _ Hr Hpre) as (cs & Hm & _).
    eapply (final_wp _ state_inv); [|exact Hex].
    eapply wp_mono; [by eapply destructor_spec|cbv beta|done].
    intros ? ? ?. by eexists.
Qed.

Lemma reachable_state_inv s :
  reachable T_default operator_new s → state_inv s.
Proof.
  induction 1 as [|s c s' _ IH Hpre Hex]; [apply state_inv_init|].
  by eapply call_preserves.
Qed.

Lemma advance_chain s p cs k :
  is_chain (heap s) p cs → k ≤ length cs →
  advance k (mkIter p) s
  = Ret (match cs !! k with
         | Some c => mkIter (node_at c.1)
         | None => mkIter nullptr
         end) s.
Proof.
  revert p cs. induction k as [|k IH]; intros p cs Hc Hk.
  - simpl. unfold ret. f_equal. by eapply chain_start.
  - destruct cs as [|c cs]; [simpl in Hk; lia|].
    destruct Hc as (-> & r & Hl & Hc). simpl.
    unfold iter_incr, bind, ret, deref. red_state. rewrite Hl. red_state.
    apply IH; [done|simpl in Hk; lia].
Qed.
End Reachable.

(** ** The allocator of the examples *)

Lemma bump_new_spec {V} (h : gmap positive V) a :
  bump_new h = Some a → h !! a = None ∧ (Z.of_nat (size h) + 1 < SIZE_MAX1)%Z.
Proof.
  unfold bump_new. destruct (Z.ltb_spec (Z.of_nat (size h) + 1) SIZE_MAX1); [|done].
  intros [= <-]. split; [|done]. apply not_elem_of_dom, is_fresh.
Qed.

(** ** Properties of the list *)

Section Claims.
Context {T : Type} `{EqDecision T}.
Variable T_default : T.
Variable T_eq : T → T → bool.
Variable T_lt : T → T → bool.
Variable operator_new : gmap positive (Node T) → option positive.
(** The allocator hands out an address that is not in use, and the nodes
    that exist at any time fit into a 64-bit address space. *)
Hypothesis operator_new_spec : ∀ h a,
  operator_new h = Some a → h !! a = None ∧ (Z.of_nat (size h) + 1 < SIZE_MAX1)%Z.
Implicit Types (s : state T) (m : gmap positive (list (positive * T))).
Implicit Types (cs : list (positive * T)) (l : positive).

Lemma IsEmpty_live s l b s' : IsEmpty l s = Ret b s' → live s l.
Proof.
  unfold IsEmpty, bind, deref, live. by destruct (objs s !! l).
Qed.

Lemma iterate_live s l xs s' : iterate l s = Ret xs s' → live s l.
Proof.
  unfold iterate, begin, bind, deref, live. by destruct (objs s !! l).
Qed.

Lemma IsEmpty_true_represents s m l s' :
  represents s m → IsEmpty l s = Ret true s' → m !! l = Some [].
Proof.
  intros Hr He. destruct (live_represents _ _ _ Hr (IsEmpty_live _ _ _ _ He))
    as (cs & Hm & Hown).
  rewrite (IsEmpty_owns _ _ _ Hown) in He. injection He as He _.
  apply bool_decide_eq_true in He. by subst cs.
Qed.

Lemma iterate_represents s m l xs s' :
  represents s m → iterate l s = Ret xs s' →
  ∃ cs, m !! l = Some cs ∧ cs.*2 = xs.
Proof.
  intros Hr Hit. destruct (live_represents _ _ _ Hr (iterate_live _ _ _ _ Hit))
    as (cs & Hm & Hown).
  rewrite (iterate_owns _ _ _ Hown) in Hit. injection Hit as <- _. by exists cs.
Qed.

Lemma represents_iterate s m l cs :
  represents s m → m !! l = Some cs → iterate l s = Ret cs.*2 s.
Proof. intros Hr Hm. apply iterate_owns. by eapply rep_owns. Qed.

Lemma represents_GetSize s m l cs :
  represents s m → m !! l = Some cs → GetSize l s = Ret (Z.of_nat (length cs)) s.
Proof. intros Hr Hm. apply GetSize_owns. by eapply rep_owns. Qed.

(** C1.  In every state a program can reach through the public interface
    (constructors, assignment, PushFront, PopFront, InsertAfter,
    EraseAfter, Clear, both swaps, the destructor), every live list has a
    chain [cs] of nodes hanging off its sentinel such that: the counter
    [size_] is the number of nodes of the chain, no node occurs twice on
    it (no cycle), [count] increments starting from [begin()] arrive at
    [end()] and fewer do not, and, counted from the sentinel itself,
    [count + 1] links are followed. *)
Theorem reachable_count_matches_chain s l :
  reachable T_default operator_new s → live s l →
  ∃ cs, owns s l cs
        ∧ NoDup cs.*1
        ∧ GetSize l s = Ret (Z.of_nat (length cs)) s
        ∧ bind (begin l) (advance (length cs)) s = Ret end_ s
        ∧ (∀ k, k < length cs →
             ∃ a, bind (begin l) (advance k) s = Ret (mkIter (node_at a)) s)
        ∧ bind (before_begin l) (advance (S (length cs))) s = Ret end_ s.
Proof.
  intros Hreach Hlive.
  destruct (reachable_state_inv T_default operator_new operator_new_spec s Hreach)
    as [m Hr].
  destruct (live_represents _ _ _ Hr Hlive) as (cs & Hm & Hown).
  exists cs. split; [done|]. split; [by eapply owns_NoDup|].
  split; [by apply GetSize_owns|].
  destruct (owns_begin _ _ _ Hown) as (p & Hb & Hc).
  assert (∀ k, k ≤ length cs →
            bind (begin l) (advance k) s
            = Ret (match cs !! k with
                   | Some c => mkIter (node_at c.1)
                   | None => mkIter nullptr
                   end) s) as Hadv.
  { intros k Hk. rewrite (bind_Ret _ _ _ _ _ Hb). by apply advance_chain. }
  split; [|split].
  - rewrite Hadv by lia. by rewrite lookup_ge_None_2.
  - intros k Hk. rewrite Hadv by lia.
    destruct (lookup_lt_is_Some_2 cs k Hk) as [c ->]. by exists c.1.
  - unfold before_begin. rewrite (bind_Ret _ _ _ (mkIter (sentinel_of l)) s) by done.
    specialize (Hadv (length cs) (le_n _)). rewrite (bind_Ret _ _ _ _ _ Hb) in Hadv.
    rewrite lookup_ge_None_2 in Hadv by lia.
    destruct Hown as (o & Ho & Hc' & _).
    cbn [advance]. unfold iter_incr at 1. unfold bind at 1 2, deref, ret at 1.
    red_state. rewrite Ho. red_state.
    unfold begin, bind, deref, ret in Hb. rewrite Ho in Hb.
    injection Hb as <-. exact Hadv.
Qed.

(** C3.  On an empty list, [EraseAfter] called with a valid position of
    that list (which can only be [before_begin()]) changes nothing and
    returns the end iterator, which is the successor of that position;
    the list still has size 0 and no elements. *)
Theorem EraseAfter_empty_noop s this pos :
  state_inv s → IsEmpty this s = Ret true s → valid_position s this pos →
  pos = mkIter (sentinel_of this)
  ∧ EraseAfter this pos s = Ret end_ s
  ∧ iter_incr pos s = Ret end_ s
  ∧ GetSize this s = Ret 0%Z s
  ∧ iterate this s = Ret [] s.
Proof.
  intros [m Hr] He Hpos. pose proof (IsEmpty_true_represents _ _ _ _ Hr He) as Hm.
  destruct (valid_position_represents _ _ _ _ Hr Hpos) as (cs & i & Hm' & Hi & ->).
  rewrite Hm in Hm'. injection Hm' as <-. simpl in Hi.
  assert (i = 0) as -> by lia. simpl.
  pose proof (rep_owns _ _ Hr _ _ Hm) as Hown.
  split; [done|]. split; [by apply EraseAfter_empty|].
  split.
  - destruct Hown as (o & Ho & Hc & _). unfold is_chain in Hc. simpl in Hc.
    unfold iter_incr, bind, deref, ret, end_. simpl. by rewrite Ho, Hc.
  - split; [by apply (GetSize_owns _ _ _ Hown)|by apply (iterate_owns _ _ _ Hown)].
Qed.

Lemma iter_incr_position s l cs i :
  owns s l cs → i ≤ length cs →
  iter_incr (position l cs i) s = Ret (position l cs (S i)) s.
Proof.
  intros (o & Ho & Hc & _) Hi. destruct i as [|k]; simpl.
  - unfold iter_incr, bind, deref, ret. red_state. rewrite Ho. f_equal.
    by eapply chain_start.
  - destruct (lookup_lt_is_Some_2 cs k) as [c Hk]; [lia|]. rewrite Hk.
    destruct (chain_split _ _ _ _ _ Hc Hk) as (r & _ & Hl & H2 & _).
    unfold iter_incr, bind, deref, ret. red_state. rewrite Hl. red_state. f_equal.
    rewrite (chain_start _ _ _ H2), lookup_drop. by rewrite Nat.add_0_r.
Qed.

Lemma iter_deref_position s l cs k c :
  owns s l cs → cs !! k = Some c →
  iter_deref (position l cs (S k)) s = Ret c.2 s.
Proof.
  intros (o & Ho & Hc & _) Hk. simpl. rewrite Hk.
  destruct (chain_split _ _ _ _ _ Hc Hk) as (r & _ & Hl & _).
  unfold iter_deref, bind, deref, ret. red_state. by rewrite Hl.
Qed.

Lemma represents_frame_iterate s s' m m' l xs :
  represents s m → represents s' m' → m' !! l = m !! l →
  iterate l s = Ret xs s → iterate l s' = Ret xs s'.
Proof.
  intros Hr Hr' Hm Hit.
  destruct (iterate_represents _ _ _ _ _ Hr Hit) as (cs & Hcs & <-).
  apply (represents_iterate _ _ _ _ Hr'). by rewrite Hm.
Qed.

(** C4.  When [pos] is the position [i] of a list and has a successor
    (i counts from 0 for [before_begin()], and i < size), [EraseAfter]
    returns; afterwards the elements are the old ones without the one at
    index i, in the old order, the size is one less, the returned
    iterator is the new successor of [pos] (the old position i + 2), and
    the other lists iterate as before. *)
Theorem EraseAfter_removes_successor s this cs i :
  state_inv s → owns s this cs → i < length cs →
  ∃ s', EraseAfter this (position this cs i) s
        = Ret (position this cs (S (S i))) s'
        ∧ iterate this s = Ret cs.*2 s
        ∧ iterate this s' = Ret (delete i cs.*2) s'
        ∧ GetSize this s' = Ret (Z.of_nat (length cs) - 1)%Z s'
        ∧ iter_incr (position this cs i) s' = Ret (position this cs (S (S i))) s'
        ∧ (∀ l xs, l ≠ this → iterate l s = Ret xs s → iterate l s' = Ret xs s')
        ∧ state_inv s'.
Proof.
  intros [m Hr] Hown Hi.
  destruct (live_represents _ _ this Hr) as (cs' & Hm & Hown').
  { destruct Hown as (o & Ho & _). by exists o. }
  pose proof (owns_inj _ _ _ _ Hown' Hown) as ->.
  pose proof (EraseAfter_spec s m this cs i Hr Hm Hi) as Hwp.
  destruct (EraseAfter this (position this cs i) s) as [it s'| |]; [|done..].
  destruct Hwp as [-> Hr']. exists s'. split; [done|].
  pose proof (rep_owns _ _ Hr' _ _ (lookup_insert_eq _ _ _)) as Hown2.
  split; [by apply iterate_owns|].
  split; [|split; [|split; [|split]]].
  - rewrite (iterate_owns _ _ _ Hown2). by rewrite list_fmap_delete.
  - rewrite (GetSize_owns _ _ _ Hown2). f_equal. rewrite length_delete.
    + lia.
    + by apply lookup_lt_is_Some_2.
  - assert (position this cs i = position this (delete i cs) i) as ->.
    { destruct i as [|k]; [done|]. simpl. by rewrite list_lookup_delete_lt by lia. }
    assert (position this cs (S (S i)) = position this (delete i cs) (S i)) as ->.
    { simpl. by rewrite list_lookup_delete_ge by lia. }
    apply iter_incr_position; [done|]. rewrite length_delete.
    + lia.
    + by apply lookup_lt_is_Some_2.
  - intros l xs Hne. apply (represents_frame_iterate _ _ _ _ _ _ Hr Hr').
    by rewrite lookup_insert_ne.
  - by eexists.
Qed.

Lemma PushFront_live s l v x s' :
  PushFront operator_new l v s = Ret x s' → live s l.
Proof. unfold PushFront, bind, deref, live. by destruct (objs s !! l). Qed.


(** C7.  For two lists with element sequences [xs] and [ys]:
    [==] is true exactly when the sizes are equal and the elements at
    every index are equal by [==] of the element type (which, when that
    [==] is the identity, means that the elements agree at every index),
    [!=] is its negation, [<] compares element by element and, for an
    irreflexive and total element order, is true exactly when [xs] is
    lexicographically less than [ys] (a strict prefix, or smaller at the
    first difference); [>] is [<] with the operands exchanged, and [<=],
    [>=] are the negations of [>], [<]. *)
Theorem comparison_operators s A B xs ys :
  state_inv s → iterate A s = Ret xs s → iterate B s = Ret ys s →
  ∃ (eq lt gt : bool) (za zb : Z),
    GetSize A s = Ret za s ∧ GetSize B s = Ret zb s
    ∧ operator_eq T_eq A B s = Ret eq s
    ∧ (eq = true ↔ za = zb ∧ ∀ i x y, xs !! i = Some x → ys !! i = Some y →
                                       T_eq x y = true)
    ∧ ((∀ x y, T_eq x y = true ↔ x = y) →
       (eq = true ↔ za = zb ∧ ∀ i x y, xs !! i = Some x → ys !! i = Some y → x = y))
    ∧ operator_ne T_eq A B s = Ret (negb eq) s
    ∧ operator_lt T_lt A B s = Ret lt s
    ∧ operator_gt T_lt A B s = Ret gt s
    ∧ operator_le T_lt A B s = Ret (negb gt) s
    ∧ operator_ge T_lt A B s = Ret (negb lt) s
    ∧ lt = lex_ltb T_lt xs ys
    ∧ gt = lex_ltb T_lt ys xs
    ∧ ((∀ x, T_lt x x = false) →
       (∀ x y, T_lt x y = false → T_lt y x = false → x = y) →
       (lt = true ↔ lex_less T_lt xs ys) ∧ (gt = true ↔ lex_less T_lt ys xs)).
Proof.
  intros [m Hr] HA HB.
  destruct (iterate_represents _ _ _ _ _ Hr HA) as (ca & Ha & <-).
  destruct (iterate_represents _ _ _ _ _ Hr HB) as (cb & Hb & <-).
  pose proof (rep_owns _ _ Hr _ _ Ha) as Hoa.
  pose proof (rep_owns _ _ Hr _ _ Hb) as Hob.
  exists (bool_decide (length ca = length cb) && all_eqb T_eq ca.*2 cb.*2),
    (lex_ltb T_lt ca.*2 cb.*2), (lex_ltb T_lt cb.*2 ca.*2),
    (Z.of_nat (length ca)), (Z.of_nat (length cb)).
  pose proof (operator_eq_owns T_eq _ _ _ _ _ Hoa Hob) as Heq.
  pose proof (operator_lt_owns T_lt _ _ _ _ _ Hoa Hob) as Hlt.
  pose proof (operator_lt_owns T_lt _ _ _ _ _ Hob Hoa) as Hgt.
  assert (bool_decide (length ca = length cb) && all_eqb T_eq ca.*2 cb.*2 = true
          ↔ Z.of_nat (length ca) = Z.of_nat (length cb)
            ∧ ∀ i x y, ca.*2 !! i = Some x → cb.*2 !! i = Some y → T_eq x y = true)
    as Hiff.
  { rewrite andb_true_iff, bool_decide_eq_true. split.
    - intros [Hlen Hall]. split; [by rewrite Hlen|].
      apply all_eqb_lookup; [by rewrite !length_fmap|done].
    - intros [Hlen Hall]. apply Nat2Z.inj in Hlen. split; [done|].
      apply all_eqb_lookup; [by rewrite !length_fmap|done]. }
  split; [by apply GetSize_owns|]. split; [by apply GetSize_owns|].
  split; [done|]. split; [exact Hiff|]. split.
  { intros Hid. rewrite Hiff. split.
    - intros [Hlen Hall]. split; [done|]. intros i x y Hx Hy.
      by apply Hid, (Hall i).
    - intros [Hlen Hall]. split; [done|]. intros i x y Hx Hy.
      by apply Hid, (Hall i). }
  split; [unfold operator_ne; by rewrite (bind_Ret _ _ _ _ _ Heq)|].
  split; [done|]. split; [done|].
  split; [unfold operator_le; by rewrite (bind_Ret _ _ _ _ _ Hgt)|].
  split; [unfold operator_ge; by rewrite (bind_Ret _ _ _ _ _ Hlt)|].
  split; [done|]. split; [done|].
  intros Hirr Htot. split; by apply lex_ltb_less.
Qed.

Lemma bind_Ret_inv {A B} (f : M T A) (k : A → M T B) s b s' :
  bind f k s = Ret b s' → ∃ a s1, f s = Ret a s1 ∧ k a s1 = Ret b s'.
Proof. unfold bind. destruct (f s) as [a s1| |]; [|done..]. by exists a, s1. Qed.

Lemma IsEmpty_Ret_inv s l b s' :
  IsEmpty l s = Ret b s' →
  s' = s ∧ ∃ o, objs s !! l = Some o ∧ b = bool_decide (next_node (head_ o) = nullptr).
Proof.
  unfold IsEmpty, bind, deref, ret. destruct (objs s !! l) as [o|]; [|done].
  intros [= <- <-]. split; [done|]. by exists o.
Qed.

(** Whenever the loop of [Clear] ends, the list is empty. *)
Lemma Clear_loop_empties fuel l current s s' :
  Clear_loop fuel l current s = Ret tt s' → IsEmpty l s' = Ret true s'.
Proof.
  revert current s. induction fuel as [|fuel IH]; intros current s; [done|].
  cbn [Clear_loop]. intros (e & s1 & He & Hk)%bind_Ret_inv.
  pose proof He as He'. apply IsEmpty_Ret_inv in He' as [-> _].
  destruct e; cbn [negb] in Hk.
  - injection Hk as <-. exact He.
  - apply bind_Ret_inv in Hk as (? & ? & _ & Hk).
    apply bind_Ret_inv in Hk as (? & ? & _ & Hk).
    apply bind_Ret_inv in Hk as (? & ? & _ & Hk).
    apply bind_Ret_inv in Hk as (? & ? & _ & Hk).
    apply bind_Ret_inv in Hk as (? & ? & _ & Hk).
    by eapply IH.
Qed.

Lemma Clear_empties s l s' :
  Clear l s = Ret tt s' → IsEmpty l s' = Ret true s'.
Proof.
  unfold Clear. intros (h & s1 & _ & Hk)%bind_Ret_inv.
  apply bind_Ret_inv in Hk as (fuel & s2 & _ & Hk).
  apply bind_Ret_inv in Hk as ([] & s3 & Hloop & Hk).
  apply Clear_loop_empties in Hloop.
  apply IsEmpty_Ret_inv in Hloop as (_ & o & Ho & Hb).
  symmetry in Hb. apply bool_decide_eq_true in Hb.
  unfold set_size in Hk. rewrite Ho in Hk. injection Hk as <-.
  unfold IsEmpty, bind, deref, ret. red_state. rewrite lookup_insert_eq.
  red_state. by rewrite Hb.
Qed.

(** C8.  In a state that satisfies the invariant, for every live list
    [IsEmpty] is true exactly when [GetSize] is 0 and exactly when the
    head link is null, and [Clear] returns and leaves the list empty with
    size 0.  Moreover, whenever [Clear] returns, whatever the state it
    was called in, [IsEmpty] is true afterwards. *)
Theorem IsEmpty_iff_size_zero s l :
  state_inv s → live s l →
  (∃ (b : bool) (z : Z) (o : SingleLinkedList T),
     objs s !! l = Some o
     ∧ IsEmpty l s = Ret b s
     ∧ GetSize l s = Ret z s
     ∧ (b = true ↔ z = 0%Z)
     ∧ (b = true ↔ next_node (head_ o) = nullptr)
     ∧ ∃ s', Clear l s = Ret tt s'
             ∧ IsEmpty l s' = Ret true s'
             ∧ GetSize l s' = Ret 0%Z s')
  ∧ (∀ s0 s', Clear l s0 = Ret tt s' → IsEmpty l s' = Ret true s').
Proof.
  intros [m Hr] Hlive. split; [|intros s0 s'; apply Clear_empties].
  destruct (live_represents _ _ _ Hr Hlive) as (cs & Hm & Hown).
  pose proof Hown as (o & Ho & Hc & Hsz).
  exists (bool_decide (cs = [])), (Z.of_nat (length cs)), o.
  split; [done|]. split; [by apply IsEmpty_owns|]. split; [by apply GetSize_owns|].
  split; [|split].
  - rewrite bool_decide_eq_true. split; [by intros ->|].
    intros Hz. destruct cs; [done|]. simpl in Hz. lia.
  - rewrite bool_decide_eq_true. split.
    + intros ->. exact Hc.
    + intros Hn. destruct cs as [|c cs]; [done|].
      destruct Hc as (Hc & _). congruence.
  - pose proof (Clear_spec s m l cs Hr Hm) as Hwp.
    destruct (Clear l s) as [[] s'| |] eqn:Hrun; [|done..].
    exists s'. split; [done|]. split; [by apply (Clear_empties s)|].
    apply (represents_GetSize _ _ _ [] Hwp). apply lookup_insert_eq.
Qed.

(** C9.  For two live lists [A] and [B] (possibly the same one) with
    element sequences [xs] and [ys], the member [swap] and the free
    [swap] return the same state, in which [A] iterates over [ys] and has
    their number as size, [B] iterates over [xs] and has their number as
    size; the heap of nodes is untouched, [A] now starts at the node [B]
    started at and conversely, and every other list iterates as
    before. *)
Theorem swap_exchanges_contents s A B xs ys :
  state_inv s → iterate A s = Ret xs s → iterate B s = Ret ys s →
  ∃ s', swap A B s = Ret tt s'
        ∧ free_swap A B s = Ret tt s'
        ∧ GetSize A s = Ret (Z.of_nat (length xs)) s
        ∧ GetSize B s = Ret (Z.of_nat (length ys)) s
        ∧ iterate A s' = Ret ys s'
        ∧ iterate B s' = Ret xs s'
        ∧ GetSize A s' = Ret (Z.of_nat (length ys)) s'
        ∧ GetSize B s' = Ret (Z.of_nat (length xs)) s'
        ∧ heap s' = heap s
        ∧ (∀ it, begin B s = Ret it s → begin A s' = Ret it s')
        ∧ (∀ it, begin A s = Ret it s → begin B s' = Ret it s')
        ∧ (∀ l zs, l ≠ A → l ≠ B → iterate l s = Ret zs s → iterate l s' = Ret zs s')
        ∧ state_inv s'.
Proof.
  intros [m Hr] HA HB.
  destruct (iterate_represents _ _ _ _ _ Hr HA) as (ca & Ha & <-).
  destruct (iterate_represents _ _ _ _ _ Hr HB) as (cb & Hb & <-).
  pose proof (swap_spec s m A B ca cb Hr Ha Hb) as Hwp.
  unfold free_swap.
  destruct (swap A B s) as [[] s'| |] eqn:Hrun; [|done..].
  destruct Hwp as [Hr' Hheap]. exists s'.
  assert (<[A:=cb]> (<[B:=ca]> m) !! A = Some cb) as Ha' by apply lookup_insert_eq.
  assert (<[A:=cb]> (<[B:=ca]> m) !! B = Some ca) as Hb'.
  { rewrite lookup_insert. case_decide as Heq; [|apply lookup_insert_eq].
    subst B. congruence. }
  rewrite !length_fmap.
  split; [done|]. split; [done|].
  split; [by eapply represents_GetSize|]. split; [by eapply represents_GetSize|].
  split; [by eapply represents_iterate|]. split; [by eapply represents_iterate|].
  split; [by eapply represents_GetSize|]. split; [by eapply represents_GetSize|].
  split; [done|].
  split; [|split; [|split]].
  - intros it. rewrite (begin_owns _ _ _ (rep_owns _ _ Hr _ _ Hb)).
    intros [= <-]. by rewrite (begin_owns _ _ _ (rep_owns _ _ Hr' _ _ Ha')).
  - intros it. rewrite (begin_owns _ _ _ (rep_owns _ _ Hr _ _ Ha)).
    intros [= <-]. by rewrite (begin_owns _ _ _ (rep_owns _ _ Hr' _ _ Hb')).
  - intros l zs HlA HlB. apply (represents_frame_iterate _ _ _ _ _ _ Hr Hr').
    by rewrite !lookup_insert_ne.
  - by eexists.
Qed.

(** C10.  Swapping a live list with itself, by the member or by the free
    function, returns and leaves the whole state, hence the size and the
    elements of the list, exactly as it was. *)
Theorem swap_self_unchanged s l xs n :
  iterate l s = Ret xs s → GetSize l s = Ret n s →
  ∃ s', swap l l s = Ret tt s'
        ∧ free_swap l l s = Ret tt s'
        ∧ s' = s
        ∧ iterate l s' = Ret xs s'
        ∧ GetSize l s' = Ret n s'.
Proof.
  intros Hit Hsz. destruct (iterate_live _ _ _ _ Hit) as [o Ho].
  exists s. unfold free_swap. rewrite (swap_self _ _ _ Ho). done.
Qed.
End Claims.

(** ** The properties on the concrete instance *)

Lemma state_1_reachable : reachable 0%Z new_Z state_1.
Proof.
  apply (reachable_call 0%Z new_Z empty_state (CallInitListCtor [1; 2; 3]%Z));
    [apply reachable_init|exact I|vm_compute; reflexivity].
Qed.

Lemma state_2_reachable : reachable 0%Z new_Z state_2.
Proof.
  apply (reachable_call 0%Z new_Z state_1 (CallInitListCtor [1; 2; 4]%Z));
    [apply state_1_reachable|exact I|vm_compute; reflexivity].
Qed.

Lemma state_3_reachable : reachable 0%Z new_Z state_3.
Proof.
  apply (reachable_call 0%Z new_Z state_2 CallDefaultCtor);
    [apply state_2_reachable|exact I|vm_compute; reflexivity].
Qed.

Lemma state_1_inv : state_inv state_1.
Proof. exact (reachable_state_inv 0%Z new_Z (@bump_new_spec _) _ state_1_reachable). Qed.

Lemma state_2_inv : state_inv state_2.
Proof. exact (reachable_state_inv 0%Z new_Z (@bump_new_spec _) _ state_2_reachable). Qed.

Lemma state_3_inv : state_inv state_3.
Proof. exact (reachable_state_inv 0%Z new_Z (@bump_new_spec _) _ state_3_reachable). Qed.

Lemma state_1_owns : owns state_1 1 chain_1.
Proof.
  exists (mkList (mkNode 0%Z (node_at 3)) 3).
  split; [vm_compute; reflexivity|]. split; [|reflexivity].
  split; [reflexivity|]. exists (node_at 2). split; [vm_compute; reflexivity|].
  split; [reflexivity|]. exists (node_at 1). split; [vm_compute; reflexivity|].
  split; [reflexivity|]. exists nullptr. split; [vm_compute; reflexivity|].
  reflexivity.
Qed.

Lemma state_3_owns : owns state_3 3 [].
Proof.
  exists (mkList (mkNode 0%Z nullptr) 0).
  split; [vm_compute; reflexivity|]. split; reflexivity.
Qed.

Example literal_order : iterate 1 state_1 = Ret [1; 2; 3]%Z state_1.
Proof. vm_compute. reflexivity. Qed.

Lemma reachable_count_matches_chain_witness :
  reachable 0%Z new_Z state_3 ∧ live state_3 1
  ∧ ∃ cs, owns state_3 1 cs
        ∧ NoDup cs.*1
        ∧ GetSize 1 state_3 = Ret (Z.of_nat (length cs)) state_3
        ∧ bind (begin 1) (advance (length cs)) state_3 = Ret end_ state_3
        ∧ (∀ k, k < length cs →
             ∃ a, bind (begin 1) (advance k) state_3
                  = Ret (mkIter (node_at a)) state_3)
        ∧ bind (before_begin 1) (advance (S (length cs))) state_3
          = Ret end_ state_3.
Proof.
  assert (live state_3 1) as Hlive by (vm_compute; eexists; reflexivity).
  split; [exact state_3_reachable|]. split; [exact Hlive|].
  exact (reachable_count_matches_chain 0%Z new_Z (@bump_new_spec _) state_3 1
           state_3_reachable Hlive).
Defined.

Lemma EraseAfter_empty_noop_witness :
  mkIter (sentinel_of 3) = mkIter (sentinel_of 3)
  ∧ EraseAfter 3 (mkIter (sentinel_of 3)) state_3 = Ret end_ state_3
  ∧ iter_incr (mkIter (sentinel_of 3)) state_3 = Ret end_ state_3
  ∧ GetSize 3 state_3 = Ret 0%Z state_3
  ∧ iterate 3 state_3 = Ret [] state_3.
Proof.
  apply (EraseAfter_empty_noop state_3 3 (mkIter (sentinel_of 3)) state_3_inv).
  - vm_compute. reflexivity.
  - exists [], 0. split; [exact state_3_owns|]. split; [simpl; lia|reflexivity].
Defined.

Lemma EraseAfter_removes_successor_witness :
  ∃ s', EraseAfter 1 (position 1 chain_1 1) state_1
        = Ret (position 1 chain_1 3) s'
        ∧ iterate 1 state_1 = Ret chain_1.*2 state_1
        ∧ iterate 1 s' = Ret (delete 1 chain_1.*2) s'
        ∧ GetSize 1 s' = Ret (Z.of_nat (length chain_1) - 1)%Z s'
        ∧ iter_incr (position 1 chain_1 1) s' = Ret (position 1 chain_1 3) s'
        ∧ (∀ l xs, l ≠ 1%positive → iterate l state_1 = Ret xs state_1 →
                   iterate l s' = Ret xs s')
        ∧ state_inv s'.
Proof.
  apply (EraseAfter_removes_successor state_1 1 chain_1 1 state_1_inv state_1_owns).
  simpl. lia.
Defined.

Lemma comparison_operators_witness :
  ∃ (eq lt gt : bool) (za zb : Z),
    GetSize 1 state_2 = Ret za state_2 ∧ GetSize 2 state_2 = Ret zb state_2
    ∧ operator_eq Z.eqb 1 2 state_2 = Ret eq state_2
    ∧ (eq = true ↔ za = zb ∧ ∀ i x y, [1; 2; 3]%Z !! i = Some x →
                                       [1; 2; 4]%Z !! i = Some y →
                                       Z.eqb x y = true)
    ∧ ((∀ x y, Z.eqb x y = true ↔ x = y) →
       (eq = true ↔ za = zb ∧ ∀ i x y, [1; 2; 3]%Z !! i = Some x →
                                        [1; 2; 4]%Z !! i = Some y → x = y))
    ∧ operator_ne Z.eqb 1 2 state_2 = Ret (negb eq) state_2
    ∧ operator_lt Z.ltb 1 2 state_2 = Ret lt state_2
    ∧ operator_gt Z.ltb 1 2 state_2 = Ret gt state_2
    ∧ operator_le Z.ltb 1 2 state_2 = Ret (negb gt) state_2
    ∧ operator_ge Z.ltb 1 2 state_2 = Ret (negb lt) state_2
    ∧ lt = lex_ltb Z.ltb [1; 2; 3]%Z [1; 2; 4]%Z
    ∧ gt = lex_ltb Z.ltb [1; 2; 4]%Z [1; 2; 3]%Z
    ∧ ((∀ x, Z.ltb x x = false) →
       (∀ x y, Z.ltb x y = false → Z.ltb y x = false → x = y) →
       (lt = true ↔ lex_less Z.ltb [1; 2; 3]%Z [1; 2; 4]%Z)
       ∧ (gt = true ↔ lex_less Z.ltb [1; 2; 4]%Z [1; 2; 3]%Z)).
Proof.
  apply (comparison_operators Z.eqb Z.ltb state_2 1 2 [1; 2; 3]%Z [1; 2; 4]%Z
           state_2_inv).
  - vm_compute. reflexivity.
  - vm_compute. reflexivity.
Defined.

Lemma IsEmpty_iff_size_zero_witness :
  (∃ (b : bool) (z : Z) (o : SingleLinkedList Z),
     objs state_1 !! 1%positive = Some o
     ∧ IsEmpty 1 state_1 = Ret b state_1
     ∧ GetSize 1 state_1 = Ret z state_1
     ∧ (b = true ↔ z = 0%Z)
     ∧ (b = true ↔ next_node (head_ o) = nullptr)
     ∧ ∃ s', Clear 1 state_1 = Ret tt s'
             ∧ IsEmpty 1 s' = Ret true s'
             ∧ GetSize 1 s' = Ret 0%Z s')
  ∧ (∀ s0 s' : state Z, Clear 1 s0 = Ret tt s' → IsEmpty 1 s' = Ret true s').
Proof.
  apply (IsEmpty_iff_size_zero state_1 1 state_1_inv).
  vm_compute. eexists. reflexivity.
Defined.

Lemma swap_exchanges_contents_witness :
  ∃ s', swap 1 2 state_2 = Ret tt s'
        ∧ free_swap 1 2 state_2 = Ret tt s'
        ∧ GetSize 1 state_2 = Ret (Z.of_nat (length [1; 2; 3]%Z)) state_2
        ∧ GetSize 2 state_2 = Ret (Z.of_nat (length [1; 2; 4]%Z)) state_2
        ∧ iterate 1 s' = Ret [1; 2; 4]%Z s'
        ∧ iterate 2 s' = Ret [1; 2; 3]%Z s'
        ∧ GetSize 1 s' = Ret (Z.of_nat (length [1; 2; 4]%Z)) s'
        ∧ GetSize 2 s' = Ret (Z.of_nat (length [1; 2; 3]%Z)) s'
        ∧ heap s' = heap state_2
        ∧ (∀ it, begin 2 state_2 = Ret it state_2 → begin 1 s' = Ret it s')
        ∧ (∀ it, begin 1 state_2 = Ret it state_2 → begin 2 s' = Ret it s')
        ∧ (∀ l zs, l ≠ 1%positive → l ≠ 2%positive →
                   iterate l state_2 = Ret zs state_2 → iterate l s' = Ret zs s')
        ∧ state_inv s'.
Proof.
  apply (swap_exchanges_contents state_2 1 2 [1; 2; 3]%Z [1; 2; 4]%Z state_2_inv).
  - vm_compute. reflexivity.
  - vm_compute. reflexivity.
Defined.

Lemma swap_self_unchanged_witness :
  ∃ s', swap 1 1 state_1 = Ret tt s'
        ∧ free_swap 1 1 state_1 = Ret tt s'
        ∧ s' = state_1
        ∧ iterate 1 s' = Ret [1; 2; 3]%Z s'
        ∧ GetSize 1 s' = Ret 3%Z s'.
Proof.
  apply (swap_self_unchanged state_1 1 [1; 2; 3]%Z 3%Z).
  - vm_compute. reflexivity.
  - vm_compute. reflexivity.
Defined.

(** ** The examples of the specification, run on the model *)

(** The end iterator references no node: it is not a position of the
    list, and [EraseAfter] reads through it. *)
Example EraseAfter_end_undefined : EraseAfter 3 end_ state_3 = Undefined.
Proof. vm_compute. reflexivity. Qed.

(** After [PushFront(v)] on an empty list, [PopFront] restores the empty
    list. *)
Example PushFront_PopFront_round_trip :
  fst <$> run (PushFront new_Z 3 7%Z ;;
               xs <- iterate 3 ;;
               PopFront 3 ;;
               ys <- iterate 3 ;;
               e <- IsEmpty 3 ;;
               n <- GetSize 3 ;;
               ret (xs, ys, e, n)) state_3
  = Some ([7%Z], [], true, 0%Z).
Proof. vm_compute. reflexivity. Qed.

(** Self-assignment leaves the list as it is. *)
Example self_assignment : assign 0%Z new_Z 1 1 state_1 = Ret tt state_1.
Proof. vm_compute. reflexivity. Qed.

Example equal_lists :
  compare_lists [1; 2; 3]%Z [1; 2; 3]%Z = Some (true, false, false, true, false, true).
Proof. vm_compute. reflexivity. Qed.

Example shorter_list_differs :
  compare_lists [1; 2; 3]%Z [1; 2]%Z = Some (false, true, false, false, true, true).
Proof. vm_compute. reflexivity. Qed.

Example last_element_decides :
  compare_lists [1; 2; 3]%Z [1; 2; 4]%Z = Some (false, true, true, true, false, false).
Proof. vm_compute. reflexivity. Qed.

Example prefix_is_less :
  compare_lists [1; 2]%Z [1; 2; 3]%Z = Some (false, true, true, true, false, false).
Proof. vm_compute. reflexivity. Qed.

(** ** Which nodes a call allocates and frees *)

Section Footprints.
Context {T : Type} `{EqDecision T}.
Variable operator_new : gmap positive (Node T) → option positive.
Hypothesis operator_new_spec : ∀ h a,
  operator_new h = Some a → h !! a = None ∧ (Z.of_nat (size h) + 1 < SIZE_MAX1)%Z.
Implicit Types (s : state T) (m : gmap positive (list (positive * T))).
Implicit Types (cs : list (positive * T)) (l : positive).

Lemma PushFront_as_InsertAfter s l v :
  PushFront operator_new l v s
  = bind (InsertAfter operator_new l (mkIter (sentinel_of l)) v) (λ _, ret tt) s.
Proof.
  unfold PushFront, InsertAfter, incr_size, bind, ret, deref, new_Node,
    set_next_node, get_size, set_size. red_state.
  destruct (objs s !! l) as [o|] eqn:Ho; [|done].
  destruct (operator_new (heap s)) as [a|]; [|done].
  repeat first [rewrite Ho | rewrite lookup_insert_eq | progress red_state].
  done.
Qed.

Lemma PopFront_as_EraseAfter s l :
  PopFront l s = bind (EraseAfter l (mkIter (sentinel_of l))) (λ _, ret tt) s.
Proof.
  unfold PopFront, EraseAfter, IsEmpty, decr_size, bind, ret, deref,
    set_next_node, delete_Node, get_size, set_size. red_state.
  destruct (objs s !! l) as [o|] eqn:Ho; [|done]. red_state.
  destruct (next_node (head_ o)) as [|l'|a] eqn:Hn; simpl.
  - repeat first [rewrite Ho | rewrite Hn | progress red_state]. done.
  - repeat first [rewrite Ho | rewrite Hn | progress red_state].
    destruct (objs s !! l') as [o'|] eqn:Ho'; [|done].
    repeat first [rewrite Ho | rewrite Hn | rewrite lookup_insert_eq
                 | progress red_state].
    done.
  - repeat first [rewrite Ho | rewrite Hn | progress red_state].
    destruct (heap s !! a) as [n|] eqn:Ha; [|done].
    repeat first [rewrite Ho | rewrite Hn | rewrite Ha | rewrite lookup_insert_eq
                 | progress red_state].
    done.
Qed.

(** [InsertAfter] allocates one node and frees none. *)
Lemma InsertAfter_footprint s l cs i v it s' :
  owns s l cs → i ≤ length cs →
  InsertAfter operator_new l (position l cs i) v s = Ret it s' →
  ∃ a, it = mkIter (node_at a) ∧ heap s !! a = None
       ∧ ∀ a', is_Some (heap s' !! a') ↔ a' = a ∨ is_Some (heap s !! a').
Proof.
  intros (o & Ho & Hc & Hsz) Hi. destruct i as [|k]; cbn [position].
  - unfold InsertAfter, incr_size, bind, ret, deref, new_Node, set_next_node,
      get_size, set_size. red_state. rewrite Ho.
    destruct (operator_new (heap s)) as [a|] eqn:Hnew; [|done].
    destruct (operator_new_spec _ _ Hnew) as [Hfresh _].
    repeat first [rewrite Ho | rewrite lookup_insert_eq | progress red_state].
    intros [= <- <-]. exists a. split; [done|]. split; [done|]. simpl.
    intros a'. rewrite lookup_insert_is_Some. destruct (decide (a = a')); intuition congruence.
  - destruct (lookup_lt_is_Some_2 cs k) as [c Hk]; [lia|]. rewrite Hk.
    destruct (chain_split _ _ _ _ _ Hc Hk) as (r & _ & Hl & _).
    unfold InsertAfter, incr_size, bind, ret, deref, new_Node, set_next_node,
      get_size, set_size. red_state. rewrite Hl.
    destruct (operator_new (heap s)) as [a|] eqn:Hnew; [|done].
    destruct (operator_new_spec _ _ Hnew) as [Hfresh _].
    assert (a ≠ c.1) as Hac by congruence.
    repeat first [rewrite Ho | rewrite Hl | rewrite lookup_insert_eq
                 | rewrite lookup_insert_ne by done | progress red_state].
    intros [= <- <-]. exists a. split; [done|]. split; [done|]. simpl.
    intros a'. rewrite !lookup_insert_is_Some.
    assert (is_Some (heap s !! c.1)) as Hc1 by (by eexists).
    destruct (decide (a = a')), (decide (c.1 = a')); subst; intuition congruence.
Qed.

(** [EraseAfter] frees the successor of its position and nothing else. *)
Lemma EraseAfter_footprint s l cs i d it s' :
  owns s l cs → cs !! i = Some d →
  EraseAfter l (position l cs i) s = Ret it s' →
  ∀ a', is_Some (heap s' !! a') ↔ a' ≠ d.1 ∧ is_Some (heap s !! a').
Proof.
  intros Hown Hd. unfold EraseAfter.
  rewrite (bind_Ret _ _ _ _ _ (IsEmpty_owns _ _ _ Hown)).
  rewrite bool_decide_false by (by intros ->).
  destruct Hown as (o & Ho & Hc & Hsz).
  destruct (chain_split _ _ _ _ _ Hc Hd) as (r & H1 & Hl & H2 & Hn1 & _).
  destruct i as [|k]; cbn [position].
  - rewrite take_0 in *. simpl in H1.
    unfold decr_size, bind, ret, deref, set_next_node, delete_Node, get_size,
      set_size.
    repeat first [rewrite Ho | rewrite H1 | rewrite Hl | rewrite lookup_insert_eq
                 | progress red_state].
    intros [= _ <-]. simpl. intros a'. rewrite lookup_delete_is_Some.
    intuition congruence.
  - destruct (lookup_lt_is_Some_2 cs k) as [c Hk].
    { apply lookup_lt_Some in Hd. lia. }
    rewrite Hk. rewrite (take_S_r _ _ _ Hk) in H1, Hn1.
    apply is_seg_app in H1 as (r1 & _ & (-> & r' & Hlc & Heq)).
    simpl in Heq. subst r'.
    assert (c.1 ≠ d.1) as Hcd.
    { intros Heq. apply Hn1. rewrite fmap_app, elem_of_app. right.
      rewrite <- Heq. simpl. left. }
    unfold decr_size, bind, ret, deref, set_next_node, delete_Node, get_size,
      set_size.
    repeat first [rewrite Ho | rewrite Hlc | rewrite Hl | rewrite lookup_insert_eq
                 | rewrite lookup_insert_ne by done
                 | rewrite lookup_delete_ne by done
                 | progress red_state].
    intros [= _ <-]. simpl. intros a'.
    rewrite lookup_delete_is_Some, lookup_insert_is_Some.
    assert (is_Some (heap s !! c.1)) as Hc1 by (by eexists).
    destruct (decide (c.1 = a')); subst; intuition congruence.
Qed.
End Footprints.

(** ** The invariant without leaked nodes *)

Section Tight.
Context {T : Type} `{EqDecision T}.
Variable T_default : T.
Variable operator_new : gmap positive (Node T) → option positive.
Hypothesis operator_new_spec : ∀ h a,
  operator_new h = Some a → h !! a = None ∧ (Z.of_nat (size h) + 1 < SIZE_MAX1)%Z.
Implicit Types (s : state T) (m : gmap positive (list (positive * T))).
Implicit Types (cs : list (positive * T)) (l : positive).

(** The loop of [Clear] frees every node of the chain. *)
Lemma Clear_loop_frees fuel s l o cs s' :
  objs s !! l = Some o →
  is_chain (heap s) (next_node (head_ o)) cs →
  length cs < fuel →
  Clear_loop fuel l (next_node (head_ o)) s = Ret tt s' →
  ∀ a, a ∈ cs.*1 → heap s' !! a = None.
Proof.
  revert s o cs. induction fuel as [|fuel IH]; intros s o cs Ho Hc Hlen; [lia|].
  destruct cs as [|c cs]; [by intros _ a ?%elem_of_nil|].
  pose proof (is_chain_NoDup _ _ _ Hc) as Hnd.
  rewrite fmap_cons in Hnd. apply NoDup_cons in Hnd as [Hnin _].
  destruct Hc as (H1 & r & Hl & H2). simpl in Hlen.
  set (o1 := mkList (mkNode (value (head_ o)) r) (size_ o)).
  set (s1 := mkState (delete c.1 (heap s)) (<[l := o1]> (objs s))).
  assert (objs s1 !! l = Some o1) as Ho1 by apply lookup_insert_eq.
  assert (is_chain (heap s1) (next_node (head_ o1)) cs) as Hc1.
  { simpl. by apply is_seg_delete_ne. }
  cbn [Clear_loop]. unfold IsEmpty, bind, ret, deref, set_next_node, delete_Node.
  repeat first [rewrite Ho | rewrite H1 | rewrite Hl | rewrite lookup_insert_eq
               | rewrite bool_decide_false by done
               | progress red_state].
  fold o1. fold s1. change r with (next_node (head_ o1)).
  intros Hrun a [->|Ha]%elem_of_cons.
  - assert (length cs < fuel) as Hlt by lia.
    destruct (Clear_loop_spec fuel s1 l o1 cs Ho1 Hc1 Hlt) as (h' & Hrun' & Hag & _).
    rewrite Hrun' in Hrun. injection Hrun as <-. simpl.
    rewrite (Hag _ Hnin). simpl. apply lookup_delete_eq.
  - assert (length cs < fuel) as Hlt by lia.
    by apply (IH s1 o1 cs Ho1 Hc1 Hlt Hrun).
Qed.

(** [Clear] frees exactly the nodes of the list. *)
Lemma Clear_footprint s l cs s' :
  owns s l cs → Clear l s = Ret tt s' →
  ∀ a, is_Some (heap s' !! a) ↔ (a ∉ cs.*1) ∧ is_Some (heap s !! a).
Proof.
  intros (o & Ho & Hc & Hsz).
  pose proof (is_chain_length _ _ _ Hc) as Hlen.
  assert (length cs < S (size (heap s))) as Hlt by lia.
  destruct (Clear_loop_spec (S (size (heap s))) s l o cs Ho Hc Hlt)
    as (h' & Hrun & Hag & _).
  pose proof (Clear_loop_frees _ _ _ _ _ _ Ho Hc Hlt Hrun) as Hfree.
  unfold Clear, bind, deref, loop_bound, set_size. rewrite Ho, Hrun.
  red_state. rewrite lookup_insert_eq. red_state.
  intros [= <-]. simpl in *. intros a.
  destruct (decide (a ∈ cs.*1)) as [Hin|Hnin].
  - rewrite (Hfree _ Hin). split; [by intros [? ?]|tauto].
  - rewrite (Hag _ Hnin). tauto.
Qed.

Lemma no_garbage_update s s' m l cs cs' :
  no_garbage s m → m !! l = Some cs →
  (∀ a, is_Some (heap s' !! a) →
        a ∈ cs'.*1 ∨ (is_Some (heap s !! a) ∧ (a ∈ cs.*1 → a ∈ cs'.*1))) →
  no_garbage s' (<[l := cs']> m).
Proof.
  intros Hg Hm Hfp a Ha. destruct (Hfp a Ha) as [Hin|[Hold Hkeep]].
  - exists l, cs'. by rewrite lookup_insert_eq.
  - destruct (Hg a Hold) as (l0 & c0 & Hl0 & Hin).
    destruct (decide (l0 = l)) as [->|Hne].
    + rewrite Hm in Hl0. injection Hl0 as <-.
      exists l, cs'. rewrite lookup_insert_eq. auto.
    + exists l0, c0. by rewrite lookup_insert_ne.
Qed.

Lemma InsertAfter_tight s m l cs i v :
  tight s m → m !! l = Some cs → i ≤ length cs →
  wp (InsertAfter operator_new l (position l cs i) v s)
     (λ it s', ∃ a, heap s !! a = None ∧ it = mkIter (node_at a)
                    ∧ tight s' (<[l := take i cs ++ (a, v) :: drop i cs]> m))
     (λ s', s' = s).
Proof.
  intros [Hr Hg] Hm Hi.
  pose proof (InsertAfter_spec operator_new operator_new_spec s m l cs i v Hr Hm Hi)
    as Hwp.
  destruct (InsertAfter operator_new l (position l cs i) v s) as [it s'|s'|] eqn:Hrun;
    [|done..].
  destruct Hwp as (a & Hfresh & -> & Hr').
  destruct (InsertAfter_footprint operator_new operator_new_spec _ _ _ _ _ _ _
              (rep_owns _ _ Hr _ _ Hm) Hi Hrun) as (a1 & [= <-] & _ & Hfp).
  exists a. split; [done|]. split; [done|]. split; [done|].
  eapply no_garbage_update; [done|done|].
  intros a' [->|Hold]%Hfp.
  - left. rewrite fmap_app, fmap_cons, elem_of_app, elem_of_cons. auto.
  - right. split; [done|]. rewrite <- (take_drop i cs) at 1.
    rewrite !fmap_app, fmap_cons, !elem_of_app, elem_of_cons. tauto.
Qed.

Lemma PushFront_tight s m l cs v :
  tight s m → m !! l = Some cs →
  wp (PushFront operator_new l v s)
     (λ _ s', ∃ a, heap s !! a = None ∧ tight s' (<[l := (a, v) :: cs]> m))
     (λ s', s' = s).
Proof.
  intros Ht Hm. rewrite PushFront_as_InsertAfter. apply wp_bind.
  eapply wp_mono; [apply (InsertAfter_tight s m l cs 0 v Ht Hm); lia|cbv beta|done].
  intros it s' (a & Hfresh & _ & Ht'). simpl. exists a. split; [done|].
  by rewrite drop_0 in Ht'.
Qed.

Lemma EraseAfter_tight s m l cs i :
  tight s m → m !! l = Some cs → i < length cs →
  wp (EraseAfter l (position l cs i) s)
     (λ it s', it = position l cs (S (S i)) ∧ tight s' (<[l := delete i cs]> m))
     (λ _, False).
Proof.
  intros [Hr Hg] Hm Hi. pose proof (EraseAfter_spec s m l cs i Hr Hm Hi) as Hwp.
  destruct (EraseAfter l (position l cs i) s) as [it s'|s'|] eqn:Hrun; [|done..].
  destruct Hwp as (-> & Hr'). split; [done|]. split; [done|].
  destruct (lookup_lt_is_Some_2 cs i Hi) as [d Hd].
  pose proof (EraseAfter_footprint _ _ _ _ _ _ _ (rep_owns _ _ Hr _ _ Hm) Hd Hrun)
    as Hfp.
  eapply no_garbage_update; [done|done|].
  intros a' [Hne Hold]%Hfp. right. split; [done|].
  rewrite delete_take_drop. rewrite <- (take_drop_middle _ _ _ Hd) at 1.
  rewrite !fmap_app, fmap_cons, !elem_of_app, elem_of_cons. tauto.
Qed.

Lemma PopFront_tight s m l cs :
  tight s m → m !! l = Some cs →
  wp (PopFront l s) (λ _ s', tight s' (<[l := tail cs]> m)) (λ _, False).
Proof.
  intros Ht Hm. destruct cs as [|c cs].
  - rewrite (PopFront_empty _ _ (rep_owns _ _ (proj1 Ht) _ _ Hm)). simpl.
    by rewrite insert_id.
  - rewrite PopFront_as_EraseAfter. apply wp_bind.
    eapply wp_mono; [apply (EraseAfter_tight s m l (c :: cs) 0 Ht Hm); simpl; lia
                    |cbv beta|done].
    intros it s' [_ Ht']. exact Ht'.
Qed.

Lemma Clear_tight s m l cs :
  tight s m → m !! l = Some cs →
  wp (Clear l s) (λ _ s', tight s' (<[l := []]> m)) (λ _, False).
Proof.
  intros [Hr Hg] Hm. pose proof (Clear_spec s m l cs Hr Hm) as Hwp.
  destruct (Clear l s) as [[] s'|s'|] eqn:Hrun; [|done..].
  split; [done|].
  pose proof (Clear_footprint _ _ _ _ (rep_owns _ _ Hr _ _ Hm) Hrun) as Hfp.
  eapply no_garbage_update; [done|done|].
  intros a' [Hnin Hold]%Hfp. right. split; [done|]. done.
Qed.

Lemma swap_tight s m a b ca cb :
  tight s m → m !! a = Some ca → m !! b = Some cb →
  wp (swap a b s)
     (λ _ s', tight s' (<[a := cb]> (<[b := ca]> m)) ∧ heap s' = heap s)
     (λ _, False).
Proof.
  intros [Hr Hg] Ha Hb.
  eapply wp_mono; [by eapply swap_spec|cbv beta|done].
  intros ? s' [Hr' Hheap]. split; [|done]. split; [done|].
  intros x Hx. rewrite Hheap in Hx. destruct (Hg x Hx) as (l0 & c0 & Hl0 & Hin).
  destruct (decide (l0 = a)) as [->|Hna].
  - exists b, c0. rewrite Ha in Hl0. injection Hl0 as <-. split; [|done].
    rewrite lookup_insert. case_decide as Hab; [|apply lookup_insert_eq].
    subst b. congruence.
  - destruct (decide (l0 = b)) as [->|Hnb].
    + exists a, c0. rewrite Hb in Hl0. injection Hl0 as <-.
      split; [apply lookup_insert_eq|done].
    + exists l0, c0. by rewrite !lookup_insert_ne.
Qed.

Lemma new_object_tight s m :
  tight s m →
  wp (new_object T_default s)
     (λ l s', m !! l = None ∧ heap s' = heap s ∧ tight s' (<[l := []]> m))
     (λ _, False).
Proof.
  intros [Hr Hg].
  eapply wp_mono; [by eapply new_object_spec|cbv beta|done].
  intros l s' (Hl & Hheap & Hr'). split; [done|]. split; [done|]. split; [done|].
  intros x Hx. rewrite Hheap in Hx. destruct (Hg x Hx) as (l0 & c0 & Hl0 & Hin).
  exists l0, c0. split; [|done]. rewrite lookup_insert_ne; [done|]. congruence.
Qed.

Lemma end_lifetime_tight s m l :
  tight s m → m !! l = Some [] →
  wp (end_lifetime l s)
     (λ _ s', heap s' = heap s ∧ tight s' (delete l m))
     (λ _, False).
Proof.
  intros [Hr Hg] Hm.
  eapply wp_mono; [by eapply end_lifetime_spec|cbv beta|done].
  intros ? s' (Hheap & Hr'). split; [done|]. split; [done|].
  intros x Hx. rewrite Hheap in Hx. destruct (Hg x Hx) as (l0 & c0 & Hl0 & Hin).
  exists l0, c0. split; [|done]. rewrite lookup_delete_ne; [done|].
  intros <-. rewrite Hm in Hl0. injection Hl0 as <-. by apply elem_of_nil in Hin.
Qed.
End Tight.

Section TightComposite.
Context {T : Type} `{EqDecision T}.
Variable T_default : T.
Variable operator_new : gmap positive (Node T) → option positive.
Hypothesis operator_new_spec : ∀ h a,
  operator_new h = Some a → h !! a = None ∧ (Z.of_nat (size h) + 1 < SIZE_MAX1)%Z.
Implicit Types (s : state T) (m : gmap positive (list (positive * T))).
Implicit Types (cs : list (positive * T)) (l : positive).

Lemma destructor_tight s m l cs :
  tight s m → m !! l = Some cs →
  wp (destructor l s) (λ _ s', tight s' (delete l m)) (λ _, False).
Proof.
  intros Hr Hm. unfold destructor. apply wp_bind.
  eapply wp_mono; [by eapply Clear_tight|cbv beta|done].
  intros ? s1 Hr1.
  eapply wp_mono; [eapply end_lifetime_tight; [exact Hr1|apply lookup_insert_eq]
                  |cbv beta|done].
  intros ? s2 [_ Hr2]. by rewrite delete_insert_eq in Hr2.
Qed.

Lemma PushFront_each_tight s m l cs vs :
  tight s m → m !! l = Some cs →
  wp (PushFront_each operator_new l vs s)
     (λ _ s', ∃ new, new.*2 = rev vs ∧ tight s' (<[l := new ++ cs]> m))
     (λ s', ∃ new, tight s' (<[l := new ++ cs]> m)).
Proof.
  revert s m cs. induction vs as [|v vs IH]; intros s m cs Hr Hm; simpl.
  - exists []. split; [done|]. simpl. by rewrite insert_id.
  - apply wp_bind. eapply wp_mono; [by eapply PushFront_tight|cbv beta|cbv beta].
    + intros ? s1 (a & Hf & Hr1).
      eapply wp_mono; [eapply IH; [exact Hr1|apply lookup_insert_eq]
                      |cbv beta|cbv beta].
      * intros ? s2 (new & Hnew & Hr2). exists (new ++ [(a, v)]).
        rewrite insert_insert_eq in Hr2. rewrite <- app_assoc. split; [|done].
        by rewrite fmap_app, Hnew.
      * intros s2 (new & Hr2). exists (new ++ [(a, v)]).
        rewrite insert_insert_eq in Hr2. by rewrite <- app_assoc.
    + intros s1 ->. exists []. simpl. by rewrite insert_id.
Qed.

Lemma fill_and_swap_tight s m this tmp ws :
  tight s m → m !! this = Some [] → m !! tmp = Some [] →
  wp (bind (PushFront_each operator_new tmp ws) (λ _, swap this tmp) s)
     (λ _ s', ∃ new, new.*2 = rev ws
                     ∧ tight s' (<[this := new]> (<[tmp := []]> m)))
     (λ s', ∃ new, tight s' (<[tmp := new]> m)).
Proof.
  intros Hr Hthis Htmp. apply wp_bind.
  eapply wp_mono; [by eapply PushFront_each_tight|cbv beta|cbv beta].
  - intros ? s1 (new & Hnew & Hr1). rewrite app_nil_r in Hr1.
    destruct (decide (this = tmp)) as [->|Hne].
    + eapply wp_mono; [eapply swap_tight; [exact Hr1|apply lookup_insert_eq..]
                      |cbv beta|done].
      intros ? s2 [Hr2 _]. exists new. split; [done|].
      rewrite !insert_insert_eq in Hr2. by rewrite !insert_insert_eq.
    + eapply wp_mono; [eapply swap_tight; [exact Hr1| |apply lookup_insert_eq]
                      |cbv beta|done].
      { rewrite lookup_insert_ne by done. exact Hthis. }
      intros ? s2 [Hr2 _]. exists new. split; [done|].
      by rewrite insert_insert_eq in Hr2.
  - intros s1 (new & Hr1). exists new. by rewrite app_nil_r in Hr1.
Qed.

Lemma build_tight s m this ws (body : positive → M T unit) :
  tight s m → m !! this = Some [] →
  (∀ tmp s1, m !! tmp = None → tight s1 (<[tmp := []]> m) →
     body tmp s1
     = bind (PushFront_each operator_new tmp ws) (λ _, swap this tmp) s1) →
  wp (with_local (default_ctor T_default) body s)
     (λ _ s', ∃ new, new.*2 = rev ws ∧ tight s' (<[this := new]> m))
     (λ s', tight s' m).
Proof.
  intros Hr Hthis Hbody. apply wp_with_local. unfold default_ctor.
  eapply wp_mono; [by eapply new_object_tight|cbv beta|done].
  intros tmp s1 (Htmp & _ & Hr1).
  assert (this ≠ tmp) as Hne by congruence.
  rewrite (Hbody tmp s1 Htmp Hr1).
  eapply wp_mono; [eapply fill_and_swap_tight; [exact Hr1| |apply lookup_insert_eq]
                  |cbv beta|cbv beta].
  { by rewrite lookup_insert_ne. }
  - intros ? s2 (new & Hnew & Hr2).
    eapply wp_mono; [eapply destructor_tight; [exact Hr2|]|cbv beta|done].
    { rewrite lookup_insert_ne by done. apply lookup_insert_eq. }
    intros ? s3 Hr3. exists new. split; [done|].
    replace (<[this := new]> m)
      with (delete tmp (<[this:=new]> (<[tmp:=[]]> (<[tmp:=[]]> m)))); [done|].
    rewrite insert_insert_eq, delete_insert_ne, delete_insert_eq by done.
    by rewrite delete_id.
  - intros s2 (new & Hr2).
    eapply wp_mono; [eapply destructor_tight; [exact Hr2|apply lookup_insert_eq]
                    |cbv beta|done].
    intros ? s3 Hr3. rewrite insert_insert_eq, delete_insert_eq in Hr3.
    by rewrite delete_id in Hr3.
Qed.

Lemma init_list_ctor_tight s m values :
  tight s m →
  wp (init_list_ctor T_default operator_new values s)
     (λ this s', m !! this = None
                 ∧ ∃ new, new.*2 = values ∧ tight s' (<[this := new]> m))
     (λ s', tight s' m).
Proof.
  intros Hr. unfold init_list_ctor. apply wp_bind.
  eapply wp_mono; [by eapply new_object_tight|cbv beta|done].
  intros this s1 (Hthis & _ & Hr1).
  pose proof (rep_owns _ _ (proj1 Hr1) this [] (lookup_insert_eq _ _ _)) as Hown.
  apply wp_bind. apply wp_unwinding.
  rewrite (bind_Ret _ _ _ _ _ (IsEmpty_owns _ _ _ Hown)).
  rewrite (bind_Ret _ _ _ _ _ (GetSize_owns _ _ _ Hown)). simpl.
  eapply wp_mono; [eapply (build_tight _ _ _ (rev values));
                     [exact Hr1|apply lookup_insert_eq|done]
                  |cbv beta|cbv beta].
  - intros ? s2 (new & Hnew & Hr2). simpl. split; [done|].
    exists new. rewrite rev_involutive in Hnew. split; [done|].
    by rewrite insert_insert_eq in Hr2.
  - intros s2 Hr2.
    eapply wp_mono; [eapply end_lifetime_tight; [exact Hr2|apply lookup_insert_eq]
                    |cbv beta|done].
    intros ? s3 [_ Hr3]. rewrite delete_insert_eq in Hr3. by rewrite delete_id in Hr3.
Qed.

Lemma copy_ctor_tight s m other cs :
  tight s m → m !! other = Some cs →
  wp (copy_ctor T_default operator_new other s)
     (λ this s', m !! this = None
                 ∧ ∃ new, new.*2 = cs.*2 ∧ tight s' (<[this := new]> m))
     (λ s', tight s' m).
Proof.
  intros Hr Hother. unfold copy_ctor. apply wp_bind.
  eapply wp_mono; [by eapply new_object_tight|cbv beta|done].
  intros this s1 (Hthis & _ & Hr1).
  pose proof (rep_owns _ _ (proj1 Hr1) this [] (lookup_insert_eq _ _ _)) as Hown.
  assert (this ≠ other) as Hne by congruence.
  apply wp_bind. apply wp_unwinding.
  rewrite (bind_Ret _ _ _ _ _ (IsEmpty_owns _ _ _ Hown)).
  rewrite (bind_Ret _ _ _ _ _ (GetSize_owns _ _ _ Hown)). simpl.
  eapply wp_mono; [eapply (build_tight _ _ _ (rev cs.*2));
                     [exact Hr1|apply lookup_insert_eq|]
                  |cbv beta|cbv beta].
  - intros tmp s2 Htmp Hr2.
    assert (owns s2 other cs) as Hown2.
    { apply (rep_owns _ _ (proj1 Hr2)). rewrite !lookup_insert_ne; [done|done|].
      intros <-. rewrite lookup_insert_ne in Htmp by done. congruence. }
    change (bind (begin other) _ s2) with
      (bind (begin other) (λ first,
         bind loop_bound (λ fuel,
         bind (push_back_each fuel first end_ [])
              (λ tmp_v, bind (PushFront_each operator_new tmp (rev tmp_v))
                          (λ _, swap this tmp)))) s2).
    rewrite (bind_Ret _ _ _ _ _ (begin_owns _ _ _ Hown2)).
    pose proof (owns_length _ _ _ Hown2) as Hlen.
    destruct Hown2 as (o & Ho & Hc & _).
    assert (position other cs 1 = mkIter (next_node (head_ o))) as ->.
    { destruct cs as [|c cs']; simpl in *; [by rewrite Hc|].
      by destruct Hc as (-> & _). }
    unfold bind at 1, loop_bound at 1.
    rewrite (bind_Ret _ _ _ _ _
               (push_back_each_chain (S (size (heap s2))) s2 _ cs [] Hc
                  ltac:(lia))).
    done.
  - intros ? s2 (new & Hnew & Hr2). simpl. split; [done|].
    exists new. rewrite rev_involutive in Hnew. split; [done|].
    by rewrite insert_insert_eq in Hr2.
  - intros s2 Hr2.
    eapply wp_mono; [eapply end_lifetime_tight; [exact Hr2|apply lookup_insert_eq]
                    |cbv beta|done].
    intros ? s3 [_ Hr3]. rewrite delete_insert_eq in Hr3. by rewrite delete_id in Hr3.
Qed.

Lemma assign_tight s m this rhs ct cr :
  tight s m → m !! this = Some ct → m !! rhs = Some cr →
  wp (assign T_default operator_new this rhs s)
     (λ _ s', ∃ new, new.*2 = cr.*2 ∧ tight s' (<[this := new]> m))
     (λ s', tight s' m).
Proof.
  intros Hr Hthis Hrhs. unfold assign. case_bool_decide as Hne.
  - apply wp_with_local.
    eapply wp_mono; [by eapply copy_ctor_tight|cbv beta|done].
    intros cv s1 (Hcv & new & Hnew & Hr1).
    assert (this ≠ cv) as Hne' by congruence.
    eapply wp_mono; [eapply swap_tight; [exact Hr1| |apply lookup_insert_eq]
                    |cbv beta|done].
    { rewrite lookup_insert_ne by done. exact Hthis. }
    intros ? s2 [Hr2 _].
    eapply wp_mono; [eapply destructor_tight; [exact Hr2|]|cbv beta|done].
    { rewrite lookup_insert_ne by done. apply lookup_insert_eq. }
    intros ? s3 Hr3. exists new. split; [done|].
    rewrite insert_insert_eq, delete_insert_ne, delete_insert_eq in Hr3 by done.
    by rewrite delete_id in Hr3.
  - subst rhs. simpl. exists ct.
    rewrite Hthis in Hrhs. injection Hrhs as <-. split; [done|].
    by rewrite insert_id.
Qed.

Lemma call_preserves_tight s c s' :
  state_tight s → precondition s c → exec T_default operator_new c s = Some s' →
  state_tight s'.
Proof.
  intros [m Hr] Hpre Hex. destruct c; cbn [exec precondition] in Hpre, Hex.
  - eapply (final_wp _ state_tight); [|exact Hex].
    eapply wp_mono; [by eapply new_object_tight|cbv beta|done].
    intros ? ? (_ & _ & ?). by eexists.
  - eapply (final_wp _ state_tight); [|exact Hex].
    eapply wp_mono; [by eapply init_list_ctor_tight|cbv beta|cbv beta].
    + intros ? ? (_ & ? & _ & ?). by eexists.
    + intros ? ?. by eexists.
  - destruct (live_represents _ _ _ (proj1 Hr) Hpre) as (cs & Hm & _).
    eapply (final_wp _ state_tight); [|exact Hex].
    eapply wp_mono; [by eapply copy_ctor_tight|cbv beta|cbv beta].
    + intros ? ? (_ & ? & _ & ?). by eexists.
    + intros ? ?. by eexists.
  - destruct Hpre as [H1 H2].
    destruct (live_represents _ _ _ (proj1 Hr) H1) as (c1 & Hm1 & _).
    destruct (live_represents _ _ _ (proj1 Hr) H2) as (c2 & Hm2 & _).
    eapply (final_wp _ state_tight); [|exact Hex].
    eapply wp_mono; [by eapply assign_tight|cbv beta|cbv beta].
    + intros ? ? (? & _ & ?). by eexists.
    + intros ? ?. by eexists.
  - destruct (live_represents _ _ _ (proj1 Hr) Hpre) as (cs & Hm & _).
    eapply (final_wp _ state_tight); [|exact Hex].
    eapply wp_mono; [by eapply PushFront_tight|cbv beta|cbv beta].
    + intros ? ? (? & _ & ?). by eexists.
    + intros ? ->. by eexists.
  - destruct (live_represents _ _ _ (proj1 Hr) Hpre) as (cs & Hm & Hown).
    eapply (final_wp _ state_tight); [|exact Hex].
    eapply wp_mono; [by eapply PopFront_tight|cbv beta|done].
    intros ? ? ?. by eexists.
  - destruct (valid_position_represents _ _ _ _ (proj1 Hr) Hpre) as (cs & i & Hm & Hi & ->).
    eapply (final_wp _ state_tight); [|exact Hex].
    eapply wp_mono; [by eapply InsertAfter_tight|cbv beta|cbv beta].
    + intros ? ? (? & _ & _ & ?). by eexists.
    + intros ? ->. by eexists.
  - destruct (valid_position_represents _ _ _ _ (proj1 Hr) Hpre) as (cs & i & Hm & Hi & ->).
    pose proof (rep_owns _ _ (proj1 Hr) _ _ Hm) as Hown.
    destruct (decide (i < length cs)) as [Hlt|Hge].
    + eapply (final_wp _ state_tight); [|exact Hex].
      eapply wp_mono; [by eapply EraseAfter_tight|cbv beta|done].
      intros ? ? (_ & ?). by eexists.
    + assert (i = length cs) as -> by lia.
      destruct cs as [|c cs].
      * cbn [length position] in Hex. rewrite (EraseAfter_empty _ _ Hown) in Hex.
        injection Hex as <-. by eexists.
      * by rewrite (EraseAfter_last _ _ _ Hown) in Hex.
  - destruct (live_represents _ _ _ (proj1 Hr) Hpre) as (cs & Hm & _).
    eapply (final_wp _ state_tight); [|exact Hex].
    eapply wp_mono; [by eapply Clear_tight|cbv beta|done].
    intros ? ? ?. by eexists.
  - destruct Hpre as [H1 H2].
    destruct (live_represents _ _ _ (proj1 Hr) H1) as (c1 & Hm1 & _).
    destruct (live_represents _ _ _ (proj1 Hr) H2) as (c2 & Hm2 & _).
    eapply (final_wp _ state_tight); [|exact Hex].
    eapply wp_mono; [by eapply swap_tight|cbv beta|done].
    intros ? ? [? _]. by eexists.
  - destruct Hpre as [H1 H2].
    destruct (live_represents _ _ _ (proj1 Hr) H1) as (c1 & Hm1 & _).
    destruct (live_represents _ _ _ (proj1 Hr) H2) as (c2 & Hm2 & _).
    eapply (final_wp _ state_tight); [|exact Hex].
    unfold free_swap. eapply wp_mono; [by eapply swap_tight|cbv beta|done].
    intros ? ? [? _]. by eexists.
  - destruct (live_represents _ _ _ (proj1 Hr) Hpre) as (cs & Hm & _).
    eapply (final_wp _ state_tight); [|exact Hex].
    eapply wp_mono; [by eapply destructor_tight|cbv beta|done].
    intros ? ? ?. by eexists.
Qed.

Lemma reachable_tight s :
  reachable T_default operator_new s → state_tight s.
Proof.
  induction 1 as [|s c s' _ IH Hpre Hex]; [|by eapply call_preserves_tight].
  destruct (state_inv_init (T:=T)) as [m Hr]. exists m. split; [done|].
  intros a [n Hn]. simpl in Hn. by rewrite lookup_empty in Hn.
Qed.

End TightComposite.

(** ** Operations at the front, and round trips *)

Section FrontOperations.
Context {T : Type} `{EqDecision T}.
Variable T_default : T.
Variable operator_new : gmap positive (Node T) → option positive.
Hypothesis operator_new_spec : ∀ h a,
  operator_new h = Some a → h !! a = None ∧ (Z.of_nat (size h) + 1 < SIZE_MAX1)%Z.
Implicit Types (s : state T) (m : gmap positive (list (positive * T))).
Implicit Types (cs : list (positive * T)) (l : positive).

(** X1.  In a state that satisfies the invariant, [PopFront] on a list
    that iterates over [xs] returns and leaves it iterating over the tail
    of [xs], with the length of the tail as size.  On an empty list it
    changes nothing at all.  Every other list iterates as before and the
    invariant holds afterwards. *)
Theorem PopFront_removes_first s l xs :
  state_inv s → iterate l s = Ret xs s →
  ∃ s', PopFront l s = Ret tt s'
        ∧ iterate l s' = Ret (tail xs) s'
        ∧ GetSize l s' = Ret (Z.of_nat (length (tail xs))) s'
        ∧ (xs = [] → s' = s)
        ∧ (∀ l' ys, l' ≠ l → iterate l' s = Ret ys s → iterate l' s' = Ret ys s')
        ∧ state_inv s'.
Proof.
  intros [m Hr] Hit.
  destruct (iterate_represents _ _ _ _ _ Hr Hit) as (cs & Hm & <-).
  pose proof (rep_owns _ _ Hr _ _ Hm) as Hown.
  destruct cs as [|c cs].
  - exists s. rewrite (PopFront_empty _ _ Hown). simpl.
    split; [done|]. split; [by apply (iterate_owns _ _ _ Hown)|].
    split; [by apply (GetSize_owns _ _ _ Hown)|].
    split; [done|]. split; [done|by exists m].
  - pose proof (PopFront_spec s m l c cs Hr Hm) as Hwp.
    destruct (PopFront l s) as [[] s'| |]; [|done..]. simpl in Hwp.
    exists s'. split; [done|].
    rewrite (represents_iterate _ _ _ _ Hwp (lookup_insert_eq _ _ _)).
    rewrite (represents_GetSize _ _ _ _ Hwp (lookup_insert_eq _ _ _)).
    simpl. rewrite length_fmap.
    split; [done|]. split; [done|]. split; [done|]. split; [|by eexists].
    intros l' ys Hne. apply (represents_frame_iterate _ _ _ _ _ _ Hr Hwp).
    by rewrite lookup_insert_ne.
Qed.

(** X2.  [PushFront] does what [InsertAfter] does at the before-begin
    position, and [PopFront] what [EraseAfter] does there, the returned
    iterator apart: in every state the two calls have the same outcome. *)
Theorem front_operations_through_sentinel s l v :
  PushFront operator_new l v s
  = bind (InsertAfter operator_new l (mkIter (sentinel_of l)) v) (λ _, ret tt) s
  ∧ PopFront l s = bind (EraseAfter l (mkIter (sentinel_of l))) (λ _, ret tt) s.
Proof. split; [apply PushFront_as_InsertAfter|apply PopFront_as_EraseAfter]. Qed.

(** X3.  [PushFront] followed by [PopFront] on the same list gives back
    exactly the state before the two calls: the node that was allocated
    is freed again, and the head link and the counter are what they
    were. *)
Theorem PushFront_PopFront_restores s l v s1 :
  state_inv s → PushFront operator_new l v s = Ret tt s1 →
  PopFront l s1 = Ret tt s.
Proof.
  intros [m Hr] Hpush.
  destruct (live_represents _ _ _ Hr (PushFront_live _ _ _ _ _ _ Hpush))
    as (cs & Hm & (o & Ho & Hc & Hsz)).
  pose proof (is_chain_length _ _ _ Hc) as Hlen.
  revert Hpush.
  unfold PushFront, incr_size, bind, ret, deref, new_Node, set_next_node,
    get_size, set_size. red_state. rewrite Ho.
  destruct (operator_new (heap s)) as [a|] eqn:Hnew; [|done].
  destruct (operator_new_spec _ _ Hnew) as [Hfresh Hbound].
  repeat first [rewrite Ho | rewrite lookup_insert_eq | progress red_state].
  intros [= <-].
  unfold PopFront, IsEmpty, decr_size, bind, ret, deref, set_next_node,
    delete_Node, get_size, set_size.
  repeat first [rewrite lookup_insert_eq | rewrite bool_decide_false by done
               | progress red_state].
  destruct s as [h ob]. simpl in *. f_equal. f_equal.
  - rewrite delete_insert_eq. by apply delete_id.
  - rewrite !insert_insert_eq. apply insert_id. rewrite Ho. f_equal.
    destruct o as [[hv hn] sz]. simpl in *. subst sz. f_equal.
    rewrite (Z.mod_small (_ + 1)) by lia.
    rewrite Z.mod_small by lia. lia.
Qed.

(** X4.  [InsertAfter] at a position of a list (before-begin or one of
    its elements) followed by [EraseAfter] at the same position gives back
    exactly the state before the two calls, and [EraseAfter] returns the
    iterator to what followed the position at the start: the next element
    or the end. *)
Theorem InsertAfter_EraseAfter_restores s l cs i v it s1 :
  owns s l cs → i ≤ length cs →
  InsertAfter operator_new l (position l cs i) v s = Ret it s1 →
  EraseAfter l (position l cs i) s1 = Ret (position l cs (S i)) s.
Proof.
  intros (o & Ho & Hc & Hsz) Hi.
  pose proof (is_chain_length _ _ _ Hc) as Hlen.
  assert (∀ sz : Z, sz = Z.of_nat (length cs) →
            (Z.of_nat (size (heap s)) + 1 < SIZE_MAX1)%Z →
            (((sz + 1) `mod` SIZE_MAX1 - 1) `mod` SIZE_MAX1)%Z = sz) as Harith.
  { intros sz -> Hb. rewrite (Z.mod_small (_ + 1)) by lia.
    rewrite Z.mod_small by lia. lia. }
  destruct i as [|k]; cbn [position].
  - unfold InsertAfter, incr_size, bind, ret, deref, new_Node, set_next_node,
      get_size, set_size. red_state. rewrite Ho.
    destruct (operator_new (heap s)) as [a|] eqn:Hnew; [|done].
    destruct (operator_new_spec _ _ Hnew) as [Hfresh Hbound].
    repeat first [rewrite Ho | rewrite lookup_insert_eq | progress red_state].
    intros [= <- <-].
    unfold EraseAfter, IsEmpty, decr_size, bind, ret, deref, set_next_node,
      delete_Node, get_size, set_size.
    repeat first [rewrite lookup_insert_eq | rewrite bool_decide_false by done
                 | progress red_state].
    f_equal; [by rewrite (chain_start _ _ _ Hc)|].
    destruct s as [h ob]. simpl in *. f_equal.
    + rewrite delete_insert_eq. by apply delete_id.
    + rewrite !insert_insert_eq. apply insert_id. rewrite Ho. f_equal.
      destruct o as [[hv hn] sz]. simpl in *. f_equal. symmetry. by apply Harith.
  - destruct (lookup_lt_is_Some_2 cs k) as [c Hk]; [lia|]. rewrite Hk.
    destruct (chain_split _ _ _ _ _ Hc Hk) as (r & H1 & Hl & H2 & _).
    assert (next_node (head_ o) ≠ nullptr) as Hhead.
    { destruct cs as [|c0 cs0]; [done|]. destruct Hc as (-> & _). done. }
    unfold InsertAfter, incr_size, bind, ret, deref, new_Node, set_next_node,
      get_size, set_size. red_state. rewrite Hl.
    destruct (operator_new (heap s)) as [a|] eqn:Hnew; [|done].
    destruct (operator_new_spec _ _ Hnew) as [Hfresh Hbound].
    assert (a ≠ c.1) as Hac by congruence.
    repeat first [rewrite Ho | rewrite Hl | rewrite lookup_insert_eq
                 | rewrite lookup_insert_ne by done | progress red_state].
    intros [= <- <-].
    unfold EraseAfter, IsEmpty, decr_size, bind, ret, deref, set_next_node,
      delete_Node, get_size, set_size.
    repeat first [rewrite lookup_insert_eq | rewrite lookup_insert_ne by done
                 | rewrite lookup_delete_ne by done
                 | rewrite bool_decide_false by done
                 | progress red_state].
    f_equal.
    { rewrite (chain_start _ _ _ H2), lookup_drop. by rewrite Nat.add_0_r. }
    destruct s as [h ob]. simpl in *. f_equal.
    + apply map_eq. intros j. rewrite lookup_delete, !lookup_insert.
      repeat case_decide; subst; try done; try congruence.
    + rewrite !insert_insert_eq. apply insert_id. rewrite Ho. f_equal.
      destruct o as [[hv hn] sz]. simpl in *. f_equal. symmetry. by apply Harith.
Qed.

(** X5.  For two live lists, [a.swap(b)] and [b.swap(a)] return the same
    state, and swapping a second time gives back the state before the
    first swap. *)
Theorem swap_twice_restores s a b :
  live s a → live s b →
  ∃ s1, swap a b s = Ret tt s1
        ∧ swap b a s = Ret tt s1
        ∧ swap a b s1 = Ret tt s.
Proof.
  intros [oa Hoa] [ob Hob]. destruct (decide (a = b)) as [->|Hne].
  - exists s. by rewrite (swap_self _ _ _ Hoa).
  - assert (b ≠ a) as Hne' by done.
    eexists. split; [|split].
    + unfold swap, bind, ret, deref, set_next_node, get_size, set_size.
      repeat first [rewrite Hoa | rewrite Hob | rewrite lookup_insert_eq
                   | rewrite lookup_insert_ne by done | progress red_state].
      reflexivity.
    + unfold swap, bind, ret, deref, set_next_node, get_size, set_size.
      repeat first [rewrite Hoa | rewrite Hob | rewrite lookup_insert_eq
                   | rewrite lookup_insert_ne by done | progress red_state].
      f_equal. f_equal. apply map_eq. intros j. rewrite !lookup_insert.
      repeat case_decide; subst; done.
    + unfold swap, bind, ret, deref, set_next_node, get_size, set_size.
      repeat first [rewrite lookup_insert_eq
                   | rewrite lookup_insert_ne by done | progress red_state].
      f_equal. destruct s as [h obs]. simpl in *. f_equal.
      apply map_eq. intros j. rewrite !lookup_insert.
      repeat case_decide; subst; try done.
      * rewrite Hob. by destruct ob as [[? ?] ?].
      * rewrite Hoa. by destruct oa as [[? ?] ?].
Qed.
End FrontOperations.

(** ** Exceptions *)

Section Exceptions.
Context {T : Type} `{EqDecision T}.
Variable T_default : T.
Variable operator_new : gmap positive (Node T) → option positive.
Implicit Types (s : state T) (l : positive).

Lemma nothrow_ret {A} (a : A) : nothrow (T:=T) (ret a).
Proof. intros s s'. done. Qed.

Lemma nothrow_undefined {A} : nothrow (T:=T) (A:=A) undefined.
Proof. intros s s'. done. Qed.

Lemma nothrow_bind {A B} (f : M T A) (k : A → M T B) :
  nothrow f → (∀ a, nothrow (k a)) → nothrow (bind f k).
Proof.
  intros Hf Hk s s'. unfold bind.
  destruct (f s) as [a s1|s1|] eqn:Hfs; [|by destruct (Hf s s1)|done].
  apply Hk.
Qed.

Lemma nothrow_deref p : nothrow (T:=T) (deref p).
Proof. intros s s'. unfold deref. by repeat case_match. Qed.

Lemma nothrow_set_next_node p q : nothrow (T:=T) (set_next_node p q).
Proof. intros s s'. unfold set_next_node. by repeat case_match. Qed.

Lemma nothrow_delete_Node p : nothrow (T:=T) (delete_Node p).
Proof. intros s s'. unfold delete_Node. by repeat case_match. Qed.

Lemma nothrow_get_size l : nothrow (T:=T) (get_size l).
Proof. intros s s'. unfold get_size. by repeat case_match. Qed.

Lemma nothrow_set_size l z : nothrow (T:=T) (set_size l z).
Proof. intros s s'. unfold set_size. by repeat case_match. Qed.

Lemma nothrow_end_lifetime l : nothrow (T:=T) (end_lifetime l).
Proof. intros s s'. unfold end_lifetime. by repeat case_match. Qed.

Lemma nothrow_loop_bound : nothrow (T:=T) loop_bound.
Proof. intros s s'. done. Qed.

Ltac solve_nothrow :=
  repeat match goal with
    | |- nothrow (ret _) => apply nothrow_ret
    | |- nothrow undefined => apply nothrow_undefined
    | |- nothrow (deref _) => apply nothrow_deref
    | |- nothrow (set_next_node _ _) => apply nothrow_set_next_node
    | |- nothrow (delete_Node _) => apply nothrow_delete_Node
    | |- nothrow (get_size _) => apply nothrow_get_size
    | |- nothrow (set_size _ _) => apply nothrow_set_size
    | |- nothrow (end_lifetime _) => apply nothrow_end_lifetime
    | |- nothrow loop_bound => apply nothrow_loop_bound
    | |- nothrow (bind _ _) => apply nothrow_bind; [|intros ?]
    | |- nothrow (if ?b then _ else _) => destruct b
    end.

Lemma nothrow_IsEmpty l : nothrow (T:=T) (IsEmpty l).
Proof. unfold IsEmpty. solve_nothrow. Qed.

Lemma nothrow_Clear_loop fuel l current : nothrow (T:=T) (Clear_loop fuel l current).
Proof.
  revert current. induction fuel as [|fuel IH]; intros current; cbn [Clear_loop].
  - solve_nothrow.
  - apply nothrow_bind; [apply nothrow_IsEmpty|]. intros e. destruct e; cbn [negb].
    + solve_nothrow.
    + unfold decr_size. solve_nothrow. apply IH.
Qed.

Lemma nothrow_Clear l : nothrow (T:=T) (Clear l).
Proof.
  unfold Clear. solve_nothrow. apply nothrow_Clear_loop.
Qed.



(** X6.  The members declared [noexcept], the free [swap] and the
    destructor never leave by an exception, whatever the state and the
    arguments: none of them reaches an allocation. *)
Theorem noexcept_members_never_throw (this other : positive) (pos : BasicIterator) :
  nothrow (T:=T) (EraseAfter this pos)
  ∧ nothrow (T:=T) (PopFront this)
  ∧ nothrow (T:=T) (GetSize this)
  ∧ nothrow (T:=T) (IsEmpty this)
  ∧ nothrow (T:=T) (Clear this)
  ∧ nothrow (T:=T) (swap this other)
  ∧ nothrow (T:=T) (free_swap this other)
  ∧ nothrow (T:=T) (destructor this)
  ∧ nothrow (T:=T) (begin this)
  ∧ nothrow (T:=T) (before_begin this)
  ∧ nothrow (T:=T) (iter_incr pos)
  ∧ nothrow (T:=T) (iter_deref pos).
Proof.
  repeat split.
  - unfold EraseAfter, decr_size. apply nothrow_bind; [apply nothrow_IsEmpty|].
    intros e. destruct e; cbn [negb]; solve_nothrow.
  - unfold PopFront, decr_size. apply nothrow_bind; [apply nothrow_IsEmpty|].
    intros e. destruct e; cbn [negb]; solve_nothrow.
  - unfold GetSize. solve_nothrow.
  - apply nothrow_IsEmpty.
  - apply nothrow_Clear.
  - unfold swap. solve_nothrow.
  - unfold free_swap, swap. solve_nothrow.
  - unfold destructor. apply nothrow_bind; [apply nothrow_Clear|]. intros _. solve_nothrow.
  - unfold begin. solve_nothrow.
  - unfold before_begin. solve_nothrow.
  - unfold iter_incr. solve_nothrow.
  - unfold iter_deref. solve_nothrow.
Qed.

Lemma bind_Throw_inv {A B} (f : M T A) (k : A → M T B) s s' :
  bind f k s = Throw s' →
  f s = Throw s' ∨ ∃ a s1, f s = Ret a s1 ∧ k a s1 = Throw s'.
Proof.
  unfold bind. destruct (f s) as [a s1|s1|]; [|intros [= <-]; by left|done].
  intros Hk. right. by exists a, s1.
Qed.

Lemma deref_Ret_state p s n s1 : deref (T:=T) p s = Ret n s1 → s1 = s.
Proof. unfold deref. repeat case_match; by intros [= _ <-]. Qed.

(** The only exception of [PushFront] and [InsertAfter] is the one of a
    failed allocation. *)
Lemma new_Node_Throw_inv val nx s s' :
  new_Node operator_new val nx s = Throw s' → s' = s ∧ operator_new (heap s) = None.
Proof. unfold new_Node. case_match; [done|]. by intros [= <-]. Qed.

Lemma PushFront_Throw_inv this val s s' :
  PushFront operator_new this val s = Throw s' →
  s' = s ∧ operator_new (heap s) = None.
Proof.
  unfold PushFront.
  intros [Hd|(h & s1 & Hd & Hk)]%bind_Throw_inv; [by destruct (nothrow_deref _ _ _ Hd)|].
  apply deref_Ret_state in Hd as ->.
  apply bind_Throw_inv in Hk as [Hn|(p & s2 & _ & Hk)]; [by eapply new_Node_Throw_inv|].
  exfalso. revert Hk. unfold incr_size. apply nothrow_bind; [|intros ?]; solve_nothrow.
Qed.

Lemma InsertAfter_Throw_inv this pos val s s' :
  InsertAfter operator_new this pos val s = Throw s' →
  s' = s ∧ operator_new (heap s) = None.
Proof.
  unfold InsertAfter.
  intros [Hd|(h & s1 & Hd & Hk)]%bind_Throw_inv; [by destruct (nothrow_deref _ _ _ Hd)|].
  apply deref_Ret_state in Hd as ->.
  apply bind_Throw_inv in Hk as [Hn|(p & s2 & _ & Hk)]; [by eapply new_Node_Throw_inv|].
  exfalso. revert Hk. unfold incr_size. apply nothrow_bind; [|intros ?]; solve_nothrow.
Qed.

(** X7.  When the allocation in [PushFront] or [InsertAfter] fails, the
    exception leaves with the state exactly as it was at the call: the
    link is not written and the counter is not incremented. *)
Theorem allocation_failure_changes_nothing this pos val s s' :
  (PushFront operator_new this val s = Throw s' → s' = s)
  ∧ (InsertAfter operator_new this pos val s = Throw s' → s' = s).
Proof.
  assert (∀ nx s0 s1, new_Node operator_new val nx s0 = Throw s1 → s1 = s0) as Hnew.
  { intros nx s0 s1. unfold new_Node. case_match; [done|]. by intros [= <-]. }
  split.
  - unfold PushFront.
    intros [Hd|(h & s1 & Hd & Hk)]%bind_Throw_inv; [by destruct (nothrow_deref _ _ _ Hd)|].
    apply deref_Ret_state in Hd as ->.
    apply bind_Throw_inv in Hk as [Hn|(p & s2 & _ & Hk)]; [by eapply Hnew|].
    exfalso. revert Hk. unfold incr_size. apply nothrow_bind; [|intros ?]; solve_nothrow.
  - unfold InsertAfter.
    intros [Hd|(h & s1 & Hd & Hk)]%bind_Throw_inv; [by destruct (nothrow_deref _ _ _ Hd)|].
    apply deref_Ret_state in Hd as ->.
    apply bind_Throw_inv in Hk as [Hn|(p & s2 & _ & Hk)]; [by eapply Hnew|].
    exfalso. revert Hk. unfold incr_size. apply nothrow_bind; [|intros ?]; solve_nothrow.
Qed.
End Exceptions.

(** ** Construction, [Clear] and destruction *)

Section More.
Context {T : Type} `{EqDecision T}.
Variable T_default : T.
Variable T_lt : T → T → bool.
Variable operator_new : gmap positive (Node T) → option positive.
Hypothesis operator_new_spec : ∀ h a,
  operator_new h = Some a → h !! a = None ∧ (Z.of_nat (size h) + 1 < SIZE_MAX1)%Z.
Implicit Types (s : state T) (m : gmap positive (list (positive * T))).
Implicit Types (cs : list (positive * T)) (l : positive).

Lemma represents_not_live s m l : represents s m → m !! l = None → ¬ live s l.
Proof.
  intros Hr Hm [o Ho]. destruct (represents_lookup _ _ _ _ Hr Ho) as (cs & Hcs & _).
  congruence.
Qed.

(** X8.  In a state that satisfies the invariant, the constructor from
    an initializer list has defined behaviour, and when it returns, the
    new list is an object that was not live before, iterates over the
    values in the order of the initializer list and has their number as
    size; every list of the state before iterates as before and the
    invariant holds. *)
Theorem init_list_ctor_literal_order s values :
  state_inv s →
  init_list_ctor T_default operator_new values s ≠ Undefined
  ∧ ∀ this s', init_list_ctor T_default operator_new values s = Ret this s' →
      ¬ live s this
      ∧ iterate this s' = Ret values s'
      ∧ GetSize this s' = Ret (Z.of_nat (length values)) s'
      ∧ (∀ l xs, iterate l s = Ret xs s → iterate l s' = Ret xs s')
      ∧ state_inv s'.
Proof.
  intros [m Hr].
  pose proof (init_list_ctor_spec T_default operator_new operator_new_spec
                s m values Hr) as Hwp.
  split; [by eapply wp_defined|].
  intros this s' Hrun. rewrite Hrun in Hwp. destruct Hwp as (Hthis & new & Hnew & Hr').
  split; [by eapply represents_not_live|].
  rewrite (represents_iterate _ _ _ _ Hr' (lookup_insert_eq _ _ _)).
  rewrite (represents_GetSize _ _ _ _ Hr' (lookup_insert_eq _ _ _)).
  rewrite <- Hnew, length_fmap.
  split; [done|]. split; [done|]. split; [|by eexists].
  intros l xs Hit. apply (represents_frame_iterate _ _ _ _ _ _ Hr Hr'); [|done].
  rewrite lookup_insert_ne; [done|]. intros <-.
  by destruct (represents_not_live _ _ _ Hr Hthis (iterate_live _ _ _ _ Hit)).
Qed.

(** X9.  In a state that satisfies the invariant, [Clear] on a list
    returns; the nodes allocated afterwards are those allocated before
    minus the nodes of the list, the nodes that stay are untouched, every
    other list iterates as before and the invariant holds. *)
Theorem Clear_frees_nodes s l cs :
  state_inv s → owns s l cs →
  ∃ s', Clear l s = Ret tt s'
        ∧ (∀ a, is_Some (heap s' !! a) ↔ (a ∉ cs.*1) ∧ is_Some (heap s !! a))
        ∧ (∀ a, a ∉ cs.*1 → heap s' !! a = heap s !! a)
        ∧ (∀ l' xs, l' ≠ l → iterate l' s = Ret xs s → iterate l' s' = Ret xs s')
        ∧ state_inv s'.
Proof.
  intros [m Hr] Hown.
  destruct (live_represents _ _ l Hr) as (cs' & Hm & Hown').
  { destruct Hown as (o & Ho & _). by exists o. }
  pose proof (owns_inj _ _ _ _ Hown' Hown) as ->.
  pose proof (Clear_spec s m l cs Hr Hm) as Hwp.
  destruct (Clear l s) as [[] s'| |] eqn:Hrun; [|done..]. simpl in Hwp.
  exists s'. split; [done|].
  split; [by apply (Clear_footprint s l cs s' Hown Hrun)|].
  split; [|split; [|by eexists]].
  - destruct Hown as (o & Ho & Hc & Hsz).
    pose proof (is_chain_length _ _ _ Hc) as Hlen.
    assert (length cs < S (size (heap s))) as Hlt by lia.
    destruct (Clear_loop_spec (S (size (heap s))) s l o cs Ho Hc Hlt)
      as (h' & Hloop & Hag & _).
    revert Hrun. unfold Clear, bind, deref, loop_bound, set_size.
    rewrite Ho, Hloop. red_state. rewrite lookup_insert_eq. red_state.
    intros [= <-]. exact Hag.
  - intros l' xs Hne. apply (represents_frame_iterate _ _ _ _ _ _ Hr Hwp).
    by rewrite lookup_insert_ne.
Qed.

(** X10.  In a state that satisfies the invariant, the destructor of a
    list returns; the list is no longer live, the other list objects are
    untouched, the nodes allocated afterwards are those allocated before
    minus the nodes of the list, every other list iterates as before and
    the invariant holds. *)
Theorem destructor_releases_list s l cs :
  state_inv s → owns s l cs →
  ∃ s', destructor l s = Ret tt s'
        ∧ ¬ live s' l
        ∧ (∀ l', l' ≠ l → objs s' !! l' = objs s !! l')
        ∧ (∀ a, is_Some (heap s' !! a) ↔ (a ∉ cs.*1) ∧ is_Some (heap s !! a))
        ∧ (∀ l' xs, l' ≠ l → iterate l' s = Ret xs s → iterate l' s' = Ret xs s')
        ∧ state_inv s'.
Proof.
  intros [m Hr] Hown.
  destruct (live_represents _ _ l Hr) as (cs' & Hm & Hown').
  { destruct Hown as (o & Ho & _). by exists o. }
  pose proof (owns_inj _ _ _ _ Hown' Hown) as ->.
  pose proof (destructor_spec s m l cs Hr Hm) as Hwp.
  pose proof (Clear_spec s m l cs Hr Hm) as Hwpc.
  unfold destructor in *. unfold bind in Hwp |- *.
  destruct (Clear l s) as [[] s1| |] eqn:Hrun; [|done..]. simpl in Hwpc.
  pose proof (Clear_footprint s l cs s1 Hown Hrun) as Hfp.
  assert (∀ l', l' ≠ l → objs s1 !! l' = objs s !! l') as Hobjs.
  { destruct Hown as (o & Ho & Hc & Hsz).
    pose proof (is_chain_length _ _ _ Hc) as Hlen.
    assert (length cs < S (size (heap s))) as Hlt by lia.
    destruct (Clear_loop_spec (S (size (heap s))) s l o cs Ho Hc Hlt)
      as (h' & Hloop & _).
    revert Hrun. unfold Clear, bind, deref, loop_bound, set_size.
    rewrite Ho, Hloop. red_state. rewrite lookup_insert_eq. red_state.
    intros [= <-] l' Hne. simpl. by rewrite !lookup_insert_ne. }
  unfold end_lifetime in *.
  destruct (objs s1 !! l) as [o1|] eqn:Ho1; [|done]. simpl in Hwp.
  eexists. split; [reflexivity|]. simpl.
  split; [intros [? Hl]; simpl in Hl; by rewrite lookup_delete_eq in Hl|].
  split; [intros l' Hne; rewrite lookup_delete_ne by done; by apply Hobjs|].
  split; [done|]. split; [|by eexists].
  intros l' xs Hne. apply (represents_frame_iterate _ _ _ _ _ _ Hr Hwp).
  by rewrite lookup_delete_ne.
Qed.
End More.

(** ** Iterators *)

Section Iterators.
Context {T : Type} `{EqDecision T}.
Variable T_default : T.
Variable T_eq : T → T → bool.
Variable T_lt : T → T → bool.
Variable operator_new : gmap positive (Node T) → option positive.
Hypothesis operator_new_spec : ∀ h a,
  operator_new h = Some a → h !! a = None ∧ (Z.of_nat (size h) + 1 < SIZE_MAX1)%Z.
Implicit Types (s : state T) (m : gmap positive (list (positive * T))).
Implicit Types (cs : list (positive * T)) (l : positive).

(** X11.  In a state that satisfies the invariant, for a list that
    iterates over [xs]: [begin] incremented [k] times, for [k] below the
    length of [xs], is an iterator to a node, and dereferencing it gives
    the [k]-th element of [xs]; [begin] incremented as many times as [xs]
    has elements equals [end]. *)
Theorem iterator_visits_elements s l xs k x :
  state_inv s → iterate l s = Ret xs s → xs !! k = Some x →
  ∃ a, bind (begin l) (advance k) s = Ret (mkIter (node_at a)) s
       ∧ iter_deref (mkIter (node_at a)) s = Ret x s
       ∧ bind (begin l) (advance (length xs)) s = Ret end_ s.
Proof.
  intros [m Hr] Hit Hk.
  destruct (iterate_represents _ _ _ _ _ Hr Hit) as (cs & Hm & <-).
  pose proof (rep_owns _ _ Hr _ _ Hm) as Hown.
  apply list_lookup_fmap_Some in Hk as (c & -> & Hc).
  destruct (owns_begin _ _ _ Hown) as (p & Hb & Hch).
  exists c.1. rewrite !(bind_Ret _ _ _ _ _ Hb).
  pose proof (lookup_lt_Some _ _ _ Hc) as Hlt.
  rewrite (advance_chain s p cs k Hch) by lia. rewrite Hc.
  split; [done|]. split.
  - pose proof (iter_deref_position s l cs k c Hown Hc) as Hd.
    simpl in Hd. by rewrite Hc in Hd.
  - rewrite length_fmap, (advance_chain s p cs (length cs) Hch) by lia.
    by rewrite lookup_ge_None_2.
Qed.

(** X12.  [InsertAfter] invalidates no iterator: after it returns, every
    iterator to an element of the list, and every iterator to an element
    of another list, still dereferences to the value it had. *)
Theorem InsertAfter_keeps_iterators s this cs i v it s' :
  state_inv s → owns s this cs → i ≤ length cs →
  InsertAfter operator_new this (position this cs i) v s = Ret it s' →
  (∀ k c, cs !! k = Some c → iter_deref (position this cs (S k)) s' = Ret c.2 s')
  ∧ (∀ l' cs' k c, l' ≠ this → owns s l' cs' → cs' !! k = Some c →
       iter_deref (position l' cs' (S k)) s' = Ret c.2 s').
Proof.
  intros [m Hr] Hown Hi Hrun.
  destruct (live_represents _ _ this Hr) as (cs0 & Hm & Hown0).
  { destruct Hown as (o & Ho & _). by exists o. }
  pose proof (owns_inj _ _ _ _ Hown0 Hown) as ->.
  pose proof (InsertAfter_spec operator_new operator_new_spec s m this cs i v
                Hr Hm Hi) as Hwp.
  rewrite Hrun in Hwp. destruct Hwp as (a & Hfresh & -> & Hr').
  pose proof (rep_owns _ _ Hr' _ _ (lookup_insert_eq _ _ _)) as Hown2.
  assert (length (take i cs) = i) as Htk by (rewrite length_take; lia).
  split.
  - intros k c Hk.
    assert (∃ k', (take i cs ++ (a, v) :: drop i cs) !! k' = Some c) as [k' Hk'].
    { destruct (decide (k < i)) as [Hlt|Hge].
      - exists k. rewrite lookup_app_l by lia. by rewrite lookup_take_lt.
      - exists (S k). rewrite lookup_app_r by lia. rewrite Htk.
        replace (S k - i) with (S (k - i)) by lia. simpl.
        rewrite lookup_drop. by replace (i + (k - i)) with k by lia. }
    pose proof (iter_deref_position _ _ _ _ _ Hown2 Hk') as Hd.
    simpl in Hd. rewrite Hk' in Hd. simpl. by rewrite Hk.
  - intros l' cs' k c Hne Hown' Hk.
    destruct (live_represents _ _ l' Hr) as (cs1 & Hm1 & Hown1).
    { destruct Hown' as (o & Ho & _). by exists o. }
    pose proof (owns_inj _ _ _ _ Hown1 Hown') as ->.
    apply iter_deref_position; [|done].
    apply (rep_owns _ _ Hr'). by rewrite lookup_insert_ne.
Qed.

(** X13.  [EraseAfter] at a position with a successor invalidates the
    iterators to the erased element and no other: dereferencing or
    incrementing an iterator to the erased element is undefined behaviour
    afterwards, while every iterator to another element of the list, and
    to an element of another list, still dereferences to the value it
    had. *)
Theorem EraseAfter_invalidates_only_erased s this cs i it s' :
  state_inv s → owns s this cs → i < length cs →
  EraseAfter this (position this cs i) s = Ret it s' →
  (∀ k c, cs !! k = Some c → k ≠ i →
     iter_deref (position this cs (S k)) s' = Ret c.2 s')
  ∧ iter_deref (position this cs (S i)) s' = Undefined
  ∧ iter_incr (position this cs (S i)) s' = Undefined
  ∧ (∀ l' cs' k c, l' ≠ this → owns s l' cs' → cs' !! k = Some c →
       iter_deref (position l' cs' (S k)) s' = Ret c.2 s').
Proof.
  intros [m Hr] Hown Hi Hrun.
  destruct (live_represents _ _ this Hr) as (cs0 & Hm & Hown0).
  { destruct Hown as (o & Ho & _). by exists o. }
  pose proof (owns_inj _ _ _ _ Hown0 Hown) as ->.
  pose proof (EraseAfter_spec s m this cs i Hr Hm Hi) as Hwp.
  rewrite Hrun in Hwp. destruct Hwp as (-> & Hr').
  pose proof (rep_owns _ _ Hr' _ _ (lookup_insert_eq _ _ _)) as Hown2.
  destruct (lookup_lt_is_Some_2 cs i Hi) as [d Hd].
  pose proof (EraseAfter_footprint _ _ _ _ _ _ _ Hown Hd Hrun) as Hfp.
  assert (heap s' !! d.1 = None) as Hgone.
  { apply eq_None_not_Some. intros [Hne _]%Hfp. done. }
  split; [|split; [|split]].
  - intros k c Hk Hne.
    assert (∃ k', delete i cs !! k' = Some c) as [k' Hk'].
    { destruct (decide (k < i)) as [Hlt|Hge].
      - exists k. by rewrite list_lookup_delete_lt.
      - exists (k - 1). rewrite list_lookup_delete_ge by lia.
        by replace (S (k - 1)) with k by lia. }
    pose proof (iter_deref_position _ _ _ _ _ Hown2 Hk') as Hderef.
    simpl in Hderef. rewrite Hk' in Hderef. simpl. by rewrite Hk.
  - simpl. rewrite Hd. unfold iter_deref, bind, deref. red_state. by rewrite Hgone.
  - simpl. rewrite Hd. unfold iter_incr, bind, deref. red_state. by rewrite Hgone.
  - intros l' cs' k c Hne Hown' Hk.
    destruct (live_represents _ _ l' Hr) as (cs1 & Hm1 & Hown1).
    { destruct Hown' as (o & Ho & _). by exists o. }
    pose proof (owns_inj _ _ _ _ Hown1 Hown') as ->.
    apply iter_deref_position; [|done].
    apply (rep_owns _ _ Hr'). by rewrite lookup_insert_ne.
Qed.

(** X14.  [EraseAfter] tests only whether the list is empty: on a
    non-empty list, calling it at the last element, which has no
    successor, is undefined behaviour, and calling it at [end] is
    undefined behaviour for every list. *)
Theorem EraseAfter_without_successor_undefined s this cs :
  owns s this cs →
  (cs ≠ [] → EraseAfter this (position this cs (length cs)) s = Undefined)
  ∧ EraseAfter this end_ s = Undefined.
Proof.
  intros Hown. split; [by apply EraseAfter_last|].
  unfold EraseAfter. rewrite (bind_Ret _ _ _ _ _ (IsEmpty_owns _ _ _ Hown)).
  by destruct cs.
Qed.

Lemma lex_ltb_irrefl (xs : list T) :
  (∀ x, T_lt x x = false) → lex_ltb T_lt xs xs = false.
Proof. intros Hirr. induction xs as [|x xs IH]; simpl; [done|]. by rewrite Hirr. Qed.

Lemma all_eqb_refl (xs : list T) :
  (∀ x, T_eq x x = true) → all_eqb T_eq xs xs = true.
Proof. intros Hrefl. induction xs as [|x xs IH]; simpl; [done|]. by rewrite Hrefl. Qed.

(** X15.  When [==] on the elements is reflexive, then in a state that
    satisfies the invariant a list returned by the copy constructor
    compares equal to its source with [==], in both directions, and not
    different with [!=]; when moreover [<] on the elements is irreflexive,
    neither is [<] or [>] the other, and both [<=] and [>=] hold. *)
Theorem copy_compares_equal s L xs C s1 :
  (∀ x, T_eq x x = true) →
  state_inv s → iterate L s = Ret xs s →
  copy_ctor T_default operator_new L s = Ret C s1 →
  operator_eq T_eq C L s1 = Ret true s1
  ∧ operator_eq T_eq L C s1 = Ret true s1
  ∧ operator_ne T_eq C L s1 = Ret false s1
  ∧ ((∀ x, T_lt x x = false) →
     operator_lt T_lt C L s1 = Ret false s1
     ∧ operator_gt T_lt C L s1 = Ret false s1
     ∧ operator_le T_lt C L s1 = Ret true s1
     ∧ operator_ge T_lt C L s1 = Ret true s1).
Proof.
  intros Hrefl [m Hr] Hit Hrun.
  destruct (iterate_represents _ _ _ _ _ Hr Hit) as (cl & Hl & <-).
  pose proof (copy_ctor_spec T_default operator_new operator_new_spec
                s m L cl Hr Hl) as Hwp.
  rewrite Hrun in Hwp. destruct Hwp as (HC & new & Hnew & Hr1).
  assert (C ≠ L) as Hne by congruence.
  pose proof (rep_owns _ _ Hr1 C new (lookup_insert_eq _ _ _)) as HoC.
  assert (owns s1 L cl) as HoL.
  { apply (rep_owns _ _ Hr1). by rewrite lookup_insert_ne. }
  assert (length new = length cl) as Hlen.
  { by rewrite <- (length_fmap snd new), Hnew, length_fmap. }
  pose proof (operator_eq_owns T_eq _ _ _ _ _ HoC HoL) as E1.
  pose proof (operator_eq_owns T_eq _ _ _ _ _ HoL HoC) as E2.
  rewrite Hnew, all_eqb_refl, bool_decide_true in E1, E2 by done.
  split; [done|]. split; [done|].
  split; [unfold operator_ne; by rewrite (bind_Ret _ _ _ _ _ E1)|].
  intros Hirr.
  pose proof (operator_lt_owns T_lt _ _ _ _ _ HoC HoL) as L1.
  pose proof (operator_lt_owns T_lt _ _ _ _ _ HoL HoC) as L2.
  rewrite Hnew, lex_ltb_irrefl in L1, L2 by done.
  split; [done|]. split; [done|]. split.
  - unfold operator_le. by rewrite (bind_Ret _ _ _ _ _ L2).
  - unfold operator_ge. by rewrite (bind_Ret _ _ _ _ _ L1).
Qed.
End Iterators.

(** ** Leaks, failed construction and the order of lists *)

Section NoLeak.
Context {T : Type} `{EqDecision T}.
Variable T_default : T.
Variable T_eq : T → T → bool.
Variable T_lt : T → T → bool.
Variable operator_new : gmap positive (Node T) → option positive.
Hypothesis operator_new_spec : ∀ h a,
  operator_new h = Some a → h !! a = None ∧ (Z.of_nat (size h) + 1 < SIZE_MAX1)%Z.
Implicit Types (s : state T) (m : gmap positive (list (positive * T))).
Implicit Types (cs : list (positive * T)) (l : positive).

(** X16.  No reachable state holds a leaked or a shared node: every
    allocated node belongs to the chain of a live list, and to no other
    list's chain; so when no list is live, no node is allocated. *)
Theorem reachable_heap_is_owned s :
  reachable T_default operator_new s →
  (∀ a, is_Some (heap s !! a) →
     ∃ l cs, owns s l cs ∧ a ∈ cs.*1
             ∧ ∀ l' cs', owns s l' cs' → a ∈ cs'.*1 → l' = l)
  ∧ (objs s = ∅ → heap s = ∅).
Proof.
  intros Hreach.
  destruct (reachable_tight T_default operator_new operator_new_spec s Hreach)
    as (m & Hr & Hg).
  split.
  - intros a Ha. destruct (Hg a Ha) as (l & cs & Hm & Hin).
    exists l, cs. split; [by eapply rep_owns|]. split; [done|].
    intros l' cs' Hown' Hin'.
    destruct (live_represents _ _ l' Hr) as (cs1 & Hm1 & Hown1).
    { destruct Hown' as (o & Ho & _). by exists o. }
    pose proof (owns_inj _ _ _ _ Hown1 Hown') as ->.
    destruct (decide (l' = l)) as [|Hne]; [done|].
    destruct (rep_disj _ _ Hr l' l cs' cs Hne Hm1 Hm a Hin' Hin).
  - intros Hobjs. apply map_empty. intros a. apply eq_None_not_Some. intros Ha.
    destruct (Hg a Ha) as (l & cs & Hm & _).
    assert (l ∈ dom m) as Hl by (apply elem_of_dom; by eexists).
    rewrite (rep_dom _ _ Hr), Hobjs, dom_empty_L in Hl. by apply elem_of_empty in Hl.
Qed.

Lemma is_chain_lookup_agree (h h' : gmap positive (Node T)) p p' cs a :
  is_chain h p cs → is_chain h' p' cs → a ∈ cs.*1 → h !! a = h' !! a.
Proof.
  revert p p'. induction cs as [|c cs IH]; intros p p' Hc Hc' Ha.
  - by apply elem_of_nil in Ha.
  - destruct Hc as (-> & r & Hl & Hc). destruct Hc' as (-> & r' & Hl' & Hc').
    assert (r = r') as <-.
    { pose proof (chain_start _ _ _ Hc) as E1. pose proof (chain_start _ _ _ Hc') as E2.
      rewrite <- E2 in E1. by injection E1. }
    destruct (decide (a = c.1)) as [->|Hne]; [by rewrite Hl, Hl'|].
    apply elem_of_cons in Ha as [?|Ha]; [done|]. by eapply IH.
Qed.

Lemma tight_same_lists s s' m : tight s m → tight s' m → same_lists s s'.
Proof.
  intros [Hr Hg] [Hr' Hg']. split; [|split].
  - apply map_eq. intros a.
    assert (∀ s1 s2, tight s1 m → tight s2 m → is_Some (heap s1 !! a) →
              heap s1 !! a = heap s2 !! a) as Hag.
    { intros s1 s2 [Hr1 Hg1] [Hr2 _] Ha. destruct (Hg1 a Ha) as (l & cs & Hm & Hin).
      destruct (rep_owns _ _ Hr1 _ _ Hm) as (o1 & _ & Hc1 & _).
      destruct (rep_owns _ _ Hr2 _ _ Hm) as (o2 & _ & Hc2 & _).
      by eapply is_chain_lookup_agree. }
    destruct (heap s' !! a) as [n|] eqn:Hn.
    + rewrite <- Hn. apply Hag; [done|done|]. rewrite Hn. by eexists.
    + symmetry. apply eq_None_not_Some. intros Ha.
      rewrite (Hag s s' (conj Hr Hg) (conj Hr' Hg') Ha), Hn in Ha. by destruct Ha.
  - intros l. unfold live. rewrite <- !elem_of_dom.
    by rewrite <- (rep_dom _ _ Hr), <- (rep_dom _ _ Hr').
  - intros l xs n Hit Hsz.
    destruct (iterate_represents _ _ _ _ _ Hr Hit) as (cs & Hm & <-).
    rewrite (represents_GetSize _ _ _ _ Hr Hm) in Hsz. injection Hsz as <-.
    by rewrite (represents_iterate _ _ _ _ Hr' Hm), (represents_GetSize _ _ _ _ Hr' Hm).
Qed.

(** X17.  In a reachable state, when the constructor from an
    initializer list, the copy constructor or the copy assignment leaves
    by an exception (an allocation failed part-way), the nodes allocated
    are exactly those allocated before the call, the same lists are live,
    and each of them iterates over the same values and has the same
    size: the partly built temporary is released in full. *)
Theorem failed_construction_leaves_lists s s' :
  reachable T_default operator_new s →
  (∀ values, init_list_ctor T_default operator_new values s = Throw s' →
             same_lists s s')
  ∧ (∀ other, live s other →
       copy_ctor T_default operator_new other s = Throw s' → same_lists s s')
  ∧ (∀ this rhs, live s this → live s rhs →
       assign T_default operator_new this rhs s = Throw s' → same_lists s s').
Proof.
  intros Hreach.
  destruct (reachable_tight T_default operator_new operator_new_spec s Hreach)
    as (m & Ht).
  split; [|split].
  - intros values Hrun.
    pose proof (init_list_ctor_tight T_default operator_new operator_new_spec
                  s m values Ht) as Hwp.
    rewrite Hrun in Hwp. by eapply tight_same_lists.
  - intros other Hlive Hrun.
    destruct (live_represents _ _ _ (proj1 Ht) Hlive) as (cs & Hm & _).
    pose proof (copy_ctor_tight T_default operator_new operator_new_spec
                  s m other cs Ht Hm) as Hwp.
    rewrite Hrun in Hwp. by eapply tight_same_lists.
  - intros this rhs H1 H2 Hrun.
    destruct (live_represents _ _ _ (proj1 Ht) H1) as (c1 & Hm1 & _).
    destruct (live_represents _ _ _ (proj1 Ht) H2) as (c2 & Hm2 & _).
    pose proof (assign_tight T_default operator_new operator_new_spec
                  s m this rhs c1 c2 Ht Hm1 Hm2) as Hwp.
    rewrite Hrun in Hwp. by eapply tight_same_lists.
Qed.

Lemma lex_ltb_trichotomy (xs ys : list T) :
  (∀ x y, T_eq x y = true ↔ T_lt x y = false ∧ T_lt y x = false) →
  (∀ x y, T_lt x y = true → T_lt y x = false) →
  let eq := bool_decide (length xs = length ys) && all_eqb T_eq xs ys in
  (eq = true ∧ lex_ltb T_lt xs ys = false ∧ lex_ltb T_lt ys xs = false)
  ∨ (eq = false ∧ lex_ltb T_lt xs ys = true ∧ lex_ltb T_lt ys xs = false)
  ∨ (eq = false ∧ lex_ltb T_lt xs ys = false ∧ lex_ltb T_lt ys xs = true).
Proof.
  intros Heq Hasym. revert ys.
  induction xs as [|x xs IH]; intros [|y ys]; cbn zeta; simpl.
  - by left.
  - right. by left.
  - right. by right.
  - assert (bool_decide (S (length xs) = S (length ys))
            = bool_decide (length xs = length ys)) as ->
      by (apply bool_decide_ext; lia).
    destruct (T_lt x y) eqn:Hxy.
    { rewrite (Hasym _ _ Hxy). right. left. split; [|done].
      destruct (T_eq x y) eqn:Exy; [|by rewrite andb_false_r].
      apply Heq in Exy as [? _]. congruence. }
    destruct (T_lt y x) eqn:Hyx.
    { right. right. split; [|done].
      destruct (T_eq x y) eqn:Exy; [|by rewrite andb_false_r].
      apply Heq in Exy as [_ ?]. congruence. }
    rewrite (proj2 (Heq x y) (conj Hxy Hyx)). simpl. apply IH.
Qed.

(** X18.  When [==] on the elements holds exactly for two elements of
    which neither is less than the other, and [<] on the elements is
    asymmetric, then in a state that satisfies the invariant exactly one
    of [A == B], [A < B] and [A > B] holds for two live lists; [A <= B]
    holds exactly when [A == B] or [A < B] does, and [A >= B] exactly when
    [A == B] or [A > B] does. *)
Theorem comparison_trichotomy s A B xs ys :
  (∀ x y, T_eq x y = true ↔ T_lt x y = false ∧ T_lt y x = false) →
  (∀ x y, T_lt x y = true → T_lt y x = false) →
  state_inv s → iterate A s = Ret xs s → iterate B s = Ret ys s →
  ∃ eq lt gt : bool,
    operator_eq T_eq A B s = Ret eq s
    ∧ operator_lt T_lt A B s = Ret lt s
    ∧ operator_gt T_lt A B s = Ret gt s
    ∧ operator_le T_lt A B s = Ret (eq || lt) s
    ∧ operator_ge T_lt A B s = Ret (eq || gt) s
    ∧ ((eq = true ∧ lt = false ∧ gt = false)
       ∨ (eq = false ∧ lt = true ∧ gt = false)
       ∨ (eq = false ∧ lt = false ∧ gt = true)).
Proof.
  intros Heqlt Hasym [m Hr] HA HB.
  destruct (iterate_represents _ _ _ _ _ Hr HA) as (ca & Ha & <-).
  destruct (iterate_represents _ _ _ _ _ Hr HB) as (cb & Hb & <-).
  pose proof (rep_owns _ _ Hr _ _ Ha) as Hoa.
  pose proof (rep_owns _ _ Hr _ _ Hb) as Hob.
  pose proof (operator_eq_owns T_eq _ _ _ _ _ Hoa Hob) as Heq.
  pose proof (operator_lt_owns T_lt _ _ _ _ _ Hoa Hob) as Hlt.
  pose proof (operator_lt_owns T_lt _ _ _ _ _ Hob Hoa) as Hgt.
  exists (bool_decide (length ca = length cb) && all_eqb T_eq ca.*2 cb.*2),
    (lex_ltb T_lt ca.*2 cb.*2), (lex_ltb T_lt cb.*2 ca.*2).
  unfold operator_le, operator_ge, operator_gt.
  rewrite (bind_Ret _ _ _ _ _ Hgt), (bind_Ret _ _ _ _ _ Hlt).
  pose proof (lex_ltb_trichotomy ca.*2 cb.*2 Heqlt Hasym) as Htri.
  cbn zeta in Htri. rewrite !length_fmap in Htri.
  destruct Htri as [(E & E1 & E2)|[(E & E1 & E2)|(E & E1 & E2)]];
    rewrite E in Heq |- *; rewrite E1 in Hlt |- *; rewrite E2 in Hgt |- *.
  - split; [done|]. split; [done|]. split; [done|]. split; [done|].
    split; [done|]. by left.
  - split; [done|]. split; [done|]. split; [done|]. split; [done|].
    split; [done|]. right. by left.
  - split; [done|]. split; [done|]. split; [done|]. split; [done|].
    split; [done|]. right. by right.
Qed.
End NoLeak.

(** ** Calls that return, and the independence of copies *)

Section Returns.
Context {T : Type} `{EqDecision T}.
Variable T_default : T.
Variable operator_new : gmap positive (Node T) → option positive.
Hypothesis operator_new_spec : ∀ h a,
  operator_new h = Some a → h !! a = None ∧ (Z.of_nat (size h) + 1 < SIZE_MAX1)%Z.
Implicit Types (s : state T) (m : gmap positive (list (positive * T))).
Implicit Types (cs : list (positive * T)) (l : positive).

Lemma within_bind {A B} (f : M T A) (k : A → M T B) s
    (Q' : A → state T → Prop) (Q : B → state T → Prop) :
  within (f s) Q' →
  (∀ a s1, f s = Ret a s1 → Q' a s1 → within (k a s1) Q) →
  within (bind f k s) Q.
Proof.
  unfold bind. destruct (f s) as [a s1|s1|]; simpl; [|done..].
  intros HQ Hk. by apply Hk.
Qed.



(** An outcome that is defined and is no exception is a normal return. *)
Lemma wp_within {A} (o : outcome T A) (Q Q' : A → state T → Prop)
    (E : state T → Prop) :
  wp o Q E → within o Q' → ∃ a s', o = Ret a s' ∧ Q a s' ∧ Q' a s'.
Proof. destruct o as [a s'| |]; simpl; [|done..]. intros. by exists a, s'. Qed.

Lemma PushFront_within N s l v :
  serves operator_new N → size (heap s) < N →
  within (PushFront operator_new l v s)
         (λ _ s', size (heap s') ≤ S (size (heap s))).
Proof.
  intros Hserves Hlt. destruct (Hserves (heap s) Hlt) as [a Ha].
  unfold PushFront, bind, deref, new_Node, set_next_node, incr_size, get_size,
    set_size, ret.
  destruct (objs s !! l) as [o|] eqn:Ho; [|done].
  repeat first [rewrite Ha | rewrite Ho | rewrite lookup_insert_eq
               | progress red_state | progress unfold bind].
  cbn [within heap]. rewrite map_size_insert. destruct (heap s !! a); simpl; lia.
Qed.

Lemma PushFront_each_within N s l vs :
  serves operator_new N → size (heap s) + length vs ≤ N →
  within (PushFront_each operator_new l vs s)
         (λ _ s', size (heap s') ≤ size (heap s) + length vs).
Proof.
  intros Hserves. revert s. induction vs as [|v vs IH]; intros s Hb; simpl in *.
  - lia.
  - eapply within_bind; [apply (PushFront_within N); [done|lia]|].
    cbv beta. intros ? s1 _ Hs1.
    pose proof (IH s1 ltac:(lia)) as Hw.
    destruct (PushFront_each operator_new l vs s1) as [? s2| |]; simpl in *; [lia|done..].
Qed.






(** A position of a list can be read through. *)
Lemma deref_position s l cs i :
  owns s l cs → i ≤ length cs →
  ∃ n, deref (node_ (position l cs i)) s = Ret n s.
Proof.
  intros (o & Ho & Hc & _) Hi. destruct i as [|k]; simpl.
  - exists (head_ o). unfold deref. by rewrite Ho.
  - destruct (lookup_lt_is_Some_2 cs k) as [c Hk]; [lia|]. rewrite Hk.
    destruct (chain_split _ _ _ _ _ Hc Hk) as (r & _ & Hl & _).
    eexists. unfold deref. simpl. by rewrite Hl.
Qed.



(** C2.  Starting from an empty list, the calls PushFront(v1), ...,
    PushFront(vn) never have undefined behaviour; they all return when
    the allocator serves the n requests, and an exception leaves them
    only from an allocation that failed; when they return, iterating
    from [begin()] to [end()] yields vn, ..., v1, [GetSize()] is n, and
    the invariant holds. *)
Theorem PushFront_sequence_reversed s this vs :
  state_inv s → IsEmpty this s = Ret true s →
  PushFront_each operator_new this vs s ≠ Undefined
  ∧ (serves operator_new (size (heap s) + length vs) →
     ∃ s', PushFront_each operator_new this vs s = Ret tt s')
  ∧ (∀ s', PushFront_each operator_new this vs s = Throw s' →
           operator_new (heap s') = None)
  ∧ ∀ s', PushFront_each operator_new this vs s = Ret tt s' →
          iterate this s' = Ret (rev vs) s'
          ∧ GetSize this s' = Ret (Z.of_nat (length vs)) s'
          ∧ state_inv s'.
Proof.
  intros [m Hr] He. pose proof (IsEmpty_true_represents _ _ _ _ Hr He) as Hm.
  pose proof (PushFront_each_spec operator_new operator_new_spec s m this [] vs Hr Hm)
    as Hwp.
  split; [by eapply wp_defined|]. split; [|split].
  - intros Hserves.
    destruct (wp_within _ _ _ _ Hwp
                (PushFront_each_within _ s this vs Hserves (le_n _)))
      as ([] & s' & Hrun & _). by exists s'.
  - clear. revert s. induction vs as [|v vs IH]; intros s s'; simpl; [done|].
    intros [Hp|(? & s1 & _ & Hk)]%bind_Throw_inv.
    + by apply PushFront_Throw_inv in Hp as [-> ?].
    + by apply (IH s1).
  - intros s' Hrun. rewrite Hrun in Hwp. destruct Hwp as (new & Hnew & Hr').
    rewrite app_nil_r in Hr'.
    rewrite (represents_iterate _ _ _ _ Hr' (lookup_insert_eq _ _ _)).
    rewrite (represents_GetSize _ _ _ _ Hr' (lookup_insert_eq _ _ _)).
    rewrite Hnew. split; [done|]. split; [|by eexists].
    by rewrite <- (length_fmap snd new), Hnew, length_rev.
Qed.

(** C5.  When [pos] is the position [i] of a list (i = 0 for
    [before_begin()], i = k + 1 for the k-th element), [InsertAfter] has
    no undefined behaviour; it returns when the allocation succeeds, and
    leaves by an exception, with the state as it was, when the allocation
    fails.  When it returns, the elements are the old ones with [v]
    inserted at index i (so right after [pos], and first for
    [before_begin()]), the size is one more, and the returned iterator
    references a new node that holds [v], follows [pos] and precedes the
    old successor of [pos]; the other lists iterate as before. *)
Theorem InsertAfter_places_value s this cs i v :
  state_inv s → owns s this cs → i ≤ length cs →
  InsertAfter operator_new this (position this cs i) v s ≠ Undefined
  ∧ (is_Some (operator_new (heap s)) →
     ∃ it s', InsertAfter operator_new this (position this cs i) v s = Ret it s')
  ∧ (operator_new (heap s) = None →
     InsertAfter operator_new this (position this cs i) v s = Throw s)
  ∧ ∀ it s',
      InsertAfter operator_new this (position this cs i) v s = Ret it s' →
      iterate this s' = Ret (take i cs.*2 ++ v :: drop i cs.*2) s'
      ∧ GetSize this s' = Ret (Z.of_nat (length cs) + 1)%Z s'
      ∧ iter_deref it s' = Ret v s'
      ∧ iter_incr (position this cs i) s' = Ret it s'
      ∧ iter_incr it s' = Ret (position this cs (S i)) s'
      ∧ (∃ a, it = mkIter (node_at a) ∧ heap s !! a = None)
      ∧ (∀ l xs, l ≠ this → iterate l s = Ret xs s → iterate l s' = Ret xs s')
      ∧ state_inv s'.
Proof.
  intros [m Hr] Hown Hi.
  destruct (live_represents _ _ this Hr) as (cs' & Hm & Hown').
  { destruct Hown as (o & Ho & _). by exists o. }
  pose proof (owns_inj _ _ _ _ Hown' Hown) as ->.
  pose proof (InsertAfter_spec operator_new operator_new_spec s m this cs i v
                Hr Hm Hi) as Hwp.
  split; [by eapply wp_defined|]. split; [|split].
  { intros [a Ha].
    destruct (InsertAfter operator_new this (position this cs i) v s)
      as [it s'|s'|] eqn:Hrun; [by exists it, s'| |done].
    apply InsertAfter_Throw_inv in Hrun as [_ Hnone]. congruence. }
  { intros Hnone. destruct (deref_position _ _ _ _ Hown Hi) as [n Hn].
    unfold InsertAfter. rewrite (bind_Ret _ _ _ _ _ Hn).
    unfold bind, new_Node. by rewrite Hnone. }
  intros it s' Hrun. rewrite Hrun in Hwp. destruct Hwp as (a & Hfresh & -> & Hr').
  set (cs2 := take i cs ++ (a, v) :: drop i cs) in *.
  pose proof (rep_owns _ _ Hr' _ _ (lookup_insert_eq _ _ _)) as Hown2.
  assert (length (take i cs) = i) as Htk by (rewrite length_take; lia).
  assert (cs2 !! i = Some (a, v)) as Hnew.
  { unfold cs2. rewrite lookup_app_r by lia. by rewrite Htk, Nat.sub_diag. }
  assert (length cs2 = S (length cs)) as Hlen2.
  { unfold cs2. rewrite length_app. simpl. rewrite length_drop. lia. }
  assert (mkIter (node_at a) = position this cs2 (S i)) as Hit.
  { simpl. by rewrite Hnew. }
  assert (position this cs i = position this cs2 i) as Hpos.
  { destruct i as [|k]; [done|]. simpl. unfold cs2.
    rewrite lookup_app_l by lia. by rewrite lookup_take_lt by lia. }
  assert (position this cs (S i) = position this cs2 (S (S i))) as Hsucc.
  { simpl. unfold cs2. rewrite lookup_app_r by lia.
    replace (S i - length (take i cs)) with 1 by lia. simpl.
    rewrite lookup_drop. by rewrite Nat.add_0_r. }
  split; [|split; [|split; [|split; [|split; [|split; [|split]]]]]].
  - rewrite (iterate_owns _ _ _ Hown2). unfold cs2.
    by rewrite fmap_app, fmap_cons, fmap_take, fmap_drop.
  - rewrite (GetSize_owns _ _ _ Hown2). f_equal. lia.
  - rewrite Hit. by rewrite (iter_deref_position _ _ _ _ _ Hown2 Hnew).
  - rewrite Hit, Hpos. apply iter_incr_position; [done|lia].
  - rewrite Hit, Hsucc. apply iter_incr_position; [done|lia].
  - by exists a.
  - intros l xs Hne. apply (represents_frame_iterate _ _ _ _ _ _ Hr Hr').
    by rewrite lookup_insert_ne.
  - by eexists.
Qed.


End Returns.

(** ** The properties above on concrete lists *)

Lemma bounded_new_spec {V} (k : nat) (h : gmap positive V) a :
  (Z.of_nat k < SIZE_MAX1)%Z →
  bounded_new k h = Some a → h !! a = None ∧ (Z.of_nat (size h) + 1 < SIZE_MAX1)%Z.
Proof.
  intros Hk. unfold bounded_new. case_decide; [|done]. intros [= <-].
  split; [apply not_elem_of_dom, is_fresh|lia].
Qed.

Lemma bump_new_serves (n : nat) :
  (Z.of_nat n < SIZE_MAX1)%Z → serves new_Z n.
Proof.
  intros Hn h Hlt. unfold new_Z, bump_new.
  destruct (Z.ltb_spec (Z.of_nat (size h) + 1) SIZE_MAX1) as [_|Hge]; [by eexists|lia].
Qed.

Lemma bounded_new_3_spec (h : gmap positive (Node Z)) a :
  bounded_new 3 h = Some a → h !! a = None ∧ (Z.of_nat (size h) + 1 < SIZE_MAX1)%Z.
Proof. apply bounded_new_spec. done. Qed.


Lemma PushFront_sequence_reversed_witness :
  IsEmpty 3 state_3 = Ret true state_3
  ∧ serves new_Z (size (heap state_3) + length [5; 6; 7]%Z)
  ∧ (∃ s', PushFront_each new_Z 3 [5; 6; 7]%Z state_3 = Ret tt s')
  ∧ PushFront_each new_Z 3 [5; 6; 7]%Z state_3 = Ret tt state_3_filled
  ∧ iterate 3 state_3_filled = Ret (rev [5; 6; 7]%Z) state_3_filled
  ∧ GetSize 3 state_3_filled = Ret (Z.of_nat (length [5; 6; 7]%Z)) state_3_filled
  ∧ state_inv state_3_filled.
Proof.
  assert (IsEmpty 3 state_3 = Ret true state_3) as He by (vm_compute; reflexivity).
  assert (serves new_Z (size (heap state_3) + length [5; 6; 7]%Z)) as Hserves
    by (apply bump_new_serves; vm_compute; reflexivity).
  assert (PushFront_each new_Z 3 [5; 6; 7]%Z state_3 = Ret tt state_3_filled) as Hrun
    by (vm_compute; reflexivity).
  destruct (PushFront_sequence_reversed new_Z (@bump_new_spec _) state_3 3
              [5; 6; 7]%Z state_3_inv He) as (_ & Hret & _ & Hpost).
  split; [exact He|]. split; [exact Hserves|]. split; [exact (Hret Hserves)|].
  split; [exact Hrun|]. exact (Hpost state_3_filled Hrun).
Defined.

Lemma InsertAfter_places_value_witness :
  (∃ it s', InsertAfter new_Z 1 (position 1 chain_1 1) 9%Z state_1 = Ret it s')
  ∧ InsertAfter (bounded_new 3) 1 (position 1 chain_1 1) 9%Z state_1 = Throw state_1
  ∧ InsertAfter new_Z 1 (position 1 chain_1 1) 9%Z state_1
    = Ret (mkIter (node_at 4)) state_1_inserted
  ∧ iterate 1 state_1_inserted
    = Ret (take 1 chain_1.*2 ++ 9%Z :: drop 1 chain_1.*2) state_1_inserted
  ∧ GetSize 1 state_1_inserted = Ret (Z.of_nat (length chain_1) + 1)%Z state_1_inserted
  ∧ iter_deref (mkIter (node_at 4)) state_1_inserted = Ret 9%Z state_1_inserted
  ∧ iter_incr (position 1 chain_1 1) state_1_inserted
    = Ret (mkIter (node_at 4)) state_1_inserted
  ∧ iter_incr (mkIter (node_at 4)) state_1_inserted
    = Ret (position 1 chain_1 2) state_1_inserted
  ∧ (∃ a, mkIter (node_at 4) = mkIter (node_at a) ∧ heap state_1 !! a = None)
  ∧ (∀ l xs, l ≠ 1%positive → iterate l state_1 = Ret xs state_1 →
             iterate l state_1_inserted = Ret xs state_1_inserted)
  ∧ state_inv state_1_inserted.
Proof.
  assert (1 ≤ length chain_1) as Hi by (simpl; lia).
  assert (InsertAfter new_Z 1 (position 1 chain_1 1) 9%Z state_1
          = Ret (mkIter (node_at 4)) state_1_inserted) as Hrun
    by (vm_compute; reflexivity).
  destruct (InsertAfter_places_value new_Z (@bump_new_spec _) state_1 1 chain_1 1 9%Z
              state_1_inv state_1_owns Hi) as (_ & Hret & _ & Hpost).
  destruct (InsertAfter_places_value (bounded_new 3) bounded_new_3_spec state_1 1
              chain_1 1 9%Z state_1_inv state_1_owns Hi) as (_ & _ & Hthrow & _).
  split; [apply Hret; vm_compute; eexists; reflexivity|].
  split; [apply Hthrow; vm_compute; reflexivity|].
  split; [exact Hrun|]. exact (Hpost _ _ Hrun).
Defined.


(** With an [==] on the elements that is not reflexive, a copy does not
    compare equal to its source: [std::equal] uses [==] of the element
    type. *)
Example copy_differs_without_reflexivity :
  fst <$> run (a <- init_list_ctor 0%Z new_Z [1; 0]%Z ;;
               c <- copy_ctor 0%Z new_Z a ;;
               eq <- operator_eq nan_eq c a ;;
               ne <- operator_ne nan_eq c a ;;
               same <- operator_eq Z.eqb c a ;;
               ret (eq, ne, same)) empty_state
  = Some (false, true, true).
Proof. vm_compute. reflexivity. Qed.

Lemma new_4_spec (h : gmap positive (Node Z)) a :
  bounded_new 4 h = Some a → h !! a = None ∧ (Z.of_nat (size h) + 1 < SIZE_MAX1)%Z.
Proof. apply bounded_new_spec. done. Qed.

Lemma state_1_reachable_bounded : reachable 0%Z (bounded_new 4) state_1.
Proof.
  apply (reachable_call 0%Z (bounded_new 4) empty_state (CallInitListCtor [1; 2; 3]%Z));
    [apply reachable_init|exact I|vm_compute; reflexivity].
Qed.

Lemma PopFront_removes_first_witness :
  ∃ s', PopFront 1 state_1 = Ret tt s'
        ∧ iterate 1 s' = Ret (tail [1; 2; 3]%Z) s'
        ∧ GetSize 1 s' = Ret (Z.of_nat (length (tail [1; 2; 3]%Z))) s'
        ∧ ([1; 2; 3]%Z = [] → s' = state_1)
        ∧ (∀ l' ys, l' ≠ 1%positive → iterate l' state_1 = Ret ys state_1 →
                    iterate l' s' = Ret ys s')
        ∧ state_inv s'.
Proof.
  apply (PopFront_removes_first state_1 1 [1; 2; 3]%Z state_1_inv).
  vm_compute. reflexivity.
Defined.

Lemma PushFront_PopFront_restores_witness :
  PushFront new_Z 1 9%Z state_1 = Ret tt state_1_pushed
  ∧ PopFront 1 state_1_pushed = Ret tt state_1.
Proof.
  assert (PushFront new_Z 1 9%Z state_1 = Ret tt state_1_pushed) as Hpush
    by (vm_compute; reflexivity).
  split; [exact Hpush|].
  exact (PushFront_PopFront_restores new_Z (@bump_new_spec _) state_1 1 9%Z
           state_1_pushed state_1_inv Hpush).
Defined.

Lemma InsertAfter_EraseAfter_restores_witness :
  InsertAfter new_Z 1 (position 1 chain_1 1) 9%Z state_1
  = Ret (mkIter (node_at 4)) state_1_inserted
  ∧ EraseAfter 1 (position 1 chain_1 1) state_1_inserted
    = Ret (position 1 chain_1 2) state_1.
Proof.
  assert (InsertAfter new_Z 1 (position 1 chain_1 1) 9%Z state_1
          = Ret (mkIter (node_at 4)) state_1_inserted) as Hins
    by (vm_compute; reflexivity).
  split; [exact Hins|].
  apply (InsertAfter_EraseAfter_restores new_Z (@bump_new_spec _) state_1 1 chain_1 1
           9%Z (mkIter (node_at 4)) state_1_inserted state_1_owns);
    [simpl; lia|exact Hins].
Defined.

Lemma swap_twice_restores_witness :
  ∃ s1, swap 1 2 state_2 = Ret tt s1
        ∧ swap 2 1 state_2 = Ret tt s1
        ∧ swap 1 2 s1 = Ret tt state_2.
Proof.
  apply (swap_twice_restores state_2 1 2).
  - vm_compute. eexists. reflexivity.
  - vm_compute. eexists. reflexivity.
Defined.

Lemma allocation_failure_changes_nothing_witness :
  PushFront (bounded_new 3) 1 9%Z state_1 = Throw state_1
  ∧ InsertAfter (bounded_new 3) 1 (position 1 chain_1 1) 9%Z state_1 = Throw state_1
  ∧ state_1 = state_1.
Proof.
  assert (PushFront (bounded_new 3) 1 9%Z state_1 = Throw state_1) as H1
    by (vm_compute; reflexivity).
  assert (InsertAfter (bounded_new 3) 1 (position 1 chain_1 1) 9%Z state_1
          = Throw state_1) as H2 by (vm_compute; reflexivity).
  split; [exact H1|]. split; [exact H2|].
  exact (proj1 (allocation_failure_changes_nothing (bounded_new 3) 1
                  (position 1 chain_1 1) 9%Z state_1 state_1) H1).
Defined.

Lemma init_list_ctor_literal_order_witness :
  init_list_ctor 0%Z new_Z [7; 8]%Z state_1 = Ret 2%positive state_1_literal
  ∧ ¬ live state_1 2
  ∧ iterate 2 state_1_literal = Ret [7; 8]%Z state_1_literal
  ∧ GetSize 2 state_1_literal = Ret (Z.of_nat (length [7; 8]%Z)) state_1_literal
  ∧ (∀ l xs, iterate l state_1 = Ret xs state_1 →
             iterate l state_1_literal = Ret xs state_1_literal)
  ∧ state_inv state_1_literal.
Proof.
  assert (init_list_ctor 0%Z new_Z [7; 8]%Z state_1 = Ret 2%positive state_1_literal)
    as Hrun by (vm_compute; reflexivity).
  split; [exact Hrun|].
  exact (proj2 (init_list_ctor_literal_order 0%Z new_Z (@bump_new_spec _) state_1
                  [7; 8]%Z state_1_inv) 2%positive state_1_literal Hrun).
Defined.

Lemma Clear_frees_nodes_witness :
  ∃ s', Clear 1 state_1 = Ret tt s'
        ∧ (∀ a, is_Some (heap s' !! a)
                ↔ (a ∉ chain_1.*1) ∧ is_Some (heap state_1 !! a))
        ∧ (∀ a, a ∉ chain_1.*1 → heap s' !! a = heap state_1 !! a)
        ∧ (∀ l' xs, l' ≠ 1%positive → iterate l' state_1 = Ret xs state_1 →
                    iterate l' s' = Ret xs s')
        ∧ state_inv s'.
Proof. exact (Clear_frees_nodes state_1 1 chain_1 state_1_inv state_1_owns). Defined.

Lemma destructor_releases_list_witness :
  ∃ s', destructor 1 state_1 = Ret tt s'
        ∧ ¬ live s' 1
        ∧ (∀ l', l' ≠ 1%positive → objs s' !! l' = objs state_1 !! l')
        ∧ (∀ a, is_Some (heap s' !! a)
                ↔ (a ∉ chain_1.*1) ∧ is_Some (heap state_1 !! a))
        ∧ (∀ l' xs, l' ≠ 1%positive → iterate l' state_1 = Ret xs state_1 →
                    iterate l' s' = Ret xs s')
        ∧ state_inv s'.
Proof.
  exact (destructor_releases_list state_1 1 chain_1 state_1_inv state_1_owns).
Defined.

Lemma copy_compares_equal_witness :
  copy_ctor 0%Z new_Z 1 state_1 = Ret 2%positive state_1_copied
  ∧ operator_eq Z.eqb 2 1 state_1_copied = Ret true state_1_copied
  ∧ operator_eq Z.eqb 1 2 state_1_copied = Ret true state_1_copied
  ∧ operator_ne Z.eqb 2 1 state_1_copied = Ret false state_1_copied
  ∧ ((∀ x, Z.ltb x x = false) →
     operator_lt Z.ltb 2 1 state_1_copied = Ret false state_1_copied
     ∧ operator_gt Z.ltb 2 1 state_1_copied = Ret false state_1_copied
     ∧ operator_le Z.ltb 2 1 state_1_copied = Ret true state_1_copied
     ∧ operator_ge Z.ltb 2 1 state_1_copied = Ret true state_1_copied).
Proof.
  assert (copy_ctor 0%Z new_Z 1 state_1 = Ret 2%positive state_1_copied) as Hcopy
    by (vm_compute; reflexivity).
  split; [exact Hcopy|].
  apply (copy_compares_equal 0%Z Z.eqb Z.ltb new_Z (@bump_new_spec _) state_1 1
           [1; 2; 3]%Z 2 state_1_copied Z.eqb_refl state_1_inv); [|exact Hcopy].
  vm_compute. reflexivity.
Defined.

Lemma iterator_visits_elements_witness :
  ∃ a, bind (begin 1) (advance 1) state_1 = Ret (mkIter (node_at a)) state_1
       ∧ iter_deref (mkIter (node_at a)) state_1 = Ret 2%Z state_1
       ∧ bind (begin 1) (advance (length [1; 2; 3]%Z)) state_1 = Ret end_ state_1.
Proof.
  apply (iterator_visits_elements state_1 1 [1; 2; 3]%Z 1 2%Z state_1_inv).
  - vm_compute. reflexivity.
  - reflexivity.
Defined.

Lemma InsertAfter_keeps_iterators_witness :
  (∀ k c, chain_1 !! k = Some c →
          iter_deref (position 1 chain_1 (S k)) state_1_inserted
          = Ret c.2 state_1_inserted)
  ∧ (∀ l' cs' k c, l' ≠ 1%positive → owns state_1 l' cs' → cs' !! k = Some c →
       iter_deref (position l' cs' (S k)) state_1_inserted
       = Ret c.2 state_1_inserted).
Proof.
  apply (InsertAfter_keeps_iterators new_Z (@bump_new_spec _) state_1 1 chain_1 1
           9%Z (mkIter (node_at 4)) state_1_inserted state_1_inv state_1_owns).
  - simpl. lia.
  - vm_compute. reflexivity.
Defined.

Lemma EraseAfter_invalidates_only_erased_witness :
  (∀ k c, chain_1 !! k = Some c → k ≠ 1 →
     iter_deref (position 1 chain_1 (S k)) state_1_erased = Ret c.2 state_1_erased)
  ∧ iter_deref (position 1 chain_1 2) state_1_erased = Undefined
  ∧ iter_incr (position 1 chain_1 2) state_1_erased = Undefined
  ∧ (∀ l' cs' k c, l' ≠ 1%positive → owns state_1 l' cs' → cs' !! k = Some c →
       iter_deref (position l' cs' (S k)) state_1_erased = Ret c.2 state_1_erased).
Proof.
  apply (EraseAfter_invalidates_only_erased state_1 1 chain_1 1
           (position 1 chain_1 3) state_1_erased state_1_inv state_1_owns).
  - simpl. lia.
  - vm_compute. reflexivity.
Defined.

Lemma EraseAfter_without_successor_undefined_witness :
  (chain_1 ≠ [] → EraseAfter 1 (position 1 chain_1 (length chain_1)) state_1 = Undefined)
  ∧ EraseAfter 1 end_ state_1 = Undefined.
Proof. exact (EraseAfter_without_successor_undefined state_1 1 chain_1 state_1_owns). Defined.

Lemma reachable_heap_is_owned_witness :
  (∀ a, is_Some (heap state_3 !! a) →
     ∃ l cs, owns state_3 l cs ∧ a ∈ cs.*1
             ∧ ∀ l' cs', owns state_3 l' cs' → a ∈ cs'.*1 → l' = l)
  ∧ (objs state_3 = ∅ → heap state_3 = ∅).
Proof.
  exact (reachable_heap_is_owned 0%Z new_Z (@bump_new_spec _) state_3
           state_3_reachable).
Defined.

Lemma failed_construction_leaves_lists_witness :
  copy_ctor 0%Z (bounded_new 4) 1 state_1 = Throw state_1
  ∧ same_lists state_1 state_1.
Proof.
  assert (copy_ctor 0%Z (bounded_new 4) 1 state_1 = Throw state_1) as Hthrow
    by (vm_compute; reflexivity).
  split; [exact Hthrow|].
  apply (proj1 (proj2 (failed_construction_leaves_lists 0%Z (bounded_new 4)
                         new_4_spec state_1 state_1 state_1_reachable_bounded)) 1%positive);
    [|exact Hthrow].
  vm_compute. eexists. reflexivity.
Defined.

Lemma comparison_trichotomy_witness :
  ∃ eq lt gt : bool,
    operator_eq Z.eqb 1 2 state_2 = Ret eq state_2
    ∧ operator_lt Z.ltb 1 2 state_2 = Ret lt state_2
    ∧ operator_gt Z.ltb 1 2 state_2 = Ret gt state_2
    ∧ operator_le Z.ltb 1 2 state_2 = Ret (eq || lt) state_2
    ∧ operator_ge Z.ltb 1 2 state_2 = Ret (eq || gt) state_2
    ∧ ((eq = true ∧ lt = false ∧ gt = false)
       ∨ (eq = false ∧ lt = true ∧ gt = false)
       ∨ (eq = false ∧ lt = false ∧ gt = true)).
Proof.
  apply (comparison_trichotomy Z.eqb Z.ltb state_2 1 2 [1; 2; 3]%Z [1; 2; 4]%Z).
  - intros x y. rewrite Z.eqb_eq, !Z.ltb_ge. lia.
  - intros x y H1. apply Z.ltb_lt in H1. apply Z.ltb_ge. lia.
  - exact state_2_inv.
  - vm_compute. reflexivity.
  - vm_compute. reflexivity.
Defined.
